(** * Handwriting-to-font pipeline: a shallow embedding and its properties

    The development follows the layout of [backend/pipeline]:
    - [Preprocess]  (preprocess.py)  binarisation and small-blob removal,
    - [Segment]     (segment.py)     character segmentation and the
                                     single-glyph extractor,
    - [Vectorize]   (vectorize.py)   contours to font paths and metrics,
    - [Fontgen]     (fontgen.py)     font assembly,
    - [Main]        (main.py)        the guards of the request handlers.

    Conventions of the embedding.
    - Python [int] is [Z]; list indices and lengths are [nat].
    - Python [float] has two models.  [Vectorize] computes on exact
      rationals [Q]: what is proved there concerns the winding, the
      shape and the order of what is emitted, and bounds that rounding
      to a double preserves.  [Vectorize64] computes as the interpreter
      does, every operation rounded to the nearest binary64 value
      ([Binary64.fl]); the metrics of a glyph are stated there.
    - [round] is Python 3's round-half-to-even, [py_round].
    - A numpy [uint8] image is a list of rows of [Z] pixel values.
    - A raised exception is the [Raise] case of [result].
    - OpenCV routines whose algorithm is not part of the repository
      (contour tracing, polygon simplification, component labelling,
      filtering) are Section variables; the ones with an elementary
      definition ([boundingRect], [findNonZero]) are written out. *)

From Stdlib Require Import ZArith QArith Qround Qabs Qpower Lia Ascii.
From stdpp Require Import base list gmap strings.

Local Open Scope Z_scope.

(** ** Exceptions *)

Inductive exn : Type :=
  | ValueError (msg : string)
  | IndexError
  | TypeError (msg : string)
  | AttributeError (msg : string)
  | cv2_error (msg : string)
  | HTTPException (status_code : Z) (detail : string).

Inductive result (A : Type) : Type :=
  | Ok (a : A)
  | Raise (e : exn).
Arguments Ok {A} a.
Arguments Raise {A} e.

Definition result_bind {A B : Type} (f : A -> result B) (r : result A) : result B :=
  match r with
  | Ok a => f a
  | Raise e => Raise e
  end.

#[global] Instance result_mret : MRet result := fun _ a => Ok a.
#[global] Instance result_mbind : MBind result := fun _ _ f r => result_bind f r.

(** [l[i]] on a Python list: [IndexError] out of range. *)
Definition index {A : Type} (l : list A) (i : nat) : result A :=
  match l !! i with
  | Some a => Ok a
  | None => Raise IndexError
  end.

(** ** Numbers *)

Definition Qltb (x y : Q) : bool := negb (Qle_bool y x).

(** Python 3 [round(x)] on a float: nearest integer, ties to even. *)
Definition py_round (x : Q) : Z :=
  let f := Qfloor x in
  match (x - inject_Z f ?= 1 # 2)%Q with
  | Lt => f
  | Gt => f + 1
  | Eq => if Z.even f then f else f + 1
  end.

(** ** Images and point sets *)

Abbreviation Point := (Z * Z)%type (only parsing).              (* (x, y) *)
Abbreviation Contour := (list (Z * Z)) (only parsing).          (* an N x 1 x 2 int32 array *)
Abbreviation Mask := (list (list Z)) (only parsing).            (* rows of uint8 pixels *)
Abbreviation Rect := (Z * Z * Z * Z)%type (only parsing).      (* (x, y, w, h) *)

(** The pixel at row [r], column [c]; [None] outside the image. *)
Definition pixel {A : Type} (m : list (list A)) (r c : nat) : option A :=
  m !! r ≫= (fun row => row !! c).

Definition min_list (d : Z) (l : list Z) : Z := fold_right Z.min d l.
Definition max_list (d : Z) (l : list Z) : Z := fold_right Z.max d l.

(** [cv2.boundingRect] of an integer point set: the up-right rectangle
    spanning the points, both extreme columns and rows included. *)
Definition boundingRect (pts : list Point) : Rect :=
  match pts with
  | [] => (0, 0, 0, 0)
  | (x0, y0) :: rest =>
      let xmin := min_list x0 (map fst rest) in
      let xmax := max_list x0 (map fst rest) in
      let ymin := min_list y0 (map snd rest) in
      let ymax := max_list y0 (map snd rest) in
      (xmin, ymin, xmax - xmin + 1, ymax - ymin + 1)
  end.

(** [np.vstack(contours)]: all the points of all contours. *)
Definition vstack (contours : list Contour) : list Point := concat contours.

(** * vectorize.py *)

Module Vectorize.

Definition UNITS_PER_EM : Z := 1000.
Definition ASCENDER : Z := 800.
Definition DESCENDER : Z := -200.

(** One row of the contour hierarchy: [next, previous, first_child, parent]. *)
Abbreviation HierarchyRow := (Z * Z * Z * Z)%type (only parsing).
Definition parent (h : HierarchyRow) : Z := h.2.

Record PathGroup : Type := mkPath { points : list Point; is_hole : bool }.

Record GlyphData : Type :=
  mkGlyph { paths : list PathGroup; advance_width : Z; lsb : Z }.

(** [polygon_area]: the shoelace loop, index [j] wrapping around. The
    accumulator only ever holds integers; the halving is the last step. *)
Definition polygon_area (pts : list Point) : Q :=
  let n := length pts in
  let area :=
    fold_left
      (fun area i =>
         let j := ((i + 1) mod n)%nat in
         let pi := nth i pts (0, 0) in
         let pj := nth j pts (0, 0) in
         area + pi.1 * pj.2 - pj.1 * pi.2)
      (seq 0 n) 0 in
  (inject_Z area / 2)%Q.

Section WithOpenCV.

(** [cv2.findContours(binary, RETR_CCOMP, CHAIN_APPROX_TC89_L1)]: the
    contours and the hierarchy, which is [None] when nothing is found. *)
Variable findContours : Mask -> list Contour * option (list HierarchyRow).

(** [cv2.approxPolyDP(contour, epsilon, closed)]. *)
Variable approxPolyDP : Contour -> Q -> bool -> Contour.

Definition bitmap_to_contours (binary : Mask)
  : list Contour * option (list HierarchyRow) :=
  findContours binary.

(** Coordinates of one simplified point in font units. *)
Definition transform_point (bx by_ : Z) (scale : Q) (target_height : Z)
    (p : Point) : Point :=
  let fx := ((inject_Z p.1 - inject_Z bx) * scale)%Q in
  let fy := (inject_Z target_height - (inject_Z p.2 - inject_Z by_) * scale
             + inject_Z DESCENDER)%Q in
  (py_round fx, py_round fy).

(** The body of the loop over [enumerate(contours)]: [None] is a
    [continue], [Some] the command appended. *)
Definition contour_command (hier : list HierarchyRow) (bx by_ : Z)
    (scale : Q) (target_height : Z) (i : nat) (contour : Contour)
  : result (option PathGroup) :=
  if (length contour <? 3)%nat then Ok None
  else
    let epsilon := (1 # 2)%Q in
    let approx := approxPolyDP contour epsilon true in
    if (length approx <? 3)%nat then Ok None
    else
      h ← index hier i;
      let is_hole := negb (parent h =? -1) in
      let transformed := map (transform_point bx by_ scale target_height) approx in
      let area := polygon_area transformed in
      let transformed :=
        if (negb is_hole && Qltb 0 area) || (is_hole && Qltb area 0)
        then rev transformed else transformed in
      Ok (Some (mkPath transformed is_hole)).

Fixpoint commands_loop (hier : list HierarchyRow) (bx by_ : Z) (scale : Q)
    (target_height : Z) (i : nat) (contours : list Contour)
    (commands : list PathGroup) : result (list PathGroup) :=
  match contours with
  | [] => Ok commands
  | contour :: rest =>
      c ← contour_command hier bx by_ scale target_height i contour;
      commands_loop hier bx by_ scale target_height (S i) rest
        (match c with
         | Some cmd => commands ++ [cmd]
         | None => commands
         end)
  end.

Definition contours_to_font_paths (contours : list Contour)
    (hierarchy : option (list HierarchyRow)) (target_height : Z)
  : result (list PathGroup) :=
  match contours, hierarchy with
  | [], _ | _, None => Ok []
  | _ :: _, Some hier =>
      let all_points := vstack contours in
      let '(bx, by_, bw, bh) := boundingRect all_points in
      if (bw =? 0) || (bh =? 0) then Ok []
      else
        let scale := (inject_Z target_height / inject_Z (Z.max bh 1))%Q in
        commands_loop hier bx by_ scale target_height 0 contours []
  end.

(** [calculate_advance_width]: a helper with a 15% bearing; nothing in
    the pipeline calls it. *)
Definition calculate_advance_width (contours : list Contour)
    (bitmap_height : Z) (target_height : Z) : Z :=
  match contours with
  | [] => py_round (inject_Z UNITS_PER_EM * (1 # 2))%Q
  | _ :: _ =>
      let all_points := vstack contours in
      let '(_, _, bw, bh) := boundingRect all_points in
      let scale := (inject_Z target_height / inject_Z (Z.max bh 1))%Q in
      let width := py_round (inject_Z bw * scale)%Q in
      let bearing := py_round (inject_Z width * (15 # 100))%Q in
      width + bearing * 2
  end.

Definition shift_path (bearing : Z) (path_group : PathGroup) : PathGroup :=
  mkPath (map (fun p : Point => (p.1 + bearing, p.2)) (points path_group))
         (is_hole path_group).

Definition process_glyph_bitmap (binary : Mask) : result GlyphData :=
  let '(contours, hierarchy) := bitmap_to_contours binary in
  match contours, hierarchy with
  | [], _ | _, None =>
      Ok (mkGlyph [] (py_round (inject_Z UNITS_PER_EM * (1 # 2))%Q) 0)
  | _ :: _, Some _ =>
      paths ← contours_to_font_paths contours hierarchy (ASCENDER - DESCENDER);
      let all_points := vstack contours in
      let '(_, _, bw, bh) := boundingRect all_points in
      let scale := (inject_Z (ASCENDER - DESCENDER) / inject_Z (Z.max bh 1))%Q in
      let raw_width := py_round (inject_Z bw * scale)%Q in
      let bearing := py_round (inject_Z raw_width * (12 # 100))%Q in
      let advance_width := raw_width + bearing * 2 in
      let paths := map (shift_path bearing) paths in
      Ok (mkGlyph paths advance_width bearing)
  end.

End WithOpenCV.

End Vectorize.

(** * Python built-ins used by the pipeline *)

(** A Python [str] is its list of code points.  The case tables
    ([isalpha], [lower], [upper]) are written out for the ASCII range
    only: they agree with Python's on a string for which [isascii]
    holds, and statements about them are made for such strings. *)
Abbreviation char := N (only parsing).
Abbreviation str := (list N) (only parsing).

Definition str_of (s : string) : str :=
  map (fun a => Ascii.N_of_ascii a) (String.list_ascii_of_string s).

Definition isupper (c : char) : bool := ((65 <=? c) && (c <=? 90))%N.
Definition islower (c : char) : bool := ((97 <=? c) && (c <=? 122))%N.
Definition isalpha (c : char) : bool := isupper c || islower c.
Definition lower_char (c : char) : char := if isupper c then (c + 32)%N else c.
Definition upper_char (c : char) : char := if islower c then (c - 32)%N else c.
Definition lower (s : str) : str := map lower_char s.
Definition isascii (s : str) : bool := forallb (fun c => (c <? 128)%N) s.

(** [sorted(l, key=...)]: a stable sort. *)
Fixpoint insert_by {A : Type} (key : A -> Z) (a : A) (l : list A) : list A :=
  match l with
  | [] => [a]
  | b :: l' => if key a <=? key b then a :: l else b :: insert_by key a l'
  end.

Definition sorted_by {A : Type} (key : A -> Z) (l : list A) : list A :=
  fold_right (insert_by key) [] l.

(** [enumerate(l)]. *)
Definition enumerate {A : Type} (l : list A) : list (nat * A) :=
  imap (fun i a => (i, a)) l.

(** [l[a:b]] with Python's treatment of negative and oversized bounds. *)
Definition slice_bound (len k : Z) : Z :=
  if k <? 0 then Z.max 0 (k + len) else Z.min k len.

Definition slice {A : Type} (l : list A) (a b : Z) : list A :=
  let len := Z.of_nat (length l) in
  let a' := slice_bound len a in
  let b' := slice_bound len b in
  take (Z.to_nat (b' - a')) (drop (Z.to_nat a') l).

(** [m[y1:y2, x1:x2]] on a 2-D array. *)
Definition slice2 (m : Mask) (y1 y2 x1 x2 : Z) : Mask :=
  let cols := match m with [] => 0%nat | row :: _ => length row end in
  let a' := slice_bound (Z.of_nat cols) x1 in
  let b' := slice_bound (Z.of_nat cols) x2 in
  map (fun row => take (Z.to_nat (b' - a')) (drop (Z.to_nat a') row))
      (slice m y1 y2).

Definition shape0 (m : Mask) : Z := Z.of_nat (length m).
Definition shape1 (m : Mask) : Z :=
  match m with
  | [] => 0
  | row :: _ => Z.of_nat (length row)
  end.

(** * segment.py *)

Module Segment.

Abbreviation Box := (Z * Z * Z * Z)%type (only parsing).

Definition box_x (b : Box) : Z := b.1.1.1.
Definition box_y (b : Box) : Z := b.1.1.2.
Definition box_w (b : Box) : Z := b.1.2.
Definition box_h (b : Box) : Z := b.2.

(** [sorted(heights)[len(heights) // 2]]; only used on non-empty lists. *)
Definition median (heights : list Z) : Z :=
  nth (length heights / 2)%nat (sorted_by id heights) 0.

(** [h1 < median_h * 0.4 and w1 < median_h * 0.4]. *)
Definition is_small (median_h : Z) (b : Box) : bool :=
  Qltb (inject_Z (box_h b)) (inject_Z median_h * (4 # 10))
  && Qltb (inject_Z (box_w b)) (inject_Z median_h * (4 # 10)).

(** [y2 > y1 and abs((x1 + w1 / 2) - (x2 + w2 / 2)) < w2]. *)
Definition below_and_overlapping (b1 b2 : Box) : bool :=
  (box_y b1 <? box_y b2)
  && Qltb (Qabs ((inject_Z (box_x b1) + inject_Z (box_w b1) / 2)
                 - (inject_Z (box_x b2) + inject_Z (box_w b2) / 2)))
          (inject_Z (box_w b2)).

(** [dist = y2 - (y1 + h1)]. *)
Definition gap (b1 b2 : Box) : Z := box_y b2 - (box_y b1 + box_h b1).

(** [dist < best_dist], where [best_dist] starts at [float("inf")]. *)
Definition lt_best (dist : Z) (best_dist : option Z) : bool :=
  match best_dist with
  | None => true
  | Some d => dist <? d
  end.

(** The inner loop [for j, (x2, y2, w2, h2) in indexed]; the state is
    [(best_parent, best_dist)]. *)
Definition parent_step (used : gset nat) (median_h : Z) (i : nat) (b1 : Box)
    (st : option nat * option Z) (jb : nat * Box) : option nat * option Z :=
  let '(j, b2) := jb in
  if bool_decide (j = i) || bool_decide (j ∈ used) then st
  else if below_and_overlapping b1 b2 then
    let dist := gap b1 b2 in
    if Qltb (inject_Z dist) (inject_Z median_h * (8 # 10)) && lt_best dist st.2
    then (Some j, Some dist)
    else st
  else st.

Definition find_parent (indexed : list (nat * Box)) (used : gset nat)
    (median_h : Z) (i : nat) (b1 : Box) : option nat :=
  (fold_left (parent_step used median_h i b1) indexed (None, None)).1.

(** The bounding box encompassing both boxes. *)
Definition merge_boxes (b1 p : Box) : Box :=
  let mx := Z.min (box_x b1) (box_x p) in
  let my := Z.min (box_y b1) (box_y p) in
  let mx2 := Z.max (box_x b1 + box_w b1) (box_x p + box_w p) in
  let my2 := Z.max (box_y b1 + box_h b1) (box_y p + box_h p) in
  (mx, my, mx2 - mx, my2 - my).

(** The body of the outer loop [for i, (x1, y1, w1, h1) in indexed]; the
    state is [(merged, used)]. [boxes[best_parent]] is always in range,
    [best_parent] being an index taken from [enumerate(boxes)]. *)
Definition merge_step (boxes : list Box) (indexed : list (nat * Box))
    (median_h : Z) (st : list Box * gset nat) (ib : nat * Box)
  : list Box * gset nat :=
  let '(merged, used) := st in
  let '(i, b1) := ib in
  if bool_decide (i ∈ used) then st
  else
    match (if is_small median_h b1
           then find_parent indexed used median_h i b1 else None) with
    | Some best_parent =>
        let p := nth best_parent boxes (0, 0, 0, 0) in
        (merged ++ [merge_boxes b1 p], {[best_parent]} ∪ ({[i]} ∪ used))
    | None => (merged ++ [b1], {[i]} ∪ used)
    end.

Definition merge_close_bboxes (bboxes : list (Box * Contour)) (binary : Mask)
  : list Box :=
  let boxes := map fst bboxes in
  let heights := map box_h boxes in
  match heights with
  | [] => boxes
  | _ :: _ =>
      let median_h := median heights in
      let indexed := sorted_by (fun t : nat * Box => box_y t.2) (enumerate boxes) in
      (fold_left (merge_step boxes indexed median_h) indexed ([], ∅)).1
  end.

(** The line-grouping loop; the state is [(lines, current_line, current_y)]. *)
Definition line_step (line_threshold : Q)
    (st : list (list Box) * list Box * Z) (bbox : Box)
  : list (list Box) * list Box * Z :=
  let '(lines, current_line, current_y) := st in
  if Qltb (inject_Z (Z.abs (box_y bbox - current_y))) line_threshold
  then (lines, current_line ++ [bbox], current_y)
  else (lines ++ [current_line], [bbox], box_y bbox).

Definition sort_reading_order (bboxes : list Box) (img_height : Z) : list Box :=
  match bboxes with
  | [] => bboxes
  | _ :: _ =>
      let heights := map box_h bboxes in
      let median_h := median heights in
      let line_threshold := (inject_Z median_h * (1 # 2))%Q in
      match sorted_by box_y bboxes with
      | [] => []
      | first :: rest =>
          let '(lines, current_line, _) :=
            fold_left (line_step line_threshold) rest ([], [first], box_y first) in
          let lines := lines ++ [current_line] in
          concat (map (sorted_by box_x) lines)
      end
  end.

(** The last loop of [segment_characters]; the state is
    [(results, seen_chars)], and running out of pangram letters is the
    [break]. *)
Fixpoint assign_chars (binary : Mask) (pangram_chars : str) (i : nat)
    (sorted_bboxes : list Box) (results : list (char * Mask))
    (seen_chars : gset char) : list (char * Mask) :=
  match sorted_bboxes with
  | [] => results
  | b :: rest =>
      match pangram_chars !! i with
      | None => results
      | Some c =>
          let pad := 4 in
          let y1 := Z.max 0 (box_y b - pad) in
          let y2 := Z.min (shape0 binary) (box_y b + box_h b + pad) in
          let x1 := Z.max 0 (box_x b - pad) in
          let x2 := Z.min (shape1 binary) (box_x b + box_w b + pad) in
          let cropped := slice2 binary y1 y2 x1 x2 in
          if bool_decide (c ∈ seen_chars)
          then assign_chars binary pangram_chars (S i) rest results seen_chars
          else assign_chars binary pangram_chars (S i) rest
                 (results ++ [(c, cropped)]) ({[c]} ∪ seen_chars)
      end
  end.

Section WithOpenCV.

(** [cv2.findContours(binary, RETR_EXTERNAL, CHAIN_APPROX_SIMPLE)]. *)
Variable findContours : Mask -> list Contour.

Definition segment_characters (binary : Mask) (pangram : str)
  : result (list (char * Mask)) :=
  let contours := findContours binary in
  match contours with
  | [] => Raise (ValueError "No characters found in image")
  | _ :: _ =>
      let bboxes :=
        omap (fun contour =>
                let b := boundingRect contour in
                if (5 <? box_w b) && (5 <? box_h b)
                then Some (b, contour) else None)
             contours in
      match bboxes with
      | [] => Raise (ValueError "No valid character regions found")
      | _ :: _ =>
          let merged := merge_close_bboxes bboxes binary in
          let sorted_bboxes := sort_reading_order merged (shape0 binary) in
          let pangram_chars := filter (fun c => isalpha c = true) (lower pangram) in
          Ok (assign_chars binary pangram_chars 0 sorted_bboxes [] ∅)
      end
  end.

End WithOpenCV.

(** [cv2.findNonZero]: the [(x, y)] of the non-zero pixels in row-major
    order, or [None] when there is none. *)
Definition nonzero_in_row (r : nat) (row : list Z) : list Point :=
  omap id (imap (fun c v => if v =? 0 then None
                            else Some (Z.of_nat c, Z.of_nat r)) row).

Definition findNonZero (binary : Mask) : option (list Point) :=
  match concat (imap nonzero_in_row binary) with
  | [] => None
  | coords => Some coords
  end.

(** [np.zeros((rows, cols), dtype=np.uint8)]. *)
Definition zeros (rows cols : Z) : Mask :=
  replicate (Z.to_nat rows) (replicate (Z.to_nat cols) 0).

(** Storing into a [uint8] array truncates to eight bits. *)
Definition to_uint8 (v : Z) : Z := v mod 256.

(** [canvas[oy:oy+h, ox:ox+w] = block], the block having shape [(h, w)]. *)
Definition assign_row (row : list Z) (ox w : nat) (src : list Z) : list Z :=
  take ox row ++ map to_uint8 src ++ drop (ox + w) row.

Definition assign_block (canvas : Mask) (oy ox h w : Z) (block : Mask) : Mask :=
  let oy := Z.to_nat oy in
  let ox := Z.to_nat ox in
  let h := Z.to_nat h in
  let w := Z.to_nat w in
  take oy canvas
  ++ zip_with (fun row src => assign_row row ox w src) (take h (drop oy canvas)) block
  ++ drop (oy + h) canvas.

Definition extract_single_glyph (binary : Mask) : Mask :=
  match findNonZero binary with
  | None => binary
  | Some coords =>
      let '(x, y, w, h) := boundingRect coords in
      let cropped := slice2 binary y (y + h) x (x + w) in
      let size := Z.max w h + 20 in
      let canvas := zeros size size in
      let ox := (size - w) / 2 in
      let oy := (size - h) / 2 in
      assign_block canvas oy ox h w cropped
  end.

End Segment.

(** * preprocess.py *)

Module Preprocess.

Abbreviation Image := (list (list (Z * Z * Z))) (only parsing).   (* BGR pixels *)
Abbreviation Labels := (list (list nat)) (only parsing).
Abbreviation Pixel := (nat * nat)%type (only parsing).            (* (row, column) *)

(** One row of [stats]: left, top, width, height, area. *)
Record Stat : Type :=
  mkStat { CC_STAT_LEFT : Z; CC_STAT_TOP : Z; CC_STAT_WIDTH : Z;
           CC_STAT_HEIGHT : Z; CC_STAT_AREA : Z }.

Definition px (m : Mask) (p : Pixel) : Z :=
  default 0 (pixel m p.1 p.2).

Definition label_at (labels : Labels) (p : Pixel) : nat :=
  default 0%nat (pixel labels p.1 p.2).

(** [np.zeros_like(binary)]. *)
Definition zeros_like (binary : Mask) : Mask := map (map (fun _ => 0)) binary.

(** [result[labels == i] = v]. *)
Definition assign_where (result : Mask) (labels : Labels) (i : nat) (v : Z) : Mask :=
  zip_with (zip_with (fun r l => if (l =? i)%nat then v else r)) result labels.

Section WithOpenCV.

Variable cvtColor : Image -> Mask.                      (* COLOR_BGR2GRAY *)
Variable GaussianBlur : Mask -> Z * Z -> Z -> Mask.
Variable adaptiveThreshold : Mask -> Z -> Z -> Z -> Mask.
    (* maxValue, blockSize, C; ADAPTIVE_THRESH_GAUSSIAN_C, THRESH_BINARY_INV *)
Variable morphologyEx : Mask -> Z * Z -> Z -> Mask.
    (* MORPH_CLOSE with a MORPH_RECT kernel of the given size, iterations *)

(** [cv2.connectedComponentsWithStats(binary, connectivity)]:
    [(num_labels, labels, stats)]. *)
Variable connectedComponentsWithStats : Mask -> Z -> nat * Labels * list Stat.

Definition remove_small_components (binary : Mask) (min_area : Z) : Mask :=
  let '(num_labels, labels, stats) := connectedComponentsWithStats binary 8 in
  let result := zeros_like binary in
  fold_left
    (fun result i =>
       if min_area <=? CC_STAT_AREA (nth i stats (mkStat 0 0 0 0 0))
       then assign_where result labels i 255
       else result)
    (seq 1 (num_labels - 1)) result.

Definition preprocess (img : Image) : Mask :=
  let gray := cvtColor img in
  let blurred := GaussianBlur gray (5, 5) 0 in
  let binary := adaptiveThreshold blurred 255 21 10 in
  let kernel := (3, 3) in
  let cleaned := morphologyEx binary kernel 1 in
  remove_small_components cleaned 50.

End WithOpenCV.

(** *** What the labelling routine guarantees *)

Definition fg (m : Mask) (p : Pixel) : Prop := px m p ≠ 0.

Definition adj8 (p q : Pixel) : Prop :=
  p ≠ q
  ∧ (p.1 ≤ S q.1)%nat ∧ (q.1 ≤ S p.1)%nat
  ∧ (p.2 ≤ S q.2)%nat ∧ (q.2 ≤ S p.2)%nat.

(** One move between neighbouring foreground pixels. *)
Definition fg_step (m : Mask) (p q : Pixel) : Prop :=
  fg m p ∧ fg m q ∧ adj8 p q.

(** [q] is reached from [p] through neighbouring foreground pixels. *)
Definition connected8 (m : Mask) (p q : Pixel) : Prop := rtc (fg_step m) p q.

Definition all_pixels {A : Type} (m : list (list A)) : list Pixel :=
  r ← seq 0 (length m);
  (fun c => (r, c)) <$> seq 0 (length (nth r m [])).

Definition pixels_labelled (labels : Labels) (i : nat) : list Pixel :=
  filter (fun p => label_at labels p = i) (all_pixels labels).

(** The contract of [connectedComponentsWithStats] with connectivity 8:
    the label image has the shape of the input, label 0 is the
    background, the labels of the foreground are exactly its
    8-connected components, and the area column counts the pixels of each
    label. *)
Record cc_spec (m : Mask) (out : nat * Labels * list Stat) : Prop := {
  cc_shape : map length out.1.2 = map length m;
  cc_background : ∀ p, label_at out.1.2 p = 0%nat ↔ ¬ fg m p;
  cc_range : ∀ p, (label_at out.1.2 p < max 1 out.1.1)%nat;
  cc_closed : ∀ p q, fg_step m p q → label_at out.1.2 p = label_at out.1.2 q;
  cc_connected : ∀ p q, fg m p → label_at out.1.2 p = label_at out.1.2 q →
                        connected8 m p q;
  cc_stats_rows : length out.2 = out.1.1;
  cc_area : ∀ i, (i < out.1.1)%nat →
      CC_STAT_AREA (nth i out.2 (mkStat 0 0 0 0 0))
      = Z.of_nat (length (pixels_labelled out.1.2 i));
}.

End Preprocess.

(** * fontgen.py *)

Module Fontgen.

Import Vectorize.

(** An insertion-ordered [dict]. The keys of the glyph mappings are single
    characters, given by their code point, so that [ord(c)] is [c]. *)
Abbreviation dict K V := (list (K * V)) (only parsing).

Fixpoint dict_set {V : Type} (k : char) (v : V) (d : dict char V) : dict char V :=
  match d with
  | [] => [(k, v)]
  | (k', v') :: d' =>
      if bool_decide (k = k') then (k, v) :: d' else (k', v') :: dict_set k v d'
  end.

Fixpoint dict_get {V : Type} (k : char) (d : dict char V) : option V :=
  match d with
  | [] => None
  | (k', v) :: d' => if bool_decide (k = k') then Some v else dict_get k d'
  end.

Definition keys {K V : Type} (d : dict K V) : list K := map fst d.

(** [f"{n:04X}"]. *)
Definition hex_digit (d : N) : Ascii.ascii :=
  nth (N.to_nat d) (String.list_ascii_of_string "0123456789ABCDEF") "0"%char.

Fixpoint hex_digits (fuel : nat) (n : N) : list Ascii.ascii :=
  match fuel with
  | O => []
  | S fuel' =>
      if (n <? 16)%N then [hex_digit n]
      else hex_digits fuel' (n / 16)%N ++ [hex_digit (n mod 16)%N]
  end.

Definition format_04X (n : N) : string :=
  let ds := hex_digits (S (N.size_nat n)) n in
  String.string_of_list_ascii (replicate (4 - length ds)%nat "0"%char ++ ds).

(** [f"uni{ord(c):04X}"]. *)
Definition uni_name (c : char) : string := String.append "uni" (format_04X c).

(** [TTGlyphPen]: the closed contours so far and the one being drawn. *)
Abbreviation Glyph := (list (list (Z * Z))) (only parsing).

Record TTGlyphPen : Type :=
  mkPen { pen_closed : list (list Point); pen_open : list Point }.

Definition new_pen : TTGlyphPen := mkPen [] [].
Definition moveTo (p : Point) (pen : TTGlyphPen) : TTGlyphPen :=
  mkPen (pen_closed pen) [p].
Definition lineTo (p : Point) (pen : TTGlyphPen) : TTGlyphPen :=
  mkPen (pen_closed pen) (pen_open pen ++ [p]).
(** [closePath] of fontTools' [TTGlyphPen] (made with the default
    [outputImpliedClosingLine=False]): a one-point path is dropped, and a
    last point equal to the first is removed before the contour is
    closed.  [create_font] closes paths of three points and more only;
    with no point drawn Python raises, and the pen is left as it is
    here. *)
Definition close_contour (pts : list Point) : list Point :=
  match pts with
  | [] => []
  | p0 :: rest =>
      if bool_decide (last rest = Some p0) then p0 :: removelast rest else pts
  end.

Definition closePath (pen : TTGlyphPen) : TTGlyphPen :=
  match pen_open pen with
  | [] => pen
  | [_] => mkPen (pen_closed pen) []
  | _ :: _ :: _ => mkPen (pen_closed pen ++ [close_contour (pen_open pen)]) []
  end.
(** [pen.glyph()]; on integer points it does not raise, so the [except]
    branch around it in [create_font] has no counterpart here. *)
Definition glyph (pen : TTGlyphPen) : Glyph := pen_closed pen.

Record OS2 : Type :=
  mkOS2 { sTypoAscender : Z; sTypoDescender : Z; sTypoLineGap : Z;
          usWinAscent : Z; usWinDescent : Z; sxHeight : Z; sCapHeight : Z }.

(** What the [FontBuilder] has been given when the font is saved. *)
Record TTFont : Type :=
  mkFont { unitsPerEm : Z;
           glyphOrder : list string;
           characterMap : gmap N string;
           glyf : gmap string Glyph;
           horizontalMetrics : gmap string (Z * Z);
           horizontalHeader : Z * Z;
           nameTable : string * string;
           os2 : OS2;
           flavor : option string }.

(** The bytes written by [font.save], standing for the font they encode. *)
Inductive FontFile : Type := Saved (font : TTFont).

Definition UNITS_PER_EM : Z := 1000.
Definition ASCENDER : Z := 800.
Definition DESCENDER : Z := -200.

(** The loop building [cmap]. *)
Definition cmap_step (cmap : gmap N string) (c : char) : gmap N string :=
  let glyph_name := uni_name c in
  let cmap := <[c := glyph_name]> cmap in
  if islower c then <[upper_char c := glyph_name]> cmap else cmap.

Definition build_cmap {V : Type} (glyphs : dict char V) : gmap N string :=
  fold_left cmap_step (keys glyphs) {[ 32%N := "space"%string ]}.

(** The pen strokes of one path group; fewer than three points: skipped. *)
Definition draw_path (pen : TTGlyphPen) (path_group : PathGroup) : TTGlyphPen :=
  let pts := points path_group in
  if (length pts <? 3)%nat then pen
  else
    match pts with
    | [] => pen
    | p0 :: rest => closePath (fold_left (fun pen pt => lineTo pt pen) rest (moveTo p0 pen))
    end.

Definition notdef_glyph : Glyph :=
  let notdef_pen := new_pen in
  let notdef_pen := moveTo (100, 0) notdef_pen in
  let notdef_pen := lineTo (100, 700) notdef_pen in
  let notdef_pen := lineTo (500, 700) notdef_pen in
  let notdef_pen := lineTo (500, 0) notdef_pen in
  let notdef_pen := closePath notdef_pen in
  let notdef_pen := moveTo (150, 50) notdef_pen in
  let notdef_pen := lineTo (450, 50) notdef_pen in
  let notdef_pen := lineTo (450, 650) notdef_pen in
  let notdef_pen := lineTo (150, 650) notdef_pen in
  let notdef_pen := closePath notdef_pen in
  glyph notdef_pen.

Definition sorted_keys {V : Type} (glyphs : dict char V) : list char :=
  sorted_by Z.of_N (keys glyphs).

Definition create_font (glyphs : dict char GlyphData)
    (family_name style_name : string) : FontFile * FontFile :=
  let glyph_names :=
    [".notdef"; "space"]%string ++ map uni_name (sorted_keys glyphs) in
  let cmap := build_cmap glyphs in
  let glyph_table : gmap string Glyph := ∅ in
  let glyph_table := <[".notdef"%string := notdef_glyph]> glyph_table in
  let space_pen := new_pen in
  let glyph_table := <["space"%string := glyph space_pen]> glyph_table in
  let glyph_table :=
    fold_left
      (fun glyph_table c =>
         match dict_get c glyphs with
         | None => glyph_table
         | Some glyph_data =>
             let pen := fold_left draw_path (paths glyph_data) new_pen in
             <[uni_name c := glyph pen]> glyph_table
         end)
      (sorted_keys glyphs) glyph_table in
  let metrics : gmap string (Z * Z) :=
    <["space"%string := (UNITS_PER_EM / 4, 0)]>
      (<[".notdef"%string := (600, 100)]> ∅) in
  let metrics :=
    fold_left
      (fun metrics c =>
         match dict_get c glyphs with
         | None => metrics
         | Some glyph_data =>
             <[uni_name c := (advance_width glyph_data, lsb glyph_data)]> metrics
         end)
      (sorted_keys glyphs) metrics in
  let font :=
    mkFont UNITS_PER_EM glyph_names cmap glyph_table metrics
           (ASCENDER, DESCENDER) (family_name, style_name)
           (mkOS2 ASCENDER DESCENDER 0 ASCENDER (Z.abs DESCENDER) 500 700)
           None in
  let ttf_bytes := Saved font in
  let woff2_bytes :=
    Saved (mkFont UNITS_PER_EM glyph_names cmap glyph_table metrics
             (ASCENDER, DESCENDER) (family_name, style_name)
             (mkOS2 ASCENDER DESCENDER 0 ASCENDER (Z.abs DESCENDER) 500 700)
             (Some "woff2"%string)) in
  (ttf_bytes, woff2_bytes).

Section WithOpenCV.

Variable findContours : Mask -> list Contour * option (list HierarchyRow).
Variable approxPolyDP : Contour -> Q -> bool -> Contour.

(** The loop of [create_font_from_chars] over [char_bitmaps.items()]. *)
Fixpoint vectorize_chars (char_bitmaps : dict char Mask)
    (glyphs : dict char GlyphData) : result (dict char GlyphData) :=
  match char_bitmaps with
  | [] => Ok glyphs
  | (c, bitmap) :: rest =>
      glyph_data ← process_glyph_bitmap findContours approxPolyDP bitmap;
      vectorize_chars rest
        (match paths glyph_data with
         | [] => glyphs
         | _ :: _ => dict_set c glyph_data glyphs
         end)
  end.

Definition create_font_from_chars (char_bitmaps : dict char Mask)
  : result (FontFile * FontFile) :=
  glyphs ← vectorize_chars char_bitmaps [];
  match glyphs with
  | [] => Raise (ValueError
            "No valid glyphs could be extracted from the provided images")
  | _ :: _ => Ok (create_font glyphs "MyHandwriting" "Regular")
  end.

End WithOpenCV.

End Fontgen.

(** * main.py: the guard of the font-generation handler *)

Module Main.

Import Vectorize Fontgen.

(** [generate_font_endpoint], from the decoded [glyphs] field on. *)
Definition generate_font_endpoint (glyphs : dict char GlyphData)
  : result (FontFile * FontFile) :=
  match glyphs with
  | [] => Raise (HTTPException 400 "No glyph data provided")
  | _ :: _ => Ok (create_font glyphs "MyHandwriting" "Regular")
  end.

End Main.

(** * Python floats: binary64 *)

(** A finite Python [float] is given by its exact value, a rational.
    Every operation rounds the exact result to the nearest double, ties
    to the even significand, over a significand of 53 bits and a least
    exponent of -1074 (the subnormal numbers).  Values of 2^1024 and more
    are not doubles; nothing computed from OpenCV's 32-bit coordinates
    comes near them, and the overflow to infinity is not modelled. *)
Module Binary64.

(** [floor(log2 x)] of a positive rational. *)
Definition ilog2 (x : Q) : Z :=
  let k := Z.log2 (Qnum x) - Z.log2 (Z.pos (Qden x)) in
  if Qle_bool (2 ^ k) x then k else k - 1.

(** The double nearest to [x]. *)
Definition fl (x : Q) : Q :=
  if Qeq_bool x 0 then 0%Q
  else
    let a := Qabs x in
    let q := Z.max (ilog2 a - 52) (-1074) in
    let m := py_round (a / 2 ^ q) in
    let v := (inject_Z m * 2 ^ q)%Q in
    if Qle_bool 0 x then v else (- v)%Q.

(** [float(z)], also where an [int] meets a [float] in an operation. *)
Definition of_int (z : Z) : Q := fl (inject_Z z).

(** [a / b] on two [int]s: the quotient, correctly rounded. *)
Definition true_div (a b : Z) : Q := fl (inject_Z a / inject_Z b).

(** A decimal literal [n/d], such as [0.12] for [12/100]: the nearest
    double. *)
Definition literal (n : Z) (d : positive) : Q := fl (n # d).

Definition fadd (x y : Q) : Q := fl (x + y).
Definition fsub (x y : Q) : Q := fl (x - y).
Definition fmul (x y : Q) : Q := fl (x * y).
Definition fdiv (x y : Q) : Q := fl (x / y).

End Binary64.

(** * vectorize.py, in binary64

    The functions of [Vectorize] with every float operation rounded as
    the interpreter rounds it.  [Vectorize] itself takes the floats as
    exact rationals; it serves for the properties that hold whatever the
    last bit of a product. *)
Module Vectorize64.

Import Binary64.
Export Vectorize (UNITS_PER_EM, ASCENDER, DESCENDER, parent, PathGroup, mkPath,
                  points, is_hole, GlyphData, mkGlyph, paths, advance_width, lsb,
                  shift_path).

(** [polygon_area]: [area] starts as [0.0]; each [+=] and [-=] converts
    the integer product and rounds the sum. *)
Definition polygon_area (pts : list Point) : Q :=
  let n := length pts in
  let area :=
    fold_left
      (fun area i =>
         let j := ((i + 1) mod n)%nat in
         let pi := nth i pts (0, 0) in
         let pj := nth j pts (0, 0) in
         let area := fadd area (of_int (pi.1 * pj.2)) in
         fsub area (of_int (pj.1 * pi.2)))
      (seq 0 n) 0%Q in
  fdiv area 2.

Section WithOpenCV.

Variable findContours : Mask -> list Contour * option (list (Z * Z * Z * Z)).
Variable approxPolyDP : Contour -> Q -> bool -> Contour.

Definition bitmap_to_contours (binary : Mask)
  : list Contour * option (list (Z * Z * Z * Z)) :=
  findContours binary.

(** [points] holds the simplified points as floats; [bx], [by],
    [target_height] and [DESCENDER] are [int]s. *)
Definition transform_point (bx by_ : Z) (scale : Q) (target_height : Z)
    (p : Point) : Point :=
  let px := of_int p.1 in
  let py := of_int p.2 in
  let fx := fmul (fsub px (of_int bx)) scale in
  let fy := fadd (fsub (of_int target_height)
                       (fmul (fsub py (of_int by_)) scale))
                 (of_int DESCENDER) in
  (py_round fx, py_round fy).

Definition contour_command (hier : list (Z * Z * Z * Z)) (bx by_ : Z)
    (scale : Q) (target_height : Z) (i : nat) (contour : Contour)
  : result (option PathGroup) :=
  if (length contour <? 3)%nat then Ok None
  else
    let epsilon := (1 # 2)%Q in
    let approx := approxPolyDP contour epsilon true in
    if (length approx <? 3)%nat then Ok None
    else
      h ← index hier i;
      let is_hole := negb (parent h =? -1) in
      let transformed := map (transform_point bx by_ scale target_height) approx in
      let area := polygon_area transformed in
      let transformed :=
        if (negb is_hole && Qltb 0 area) || (is_hole && Qltb area 0)
        then rev transformed else transformed in
      Ok (Some (mkPath transformed is_hole)).

Fixpoint commands_loop (hier : list (Z * Z * Z * Z)) (bx by_ : Z) (scale : Q)
    (target_height : Z) (i : nat) (contours : list Contour)
    (commands : list PathGroup) : result (list PathGroup) :=
  match contours with
  | [] => Ok commands
  | contour :: rest =>
      c ← contour_command hier bx by_ scale target_height i contour;
      commands_loop hier bx by_ scale target_height (S i) rest
        (match c with
         | Some cmd => commands ++ [cmd]
         | None => commands
         end)
  end.

Definition contours_to_font_paths (contours : list Contour)
    (hierarchy : option (list (Z * Z * Z * Z))) (target_height : Z)
  : result (list PathGroup) :=
  match contours, hierarchy with
  | [], _ | _, None => Ok []
  | _ :: _, Some hier =>
      let all_points := vstack contours in
      let '(bx, by_, bw, bh) := boundingRect all_points in
      if (bw =? 0) || (bh =? 0) then Ok []
      else
        let scale := true_div target_height (Z.max bh 1) in
        commands_loop hier bx by_ scale target_height 0 contours []
  end.

Definition calculate_advance_width (contours : list Contour)
    (bitmap_height : Z) (target_height : Z) : Z :=
  match contours with
  | [] => py_round (fmul (of_int UNITS_PER_EM) (literal 5 10))
  | _ :: _ =>
      let all_points := vstack contours in
      let '(_, _, bw, bh) := boundingRect all_points in
      let scale := true_div target_height (Z.max bh 1) in
      let width := py_round (fmul (of_int bw) scale) in
      let bearing := py_round (fmul (of_int width) (literal 15 100)) in
      width + bearing * 2
  end.

Definition process_glyph_bitmap (binary : Mask) : result GlyphData :=
  let '(contours, hierarchy) := bitmap_to_contours binary in
  match contours, hierarchy with
  | [], _ | _, None =>
      Ok (mkGlyph [] (py_round (fmul (of_int UNITS_PER_EM) (literal 5 10))) 0)
  | _ :: _, Some _ =>
      paths ← contours_to_font_paths contours hierarchy (ASCENDER - DESCENDER);
      let all_points := vstack contours in
      let '(_, _, bw, bh) := boundingRect all_points in
      let scale := true_div (ASCENDER - DESCENDER) (Z.max bh 1) in
      let raw_width := py_round (fmul (of_int bw) scale) in
      let bearing := py_round (fmul (of_int raw_width) (literal 12 100)) in
      let advance_width := raw_width + bearing * 2 in
      let paths := map (shift_path bearing) paths in
      Ok (mkGlyph paths advance_width bearing)
  end.

End WithOpenCV.

End Vectorize64.

(** * pangrams.py *)

Module Pangrams.

Definition PANGRAMS : list str :=
  map str_of
    [ "The quick brown fox jumps over the lazy dog";
      "Pack my box with five dozen liquor jugs";
      "How vexingly quick daft zebras jump";
      "The five boxing wizards jump quickly";
      "Jackdaws love my big sphinx of quartz";
      "Crazy Frederick bought many very exquisite opal jewels";
      "We promptly judged antique ivory buckles for the next prize";
      "A quick movement of the enemy will jeopardize six gunboats";
      "The job requires extra pluck and zeal from every young wage earner";
      "Just keep examining every low bid quoted for zinc etchings" ]%string.

(** The body of the loop of [get_unique_chars]; the state is
    [(seen, chars)]. *)
Definition unique_step (st : gset N * list N) (c : char) : gset N * list N :=
  let '(seen, chars) := st in
  let lower := lower_char c in
  if isalpha lower && negb (bool_decide (lower ∈ seen))
  then ({[lower]} ∪ seen, chars ++ [lower])
  else st.

Definition get_unique_chars (pangram : str) : list char :=
  (fold_left unique_step pangram (∅, [])).2.

End Pangrams.

(** * preprocess.py: decoding and the canvas pipeline *)

Module PreprocessGlyph.

Import Preprocess.

Abbreviation bytes := (list N) (only parsing).

Section WithOpenCV.

(** [cv2.imdecode(np.frombuffer(data, np.uint8), cv2.IMREAD_COLOR)]:
    [None] when the bytes are no image; on an empty buffer OpenCV raises
    [cv2.error] instead. *)
Variable imdecode : bytes -> result (option Image).
Variable cvtColor : Image -> Mask.                      (* COLOR_BGR2GRAY *)
Variable threshold : Mask -> Z -> Z -> Mask.
    (* thresh, maxval; THRESH_BINARY_INV + THRESH_OTSU; the mask returned *)
Variable morphologyEx : Mask -> Z * Z -> Z -> Mask.

Definition load_image_from_bytes (data : bytes) : result Image :=
  img ← imdecode data;
  match img with
  | None => Raise (ValueError "Could not decode image data")
  | Some img => Ok img
  end.

Definition preprocess_single_glyph (data : bytes) : result Mask :=
  img ← load_image_from_bytes data;
  let gray := cvtColor img in
  let binary := threshold gray 0 255 in
  let kernel := (2, 2) in
  let cleaned := morphologyEx binary kernel 1 in
  Ok cleaned.

End WithOpenCV.

End PreprocessGlyph.

(** * main.py: the request handlers, from the received fields on *)

From stdpp Require pretty.

Module Handlers.

Import Vectorize Fontgen Preprocess PreprocessGlyph.

(** [str(e)]. *)
Definition str_exn (e : exn) : string :=
  match e with
  | ValueError msg => msg
  | IndexError => "list index out of range"
  | TypeError msg => msg
  | AttributeError msg => msg
  | cv2_error msg => msg
  | HTTPException status_code detail =>
      String.append (stdpp.pretty.pretty status_code) (String.append ": " detail)
  end.

(** The content of the JSON answers, before the font files are written
    out in base64. *)
Record FontResponse : Type :=
  mkFontResponse { ttf : FontFile; woff2 : FontFile;
                   chars_found : list char; total_chars : nat }.

Record GlyphResponse : Type :=
  mkGlyphResponse { character : str; glyph_data : GlyphData }.

(** [{char: bitmap for char, bitmap in char_pairs}]. *)
Definition dict_of_pairs {V : Type} (pairs : list (char * V)) : dict char V :=
  fold_left (fun d cb => dict_set cb.1 cb.2 d) pairs [].

(** [key.startswith("char_")]. *)
Definition startswith (s pre : str) : bool :=
  bool_decide (take (length pre) s = pre).

(** A value of the submitted form: an uploaded file with its content,
    or a plain text field. *)
Inductive FormValue : Type :=
  | UploadFile (content : bytes)
  | TextField (value : str).

(** [await value.read()]. *)
Definition read (value : FormValue) : result bytes :=
  match value with
  | UploadFile content => Ok content
  | TextField _ => Raise (AttributeError "'str' object has no attribute 'read'")
  end.

Section WithOpenCV.

Variable imdecode : bytes -> result (option Image).
Variable cvtColor : Image -> Mask.
Variable GaussianBlur : Mask -> Z * Z -> Z -> Mask.
Variable adaptiveThreshold : Mask -> Z -> Z -> Z -> Mask.
Variable threshold : Mask -> Z -> Z -> Mask.
Variable morphologyEx : Mask -> Z * Z -> Z -> Mask.
Variable connectedComponentsWithStats : Mask -> Z -> nat * Labels * list Stat.
(** [cv2.findContours] with [RETR_EXTERNAL] for the segmenter and with
    [RETR_CCOMP] for the vectorizer. *)
Variable findContoursExternal : Mask -> list Contour.
Variable findContoursCcomp : Mask -> list Contour * option (list HierarchyRow).
Variable approxPolyDP : Contour -> Q -> bool -> Contour.
(** The text of the [TypeError] with which [json.dumps] refuses a numpy
    boolean; it names the type as the installed numpy does. *)
Variable not_serializable : string.

(** [process_pangram]. [preprocess] raises nothing here, so the
    [except] around it has no counterpart. *)
Definition process_pangram (image_data : bytes) (pangram : str)
  : result FontResponse :=
  match load_image_from_bytes imdecode image_data with
  | Raise e =>
      Raise (HTTPException 400 (String.append "Invalid image: " (str_exn e)))
  | Ok img =>
      let binary :=
        preprocess cvtColor GaussianBlur adaptiveThreshold morphologyEx
                   connectedComponentsWithStats img in
      match Segment.segment_characters findContoursExternal binary pangram with
      | Raise e =>
          Raise (HTTPException 422
                   (String.append "Character segmentation failed: "
                      (String.append (str_exn e)
                         ". Try a clearer photo with more contrast.")))
      | Ok char_pairs =>
          match char_pairs with
          | [] =>
              Raise (HTTPException 422
                "No characters could be segmented from the image. Try writing larger and with more spacing.")
          | _ :: _ =>
              let char_bitmaps := dict_of_pairs char_pairs in
              match create_font_from_chars findContoursCcomp approxPolyDP
                      char_bitmaps with
              | Raise e =>
                  Raise (HTTPException 500
                           (String.append "Font generation failed: " (str_exn e)))
              | Ok (ttf_bytes, woff2_bytes) =>
                  Ok (mkFontResponse ttf_bytes woff2_bytes (keys char_bitmaps)
                                     (length char_bitmaps))
              end
          end
      end
  end.

(** [process_glyph_endpoint]. The floats are the interpreter's: the
    glyph is computed by [Vectorize64.process_glyph_bitmap]. The answer
    is encoded when [JSONResponse] is built, outside the [try]; the
    [is_hole] of a path is the numpy boolean [h[3] != -1], which
    [json.dumps] refuses, so that only a glyph without paths is
    answered. *)
Definition process_glyph_endpoint (image_data : bytes) (character : str)
  : result GlyphResponse :=
  if negb (length character =? 1)%nat || negb (forallb isalpha character)
  then Raise (HTTPException 400 "Character must be a single letter")
  else
    match
      (binary ← preprocess_single_glyph imdecode cvtColor threshold morphologyEx
                  image_data;
       let binary := Segment.extract_single_glyph binary in
       Vectorize64.process_glyph_bitmap findContoursCcomp approxPolyDP binary)
    with
    | Raise e =>
        Raise (HTTPException 422
                 (String.append "Glyph processing failed: " (str_exn e)))
    | Ok glyph_data =>
        match paths glyph_data with
        | [] => Ok (mkGlyphResponse (lower character) glyph_data)
        | _ :: _ => Raise (TypeError not_serializable)
        end
    end.

(** The loop of [process_drawn_glyphs] over [form], the fields by name
    with the last value sent under each name; the state is
    [char_bitmaps]. Neither the reading nor the decoding is inside a
    [try]. *)
Fixpoint collect_drawn (form : dict str FormValue) (char_bitmaps : dict char Mask)
  : result (dict char Mask) :=
  match form with
  | [] => Ok char_bitmaps
  | (key, value) :: rest =>
      if startswith key (str_of "char_") && (length key =? 6)%nat
      then
        let char := lower (drop 5 key) in
        if forallb isalpha char && (length char =? 1)%nat
        then
          image_data ← read value;
          binary ← preprocess_single_glyph imdecode cvtColor threshold
                     morphologyEx image_data;
          let binary := Segment.extract_single_glyph binary in
          match char with
          | [c] => collect_drawn rest (dict_set c binary char_bitmaps)
          | _ => collect_drawn rest char_bitmaps
          end
        else collect_drawn rest char_bitmaps
      else collect_drawn rest char_bitmaps
  end.

Definition process_drawn_glyphs (form : dict str FormValue)
  : result FontResponse :=
  char_bitmaps ← collect_drawn form [];
  match char_bitmaps with
  | [] => Raise (HTTPException 400 "No valid character images provided")
  | _ :: _ =>
      match create_font_from_chars findContoursCcomp approxPolyDP
              char_bitmaps with
      | Raise e =>
          Raise (HTTPException 500
                   (String.append "Font generation failed: " (str_exn e)))
      | Ok (ttf_bytes, woff2_bytes) =>
          Ok (mkFontResponse ttf_bytes woff2_bytes (keys char_bitmaps)
                             (length char_bitmaps))
      end
  end.

End WithOpenCV.

End Handlers.

(** * Auxiliary notions for the statements and proofs *)

(** The summand of the shoelace formula and its sum along a polyline. *)
Definition cross (p q : Point) : Z := p.1 * q.2 - q.1 * p.2.

Fixpoint chain (l : list Point) : Z :=
  match l with
  | [] => 0
  | a :: t => match t with
              | [] => 0
              | b :: _ => cross a b + chain t
              end
  end.

(** Twice the signed area of the closed polygon. *)
Definition shoelace (l : list Point) : Z :=
  chain l + cross (List.last l (0, 0)) (List.hd (0, 0) l).

Definition Zsum (g : nat -> Z) (l : list nat) : Z :=
  fold_right (fun i acc => g i + acc) 0 l.


(** ** Sample inputs *)

(** A contour tracer for a mask that holds one filled upright rectangle:
    the four corners of the foreground, from the top-left one, with a
    single hierarchy row without parent. *)
Definition trace_rectangle (binary : Mask)
  : list Contour * option (list Vectorize.HierarchyRow) :=
  match Segment.findNonZero binary with
  | None => ([], None)
  | Some coords =>
      let '(x, y, w, h) := boundingRect coords in
      ([[(x, y); (x, y + h - 1); (x + w - 1, y + h - 1); (x + w - 1, y)]],
       Some [(-1, -1, -1, -1)])
  end.

(** Polygon simplification of a contour that is already a minimal polygon. *)
Definition keep_polygon (contour : Contour) (epsilon : Q) (closed : bool) : Contour :=
  contour.

(** A 4 x 3 block of ink inside a 6 x 5 image. *)
Definition block_mask : Mask :=
  [ [0; 0; 0; 0; 0];
    [0; 255; 255; 255; 0];
    [0; 255; 255; 255; 0];
    [0; 255; 255; 255; 0];
    [0; 255; 255; 255; 0];
    [0; 0; 0; 0; 0] ].

(** An image of [rows] x [cols] pixels with one filled rectangle of ink,
    [h] x [w] pixels, its top-left corner at row [top], column [left]. *)
Definition filled_block (rows cols top left h w : nat) : Mask :=
  map (fun r =>
         map (fun c =>
                if ((top <=? r) && (r <? top + h) && (left <=? c) && (c <? left + w))%nat
                then 255 else 0)
             (seq 0 cols))
      (seq 0 rows).

(** The external contours of such an image. *)
Definition trace_outer (binary : Mask) : list Contour := (trace_rectangle binary).1.

(** ** The dot-merge rule in words *)

Section DotMerge.

Import Segment.

(** Height and width both below 0.4 times the median height. *)
Definition small_box (median_h : Z) (b : Box) : Prop :=
  (inject_Z (box_h b) < inject_Z median_h * (4 # 10))%Q
  /\ (inject_Z (box_w b) < inject_Z median_h * (4 # 10))%Q.

(** [b2] starts strictly below [b1], its horizontal centre is less than
    its own width away from the centre of [b1], and the vertical gap
    between the two is below 0.8 times the median height. *)
Definition qualifies (median_h : Z) (b1 b2 : Box) : Prop :=
  box_y b1 < box_y b2
  /\ (Qabs ((inject_Z (box_x b1) + inject_Z (box_w b1) / 2)
            - (inject_Z (box_x b2) + inject_Z (box_w b2) / 2))
      < inject_Z (box_w b2))%Q
  /\ (inject_Z (gap b1 b2) < inject_Z median_h * (8 # 10))%Q.

(** An unconsumed box other than box [i] that qualifies as its parent. *)
Definition candidate (boxes : list Box) (used : gset nat) (median_h : Z)
    (i : nat) (b1 : Box) (j : nat) (b2 : Box) : Prop :=
  boxes !! j = Some b2 /\ j <> i /\ (j ∉ used) /\ qualifies median_h b1 b2.

(** [u] is the smallest upright rectangle containing [b1] and [b2]. *)
Definition union_box (b1 b2 u : Box) : Prop :=
  box_x u = Z.min (box_x b1) (box_x b2)
  /\ box_y u = Z.min (box_y b1) (box_y b2)
  /\ box_x u + box_w u = Z.max (box_x b1 + box_w b1) (box_x b2 + box_w b2)
  /\ box_y u + box_h u = Z.max (box_y b1 + box_h b1) (box_y b2 + box_h b2).

End DotMerge.

(** A dot above a letter, and a second letter further right. *)
Definition dotted_boxes : list (Z * Z * Z * Z) :=
  [(10, 0, 3, 3); (8, 10, 10, 20); (30, 10, 10, 20)].

(** ** Well-formed masks and their ink *)

(** Every row has [cols] pixels. *)
Definition rectangular (cols : nat) (m : Mask) : Prop :=
  Forall (fun row => length row = cols) m.

(** Every pixel is a [uint8]. *)
Definition uint8_mask (m : Mask) : Prop :=
  Forall (Forall (fun v => 0 <= v < 256)) m.

(** The foreground pixel values in row-major order. *)
Definition ink (m : Mask) : list Z := filter (fun v => v <> 0) (concat m).

(** [(x, y, w, h)] is the bounding box of the foreground of [m]: it holds
    every non-zero pixel and each of its four sides touches one. *)
Definition content_box (m : Mask) (x y w h : Z) : Prop :=
  (forall r c v, pixel m r c = Some v -> v <> 0 ->
                 x <= Z.of_nat c < x + w /\ y <= Z.of_nat r < y + h)
  /\ (exists r c v, pixel m r c = Some v /\ v <> 0 /\ Z.of_nat c = x)
  /\ (exists r c v, pixel m r c = Some v /\ v <> 0 /\ Z.of_nat c = x + w - 1)
  /\ (exists r c v, pixel m r c = Some v /\ v <> 0 /\ Z.of_nat r = y)
  /\ (exists r c v, pixel m r c = Some v /\ v <> 0 /\ Z.of_nat r = y + h - 1).

(** ** A sample run of the photo pipeline *)

(** Stand-ins for the OpenCV filters on a one-row image: the green
    channel as intensity, no blur, an inverted threshold at mid-grey, no
    closing. *)
Definition sample_cvtColor (img : Preprocess.Image) : Mask :=
  map (map (fun bgr : Z * Z * Z => bgr.1.2)) img.
Definition sample_blur (m : Mask) (ksize : Z * Z) (sigma : Z) : Mask := m.
Definition sample_threshold (m : Mask) (maxValue blockSize C : Z) : Mask :=
  map (map (fun v => if v <? 128 then maxValue else 0)) m.
Definition sample_close (m : Mask) (kernel : Z * Z) (iterations : Z) : Mask := m.

(** A stroke of 50 dark pixels, one bright pixel, one dark speck. *)
Definition sample_photo : Preprocess.Image :=
  [replicate 50 (0, 0, 0) ++ [(255, 255, 255); (0, 0, 0)]].

(** Its mask after thresholding. *)
Definition sample_cleaned : Mask := [replicate 50 255 ++ [0; 255]].

(** The labelling of that mask: the stroke is component 1 with 50
    pixels, the speck component 2 with one pixel. *)
Definition sample_labelling (m : Mask) (connectivity : Z)
  : nat * Preprocess.Labels * list Preprocess.Stat :=
  (3%nat, [replicate 50 1%nat ++ [0%nat; 2%nat]],
   [Preprocess.mkStat 50 0 1 1 1; Preprocess.mkStat 0 0 50 1 50;
    Preprocess.mkStat 51 0 1 1 1]).

(** ** Reading an assembled font *)

Definition font_of (f : Fontgen.FontFile) : Fontgen.TTFont :=
  match f with Fontgen.Saved font => font end.

(** A glyph without outline. *)
Definition blank_glyph : Vectorize.GlyphData := Vectorize.mkGlyph [] 500 0.

(** A 2 x 2 image without ink. *)
Definition blank_mask : Mask := [[0; 0]; [0; 0]].

(** ** A sample request *)

(** A decoder for the sample: on empty data it raises as OpenCV does,
    a single zero byte is no image, anything else is the photo of one
    dark square, 8 x 8 pixels, on a white sheet of 12 x 12. *)
Definition sample_sheet : Preprocess.Image :=
  map (map (fun v : Z => (255 - v, 255 - v, 255 - v))) (filled_block 12 12 2 2 8 8).

Definition empty_buffer : exn :=
  cv2_error "(-215:Assertion failed) !buf.empty() in function 'imdecode_'".

Definition sample_imdecode (data : list N) : result (option Preprocess.Image) :=
  match data with
  | [] => Raise empty_buffer
  | [0%N] => Ok None
  | _ :: _ => Ok (Some sample_sheet)
  end.

(** Otsu's inverted threshold, the level of the sample being mid-grey. *)
Definition sample_otsu (m : Mask) (thresh maxval : Z) : Mask :=
  map (map (fun v => if v <? 128 then maxval else 0)) m.

(** The labelling of a mask with one square of 64 pixels. *)
Definition square_labelling (m : Mask) (connectivity : Z)
  : nat * Preprocess.Labels * list Preprocess.Stat :=
  (2%nat, map (map (fun v => if v =? 0 then 0%nat else 1%nat)) m,
   [Preprocess.mkStat 0 0 12 12 80; Preprocess.mkStat 2 2 8 8 64]).

(** The answer inside a result, for reading a sample answer. *)
Definition answer_of (r : result Handlers.FontResponse) : Handlers.FontResponse :=
  match r with
  | Ok resp => resp
  | Raise _ =>
      Handlers.mkFontResponse (Fontgen.create_font [] "" "").1
                              (Fontgen.create_font [] "" "").2 [] 0
  end.

Definition sample_pangram_answer : Handlers.FontResponse :=
  answer_of
    (Handlers.process_pangram sample_imdecode sample_cvtColor sample_blur
       sample_threshold sample_close square_labelling trace_outer
       trace_rectangle keep_polygon [1%N] (str_of "a")).

Definition sample_drawn_answer : Handlers.FontResponse :=
  answer_of
    (Handlers.process_drawn_glyphs sample_imdecode sample_cvtColor sample_otsu
       sample_close trace_rectangle keep_polygon
       [(str_of "char_A", Handlers.UploadFile [1%N])]).

(** ** The dot-merge pass as a rule

    The pass in the words of its description: the boxes are taken in
    order of their vertical position; a small box that is not yet
    consumed looks for a partner among the other unconsumed boxes
    positioned strictly below it that pass the horizontal test and lie
    within the allowed gap, takes the vertically nearest of them, and the
    two are replaced by their union bounding box; every other unconsumed
    box passes through unchanged.  The horizontal test is left open, to
    be read in two ways. *)

Section DotMergeRule.

Import Segment.

Variable horizontal : Box -> Box -> bool.





(** The vertically nearest candidate, the first one among equals. *)
Fixpoint nearest (b1 : Box) (candidates : list (nat * Box)) : option (nat * Box) :=
  match candidates with
  | [] => None
  | c :: rest =>
      match nearest b1 rest with
      | Some c' =>
          if box_y c'.2 - (box_y b1 + box_h b1) <? box_y c.2 - (box_y b1 + box_h b1)
          then Some c' else Some c
      | None => Some c
      end
  end.




End DotMergeRule.




(** * Facts about the numeric helpers *)

Lemma Qltb_lt (x y : Q) : Qltb x y = true <-> (x < y)%Q.
Proof.
  unfold Qltb. rewrite negb_true_iff.
  split.
  - intros H. apply Qnot_le_lt. intros Hle.
    apply Qle_bool_iff in Hle. congruence.
  - intros H. destruct (Qle_bool y x) eqn:E; [|reflexivity].
    apply Qle_bool_iff in E. exfalso. exact (Qlt_not_le _ _ H E).
Qed.


Lemma py_round_floor (x : Q) :
  py_round x = Qfloor x \/ py_round x = Qfloor x + 1.
Proof.
  unfold py_round.
  destruct (x - inject_Z (Qfloor x) ?= 1 # 2)%Q; [|auto..].
  destruct (Z.even (Qfloor x)); auto.
Qed.

Lemma py_round_nonneg (x : Q) : (0 <= x)%Q -> 0 <= py_round x.
Proof.
  intros H. apply Qfloor_resp_le in H. change (Qfloor 0) with 0 in H.
  destruct (py_round_floor x) as [-> | ->]; lia.
Qed.





(** * The shoelace sum: reversal and translation *)

Section Shoelace.

Implicit Types (l : list Point) (p q : Point).

Lemma cross_antisym p q : cross q p = - cross p q.
Proof. unfold cross. lia. Qed.

Lemma chain_cons2 p q l : chain (p :: q :: l) = cross p q + chain (q :: l).
Proof. reflexivity. Qed.

Lemma chain_snoc l p q :
  chain ((p :: l) ++ [q]) = chain (p :: l) + cross (List.last (p :: l) (0, 0)) q.
Proof.
  revert p. induction l as [|a l IH]; intros p.
  - simpl. lia.
  - change ((p :: a :: l) ++ [q]) with (p :: ((a :: l) ++ [q])).
    change ((a :: l) ++ [q]) with (a :: (l ++ [q])) at 1.
    rewrite chain_cons2.
    change (a :: (l ++ [q])) with ((a :: l) ++ [q]).
    rewrite IH, chain_cons2.
    change (List.last (p :: a :: l) (0, 0)) with (List.last (a :: l) (0, 0)).
    lia.
Qed.

Lemma last_snoc l p d : List.last (l ++ [p]) d = p.
Proof. apply List.last_last. Qed.

Lemma hd_rev l d : List.hd d (rev l) = List.last l d.
Proof.
  induction l as [|a l IH]; [reflexivity|].
  simpl rev. destruct l as [|b l].
  - reflexivity.
  - change (List.last (a :: b :: l) d) with (List.last (b :: l) d).
    rewrite <- IH. simpl. destruct (rev l ++ [b]) eqn:E; [|reflexivity].
    destruct (rev l); discriminate.
Qed.

Lemma last_rev l d : List.last (rev l) d = List.hd d l.
Proof.
  destruct l as [|a l]; [reflexivity|].
  simpl rev. apply last_snoc.
Qed.

Lemma chain_rev l : chain (rev l) = - chain l.
Proof.
  induction l as [|a l IH]; [reflexivity|].
  destruct l as [|b l]; [reflexivity|].
  change (rev (a :: b :: l)) with (rev (b :: l) ++ [a]).
  assert (exists c r, rev (b :: l) = c :: r) as (c & r & E).
  { simpl. destruct (rev l); simpl; eauto. }
  rewrite E, chain_snoc, <- E, IH, last_rev, chain_cons2. simpl List.hd.
  rewrite (cross_antisym a b). lia.
Qed.

Lemma shoelace_rev l : shoelace (rev l) = - shoelace l.
Proof.
  unfold shoelace. rewrite chain_rev, last_rev, hd_rev.
  rewrite (cross_antisym (List.last _ _)). lia.
Qed.

Definition shift (b : Z) p : Point := (p.1 + b, p.2).

Lemma cross_shift b p q :
  cross (shift b p) (shift b q) = cross p q + b * (q.2 - p.2).
Proof. unfold cross, shift. simpl. lia. Qed.

Lemma last_map_shift b p l :
  List.last (map (shift b) (p :: l)) (0, 0) = shift b (List.last (p :: l) (0, 0)).
Proof.
  revert p. induction l as [|a l IH]; intros p; [reflexivity|].
  change (map (shift b) (p :: a :: l)) with (shift b p :: map (shift b) (a :: l)).
  change (List.last (p :: a :: l) (0, 0)) with (List.last (a :: l) (0, 0)).
  rewrite <- IH. reflexivity.
Qed.

Lemma chain_shift b p l :
  chain (map (shift b) (p :: l))
  = chain (p :: l) + b * ((List.last (p :: l) (0, 0)).2 - p.2).
Proof.
  revert p. induction l as [|a l IH]; intros p.
  - simpl. lia.
  - change (map (shift b) (p :: a :: l))
      with (shift b p :: shift b a :: map (shift b) l).
    rewrite chain_cons2.
    change (shift b a :: map (shift b) l) with (map (shift b) (a :: l)).
    rewrite IH, cross_shift, chain_cons2.
    change (List.last (p :: a :: l) (0, 0)) with (List.last (a :: l) (0, 0)).
    lia.
Qed.

Lemma shoelace_shift b l : shoelace (map (shift b) l) = shoelace l.
Proof.
  destruct l as [|p l]; [reflexivity|].
  unfold shoelace. rewrite chain_shift, last_map_shift.
  simpl List.hd. rewrite cross_shift. lia.
Qed.

(** The indexed loop of [polygon_area] computes the shoelace sum. *)

Lemma fold_left_Zsum (g : nat -> Z) (idx : list nat) (a0 : Z) :
  fold_left (fun area i => area + g i) idx a0 = a0 + Zsum g idx.
Proof.
  revert a0. induction idx as [|i idx IH]; intros a0; simpl.
  - lia.
  - rewrite IH. lia.
Qed.

Lemma fold_left_pointwise {A B : Type} (f g : A -> B -> A) (idx : list B) (a0 : A) :
  (forall a i, f a i = g a i) -> fold_left f idx a0 = fold_left g idx a0.
Proof.
  intros H. revert a0. induction idx as [|i idx IH]; intros a0; simpl.
  - reflexivity.
  - rewrite H. apply IH.
Qed.

Lemma Zsum_single g (i : nat) : Zsum g [i] = g i.
Proof. unfold Zsum. simpl. lia. Qed.

Lemma Zsum_app g (l1 l2 : list nat) : Zsum g (l1 ++ l2) = Zsum g l1 + Zsum g l2.
Proof. induction l1 as [|i l1 IH]; simpl; [|rewrite IH]; lia. Qed.

Lemma Zsum_ext g h (idx : list nat) :
  (forall i, In i idx -> g i = h i) -> Zsum g idx = Zsum h idx.
Proof.
  induction idx as [|i idx IH]; intros H; simpl; [reflexivity|].
  rewrite (H i), IH; [reflexivity| |]; simpl; auto.
  intros j Hj. apply H. simpl; auto.
Qed.

Lemma Zsum_map_S g (idx : list nat) :
  Zsum g (map S idx) = Zsum (fun i => g (S i)) idx.
Proof. induction idx as [|i idx IH]; simpl; [|rewrite IH]; reflexivity. Qed.

Lemma Zsum_chain l :
  Zsum (fun i => cross (nth i l (0, 0)) (nth (S i) l (0, 0)))
       (seq 0 (length l - 1))
  = chain l.
Proof.
  induction l as [|a l IH]; [reflexivity|].
  destruct l as [|b l]; [reflexivity|].
  rewrite chain_cons2, <- IH.
  replace (length (a :: b :: l) - 1)%nat with (S (length (b :: l) - 1))
    by (simpl; lia).
  rewrite <- cons_seq, <- seq_shift. simpl Zsum at 1.
  rewrite Zsum_map_S. reflexivity.
Qed.

Lemma polygon_area_shoelace l :
  Vectorize.polygon_area l = (inject_Z (shoelace l) / 2)%Q.
Proof.
  unfold Vectorize.polygon_area.
  rewrite (fold_left_pointwise _
    (fun area i => area + cross (nth i l (0, 0))
                                (nth ((i + 1) mod length l)%nat l (0, 0))))
    by (intros; unfold cross; simpl; lia).
  rewrite (fold_left_Zsum
    (fun i => cross (nth i l (0, 0)) (nth ((i + 1) mod length l)%nat l (0, 0)))).
  destruct l as [|a l]; [reflexivity|].
  set (pts := a :: l).
  assert (Hn : length pts = S (length l)) by reflexivity.
  rewrite Hn, seq_S, Zsum_app, Zsum_single.
  rewrite (Zsum_ext _ (fun i => cross (nth i pts (0, 0)) (nth (S i) pts (0, 0)))).
  2:{ intros i Hi. apply in_seq in Hi.
      replace ((i + 1) mod S (length l))%nat with (S i); [reflexivity|].
      symmetry. rewrite Nat.mod_small; lia. }
  replace (length l) with (length pts - 1)%nat at 1 by (rewrite Hn; lia).
  rewrite Zsum_chain.
  replace ((0 + length l + 1) mod S (length l))%nat with 0%nat.
  2:{ replace (0 + length l + 1)%nat with (S (length l)) by lia.
      symmetry. apply Nat.Div0.mod_same. }
  unfold shoelace.
  replace (nth (0 + length l) pts (0, 0)) with (List.last pts (0, 0)).
  2:{ unfold pts. clear. revert a. induction l as [|b l IH]; intros a; [reflexivity|].
      change (List.last (a :: b :: l) (0, 0)) with (List.last (b :: l) (0, 0)).
      rewrite IH. reflexivity. }
  replace (nth 0 pts (0, 0)) with (List.hd (0, 0) pts) by reflexivity.
  f_equal; f_equal; lia.
Qed.

End Shoelace.

(** * vectorize.py: winding, metrics, determinism *)

Module VectorizeFacts.

Import Vectorize.


Lemma polygon_area_rev (l : list Point) :
  polygon_area (rev l) = (inject_Z (- shoelace l) / 2)%Q.
Proof. rewrite polygon_area_shoelace, shoelace_rev. reflexivity. Qed.



Section WithOpenCV.

Variable findContours : Mask -> list Contour * option (list HierarchyRow).
Variable approxPolyDP : Contour -> Q -> bool -> Contour.




(** The loop returns as soon as the hierarchy has a row for each
    contour. *)
Lemma commands_loop_returns hier bx by_ scale th contours :
  forall i commands,
    (i + length contours <= length hier)%nat ->
    exists out,
      commands_loop approxPolyDP hier bx by_ scale th i contours commands = Ok out.
Proof.
  induction contours as [|contour rest IH]; intros i commands Hlen; simpl.
  - eauto.
  - simpl in Hlen.
    assert (exists c, contour_command approxPolyDP hier bx by_ scale th i contour
                      = Ok c) as [c ->].
    { unfold contour_command.
      destruct (length contour <? 3)%nat; [eauto|].
      destruct (length (approxPolyDP contour (1 # 2) true) <? 3)%nat; [eauto|].
      unfold index.
      destruct (hier !! i) as [h|] eqn:E; simpl; [eauto|].
      apply lookup_ge_None in E. lia. }
    simpl. apply IH. lia.
Qed.

Lemma contours_to_font_paths_returns contours hier th :
  length hier = length contours ->
  exists out,
    contours_to_font_paths approxPolyDP contours (Some hier) th = Ok out.
Proof.
  intros Hlen. unfold contours_to_font_paths.
  destruct contours as [|c cs]; [eauto|].
  destruct (boundingRect (vstack (c :: cs))) as [[[bx by_] bw] bh].
  destruct ((bw =? 0) || (bh =? 0)); [eauto|].
  apply commands_loop_returns. lia.
Qed.

End WithOpenCV.

Lemma min_list_le (d : Z) (l : list Z) : min_list d l <= d.
Proof. induction l as [|a l IH]; simpl; lia. Qed.

Lemma max_list_ge (d : Z) (l : list Z) : d <= max_list d l.
Proof. induction l as [|a l IH]; simpl; lia. Qed.

Lemma boundingRect_size_nonneg (pts : list Point) :
  0 <= (boundingRect pts).1.2 /\ 0 <= (boundingRect pts).2.
Proof.
  destruct pts as [|[x0 y0] rest]; simpl; [lia|].
  pose proof (min_list_le x0 (map fst rest)).
  pose proof (max_list_ge x0 (map fst rest)).
  pose proof (min_list_le y0 (map snd rest)).
  pose proof (max_list_ge y0 (map snd rest)).
  lia.
Qed.





(** The helper [calculate_advance_width] takes a bearing of 15%: on the
    sample block it gives 974, where the vectorizer gives 930. *)
Example calculate_advance_width_sample :
  calculate_advance_width [[(1, 1); (1, 4); (3, 4); (3, 1)]] 6 (ASCENDER - DESCENDER)
  = 974.
Proof. reflexivity. Qed.

(** Ties are rounded to the even neighbour. *)
Lemma py_round_tie (k : Z) :
  py_round (inject_Z k + (1 # 2))%Q = if Z.even k then k else k + 1.
Proof.
  assert (Hf : Qfloor (inject_Z k + (1 # 2)) = k).
  { unfold Qfloor, Qplus, inject_Z. simpl.
    change (Z.pos (1 * 2)) with 2.
    replace (k * 2 + 1 * 1) with (1 + k * 2) by lia.
    rewrite Z.div_add by lia. reflexivity. }
  unfold py_round. rewrite Hf.
  assert ((inject_Z k + (1 # 2) - inject_Z k ?= 1 # 2)%Q = Eq) as ->; [|reflexivity].
  apply Qeq_alt. ring.
Qed.


Lemma mask_ext (b1 b2 : Mask) :
  map length b1 = map length b2 ->
  (forall r c, pixel b1 r c = pixel b2 r c) ->
  b1 = b2.
Proof.
  intros Hshape Hpx. apply list_eq. intros r.
  assert (Hr : length <$> (b1 !! r) = length <$> (b2 !! r)).
  { rewrite <- !list_lookup_fmap. f_equal. exact Hshape. }
  destruct (b1 !! r) as [row1|] eqn:E1, (b2 !! r) as [row2|] eqn:E2;
    simpl in Hr; try discriminate; [|reflexivity].
  f_equal. apply list_eq. intros c.
  specialize (Hpx r c). unfold pixel in Hpx. rewrite E1, E2 in Hpx. exact Hpx.
Qed.

End VectorizeFacts.

(** * vectorize.py in binary64: the advance width *)

Module Vectorize64Facts.

Import Binary64 Vectorize64.

(** ** Rounding keeps the sign *)

Lemma fl_nonneg (x : Q) : (0 <= x)%Q -> (0 <= fl x)%Q.
Proof.
  intros Hx. unfold fl.
  destruct (Qeq_bool x 0); [apply Qle_refl|].
  destruct (Qle_bool 0 x) eqn:E.
  - set (q := Z.max (ilog2 (Qabs x) - 52) (-1074)).
    assert (Hp : (0 < 2 ^ q)%Q) by (apply Qpower_0_lt; reflexivity).
    apply Qmult_le_0_compat; [|apply Qlt_le_weak; exact Hp].
    change 0%Q with (inject_Z 0). rewrite <- Zle_Qle.
    apply py_round_nonneg. apply Qle_shift_div_l; [exact Hp|].
    rewrite Qmult_0_l. apply Qabs_nonneg.
  - apply Qle_bool_iff in Hx. congruence.
Qed.

Lemma of_int_nonneg (z : Z) : 0 <= z -> (0 <= of_int z)%Q.
Proof.
  intros Hz. apply fl_nonneg. change 0%Q with (inject_Z 0).
  rewrite <- Zle_Qle. exact Hz.
Qed.

Lemma true_div_nonneg (a b : Z) : 0 <= a -> 0 < b -> (0 <= true_div a b)%Q.
Proof.
  intros Ha Hb. apply fl_nonneg. apply Qle_shift_div_l.
  - change 0%Q with (inject_Z 0). rewrite <- Zlt_Qlt. exact Hb.
  - rewrite Qmult_0_l. change 0%Q with (inject_Z 0). rewrite <- Zle_Qle. exact Ha.
Qed.

Lemma fmul_nonneg (x y : Q) : (0 <= x)%Q -> (0 <= y)%Q -> (0 <= fmul x y)%Q.
Proof. intros Hx Hy. apply fl_nonneg, Qmult_le_0_compat; assumption. Qed.

Lemma literal_nonneg (n : Z) (d : positive) : 0 <= n -> (0 <= literal n d)%Q.
Proof. intros Hn. apply fl_nonneg. unfold Qle. simpl. lia. Qed.

(** ** The loop returns *)

Section WithOpenCV.

Variable findContours : Mask -> list Contour * option (list (Z * Z * Z * Z)).
Variable approxPolyDP : Contour -> Q -> bool -> Contour.

Lemma commands_loop64_returns hier bx by_ scale th contours :
  forall i commands,
    (i + length contours <= length hier)%nat ->
    exists out,
      commands_loop approxPolyDP hier bx by_ scale th i contours commands = Ok out.
Proof.
  induction contours as [|contour rest IH]; intros i commands Hlen; simpl.
  - eauto.
  - simpl in Hlen.
    assert (exists c, contour_command approxPolyDP hier bx by_ scale th i contour
                      = Ok c) as [c ->].
    { unfold contour_command.
      destruct (length contour <? 3)%nat; [eauto|].
      destruct (length (approxPolyDP contour (1 # 2) true) <? 3)%nat; [eauto|].
      unfold index.
      destruct (hier !! i) as [h|] eqn:E; simpl; [eauto|].
      apply lookup_ge_None in E. lia. }
    simpl. apply IH. lia.
Qed.

Lemma contours_to_font_paths64_returns contours hier th :
  length hier = length contours ->
  exists out,
    contours_to_font_paths approxPolyDP contours (Some hier) th = Ok out.
Proof.
  intros Hlen. unfold contours_to_font_paths.
  destruct contours as [|c cs]; [eauto|].
  destruct (boundingRect (vstack (c :: cs))) as [[[bx by_] bw] bh].
  destruct ((bw =? 0) || (bh =? 0)); [eauto|].
  apply commands_loop64_returns. lia.
Qed.

End WithOpenCV.

(** ** The scaled ink width *)

(** The width of the ink's bounding box, scaled to the 1000 units
    between descender and ascender and rounded: [raw_width]. *)
Definition scaled_ink_width (contours : list Contour) : Z :=
  let '(_, _, bw, bh) := boundingRect (vstack contours) in
  py_round (fmul (of_int bw) (true_div (ASCENDER - DESCENDER) (Z.max bh 1))).

Lemma scaled_ink_width_nonneg (contours : list Contour) :
  0 <= scaled_ink_width contours.
Proof.
  unfold scaled_ink_width.
  pose proof (VectorizeFacts.boundingRect_size_nonneg (vstack contours)) as [Hw _].
  destruct (boundingRect (vstack contours)) as [[[bx by_] bw] bh].
  simpl in Hw. apply py_round_nonneg, fmul_nonneg.
  - apply of_int_nonneg. exact Hw.
  - apply true_div_nonneg; [unfold ASCENDER, DESCENDER|]; lia.
Qed.

(** Coordinates as OpenCV holds them. *)
Definition int32 (z : Z) : Prop := - 2 ^ 31 <= z < 2 ^ 31.

(** C3. Whenever contour tracing yields at least one contour (with, as
    OpenCV gives them, 32-bit coordinates and one hierarchy row per
    contour), the vectorizer returns a glyph whose left side bearing is
    [round(width * 0.12)] and whose advance width is [width + 2 * lsb],
    [width] being the scaled ink width [round(bw * scale)], all in the
    interpreter's binary64 arithmetic; hence the advance width is at least
    that width and the bearing is not negative. *)
Theorem advance_width_and_bearing
    (findContours : Mask -> list Contour * option (list (Z * Z * Z * Z)))
    (approxPolyDP : Contour -> Q -> bool -> Contour)
    (binary : Mask) (c : Contour) (cs : list Contour)
    (hier : list (Z * Z * Z * Z)) :
  findContours binary = (c :: cs, Some hier) ->
  length hier = length (c :: cs) ->
  Forall (fun p : Point => int32 p.1 /\ int32 p.2) (vstack (c :: cs)) ->
  exists g,
    process_glyph_bitmap findContours approxPolyDP binary = Ok g
    /\ lsb g = py_round (fmul (of_int (scaled_ink_width (c :: cs))) (literal 12 100))
    /\ advance_width g = scaled_ink_width (c :: cs) + 2 * lsb g
    /\ scaled_ink_width (c :: cs) <= advance_width g
    /\ 0 <= lsb g.
Proof.
  intros Htrace Hlen _.
  destruct (contours_to_font_paths64_returns approxPolyDP (c :: cs) hier
              (ASCENDER - DESCENDER) Hlen) as [ps Hps].
  pose proof (scaled_ink_width_nonneg (c :: cs)) as Hraw.
  assert (Hb : 0 <= py_round (fmul (of_int (scaled_ink_width (c :: cs)))
                                   (literal 12 100))).
  { apply py_round_nonneg, fmul_nonneg;
      [apply of_int_nonneg; exact Hraw | apply literal_nonneg; lia]. }
  unfold process_glyph_bitmap, bitmap_to_contours. rewrite Htrace.
  cbv beta iota. rewrite Hps.
  unfold mbind, result_mbind, result_bind. cbv beta iota.
  unfold scaled_ink_width in *.
  destruct (boundingRect (vstack (c :: cs))) as [[[bx by_] bw] bh].
  eexists. split; [reflexivity|]. cbn [lsb advance_width].
  repeat split; lia.
Qed.

(** A box of 15 by 240 pixels: the double [15 * (1000 / 240)] lies just
    above 62.5, so the width is 63, the bearing 8 and the advance 79. *)
Lemma advance_width_and_bearing_witness :
  exists g,
    process_glyph_bitmap trace_rectangle keep_polygon
      (filled_block 242 17 1 1 240 15) = Ok g
    /\ lsb g = 8 /\ advance_width g = 79.
Proof.
  destruct (advance_width_and_bearing trace_rectangle keep_polygon
              (filled_block 242 17 1 1 240 15)
              [(1, 1); (1, 240); (15, 240); (15, 1)] [] [(-1, -1, -1, -1)])
    as (g & Hg & Hl & Ha & _).
  - vm_compute. reflexivity.
  - reflexivity.
  - repeat constructor; unfold int32; simpl; lia.
  - exists g. split; [exact Hg|]. split.
    + rewrite Hl. vm_compute. reflexivity.
    + rewrite Ha, Hl. vm_compute. reflexivity.
Defined.

End Vectorize64Facts.

(** * Binary64: where the rounding does nothing *)

Module Binary64Facts.

Import Binary64.

Lemma py_round_int_valued (x : Q) (n : Z) : (x == inject_Z n)%Q -> py_round x = n.
Proof.
  intros E. unfold py_round.
  rewrite (Qfloor_comp _ _ E), Qfloor_Z.
  assert (Ec : (x - inject_Z n ?= 1 # 2)%Q = Lt).
  { apply -> Qlt_alt. rewrite E. unfold Qlt, Qminus, Qplus, Qopp, inject_Z. simpl. lia. }
  rewrite Ec. reflexivity.
Qed.

Lemma two_power_pos (q : Z) : (0 < 2 ^ q)%Q.
Proof. apply Qpower_0_lt. reflexivity. Qed.

(** [2 ^ (-p)] undoes the integer [2 ^ p]. *)
Lemma two_power_inv (p : Z) :
  0 <= p -> (inject_Z (2 ^ p) * 2 ^ (- p) == 1)%Q.
Proof.
  intros Hp. rewrite Zpower_Qpower by exact Hp.
  change (inject_Z 2) with 2%Q.
  rewrite <- Qpower_plus by discriminate.
  replace (p + - p) with 0 by lia. reflexivity.
Qed.

(** The exponent found for half an integer is at most that of the
    integer. *)
Lemma ilog2_half_int (a : Q) (z : Z) :
  0 < z -> (a == inject_Z z / 2)%Q -> ilog2 a <= Z.log2 z.
Proof.
  intros Hz E. destruct a as [n d].
  assert (En : n * 2 = z * Z.pos d).
  { unfold Qeq, Qdiv, Qmult, Qinv, inject_Z in E. simpl in E. lia. }
  assert (Hn : 0 < n) by lia.
  assert (Hk : Z.log2 n - Z.log2 (Z.pos d) <= Z.log2 z).
  { assert (H1 : Z.log2 (n * 2) = Z.log2 n + 1).
    { rewrite Z.mul_comm. apply Z.log2_double. exact Hn. }
    assert (H2 : Z.log2 (z * Z.pos d) <= Z.log2 z + Z.log2 (Z.pos d) + 1)
      by (apply Z.log2_mul_above; lia).
    rewrite <- En, H1 in H2. lia. }
  unfold ilog2. cbn [Qnum Qden].
  destruct (Qle_bool _ _); lia.
Qed.

(** Half an integer below [2^52] in size is a double. *)
Lemma fl_half_int (x : Q) (z : Z) :
  (x == inject_Z z / 2)%Q -> Z.abs z < 2 ^ 52 -> (fl x == x)%Q.
Proof.
  intros E Hz. unfold fl.
  destruct (Qeq_bool x 0) eqn:E0.
  { apply Qeq_bool_iff in E0. rewrite E0. reflexivity. }
  apply Qeq_bool_neq in E0.
  assert (Hz0 : z <> 0).
  { intros ->. apply E0. rewrite E. reflexivity. }
  assert (Ea : (Qabs x == inject_Z (Z.abs z) / 2)%Q).
  { rewrite E. unfold Qdiv. rewrite Qabs_Qmult.
    change (Qabs (/ 2)) with (/ 2)%Q.
    change (Qabs (inject_Z z)) with (inject_Z (Z.abs z)). reflexivity. }
  assert (Hlog : Z.log2 (Z.abs z) <= 51).
  { assert (H : Z.log2 (Z.abs z) < 52) by (apply Z.log2_lt_pow2; lia). lia. }
  pose proof (ilog2_half_int (Qabs x) (Z.abs z) ltac:(lia) Ea) as Hi.
  set (q := Z.max (ilog2 (Qabs x) - 52) (-1074)).
  assert (Hq : q <= -1) by (unfold q; lia).
  assert (Em : (Qabs x / 2 ^ q == inject_Z (Z.abs z * 2 ^ (- q - 1)))%Q).
  { rewrite Ea, inject_Z_mult.
    rewrite (Zpower_Qpower 2 (- q - 1)) by lia.
    change (inject_Z 2) with 2%Q.
    replace (- q - 1) with (- q + - 1) by lia.
    rewrite (Qpower_plus 2 (- q) (- 1)) by discriminate.
    rewrite Qpower_opp.
    change (2 ^ (- 1))%Q with (/ 2)%Q.
    unfold Qdiv. ring. }
  rewrite (py_round_int_valued _ _ Em).
  assert (Ev : (inject_Z (Z.abs z * 2 ^ (- q - 1)) * 2 ^ q == Qabs x)%Q).
  { rewrite <- Em. unfold Qdiv. rewrite <- Qmult_assoc.
    rewrite (Qmult_comm (/ 2 ^ q)), Qmult_inv_r, Qmult_1_r; [reflexivity|].
    intros H. pose proof (two_power_pos q) as Hp. rewrite H in Hp.
    exact (Qlt_irrefl _ Hp). }
  destruct (Qle_bool 0 x) eqn:Es.
  - apply Qle_bool_iff in Es. rewrite Ev. apply Qabs_pos. exact Es.
  - rewrite Ev.
    assert (Hneg : (x <= 0)%Q).
    { apply Qnot_lt_le. intros H. apply Qlt_le_weak in H.
      apply Qle_bool_iff in H. congruence. }
    rewrite (Qabs_neg _ Hneg). ring.
Qed.

(** An integer below [2^51] in size is a double. *)
Lemma fl_int (x : Q) (z : Z) :
  (x == inject_Z z)%Q -> Z.abs z < 2 ^ 51 -> (fl x == inject_Z z)%Q.
Proof.
  intros E Hz. rewrite <- E. apply (fl_half_int x (2 * z)).
  - rewrite E, inject_Z_mult. change (inject_Z 2) with 2%Q. field.
  - rewrite Z.abs_mul. change (Z.abs 2) with 2. lia.
Qed.

End Binary64Facts.

(** * segment.py: the noise filter and the dot-merge pass *)

Module SegmentFacts.

Import Segment.

(** ** The minimum-dimension filter *)

Section Filter.

Variable findContours : Mask -> list Contour.

Definition keeps (contour : Contour) : option (Box * Contour) :=
  let b := boundingRect contour in
  if (5 <? box_w b) && (5 <? box_h b) then Some (b, contour) else None.

Lemma keeps_small contour :
  box_w (boundingRect contour) <= 5 \/ box_h (boundingRect contour) <= 5 ->
  keeps contour = None.
Proof.
  intros H. unfold keeps.
  destruct (5 <? box_w (boundingRect contour)) eqn:Ew;
    destruct (5 <? box_h (boundingRect contour)) eqn:Eh; simpl; try reflexivity.
  apply Z.ltb_lt in Ew, Eh. lia.
Qed.

Lemma keeps_large contour :
  5 < box_w (boundingRect contour) -> 5 < box_h (boundingRect contour) ->
  keeps contour = Some (boundingRect contour, contour).
Proof.
  intros Hw Hh. unfold keeps.
  apply Z.ltb_lt in Hw, Hh. rewrite Hw, Hh. reflexivity.
Qed.

Lemma omap_keeps_nil contours :
  Forall (fun k => box_w (boundingRect k) <= 5 \/ box_h (boundingRect k) <= 5)
         contours ->
  omap keeps contours = [].
Proof.
  induction 1 as [|k ks Hk _ IH]; [reflexivity|].
  simpl. rewrite (keeps_small k Hk). exact IH.
Qed.

Lemma omap_keeps_cons contours :
  Exists (fun k => 5 < box_w (boundingRect k) /\ 5 < box_h (boundingRect k))
         contours ->
  exists b bs, omap keeps contours = b :: bs.
Proof.
  induction 1 as [k ks [Hw Hh]|k ks _ IH].
  - simpl. rewrite (keeps_large k Hw Hh). eauto.
  - simpl. destruct (keeps k); eauto.
Qed.

(** C2, as the code has it. When at least one region is detected and
    every detected region is at most 5 pixels wide or at most 5 pixels
    high (a lone 5 x 5 box, say), segmentation fails with "No valid
    character regions found"; as soon as one region is more than 5
    pixels in both directions (a 6 x 6 box, say) it passes the filter
    and segmentation returns a list. *)
Theorem minimum_dimension_filter (binary : Mask) (pangram : str)
    (c : Contour) (cs : list Contour) :
  findContours binary = c :: cs ->
  (Forall (fun k => box_w (boundingRect k) <= 5 \/ box_h (boundingRect k) <= 5)
          (c :: cs) ->
   segment_characters findContours binary pangram
   = Raise (ValueError "No valid character regions found"))
  /\ (Exists (fun k => 5 < box_w (boundingRect k) /\ 5 < box_h (boundingRect k))
             (c :: cs) ->
      exists results,
        segment_characters findContours binary pangram = Ok results).
Proof.
  intros Htrace. unfold segment_characters. rewrite Htrace.
  fold keeps. split.
  - intros Hall. rewrite (omap_keeps_nil _ Hall). reflexivity.
  - intros Hex. destruct (omap_keeps_cons _ Hex) as (b & bs & ->). eauto.
Qed.

End Filter.

Lemma minimum_dimension_filter_witness :
  segment_characters trace_outer (filled_block 10 10 2 2 5 5) (str_of "a")
  = Raise (ValueError "No valid character regions found").
Proof.
  refine (proj1 (minimum_dimension_filter trace_outer (filled_block 10 10 2 2 5 5)
                   (str_of "a") [(2, 2); (2, 6); (6, 6); (6, 2)] [] _) _).
  - reflexivity.
  - constructor; [|constructor]. left. vm_compute. discriminate.
Defined.

(** C2 as stated fails: a lone region with a 6 x 6 bounding box is kept
    and segmentation returns the character cropped around it. *)
Lemma six_by_six_box_is_kept :
  trace_outer (filled_block 10 10 2 2 6 6) = [[(2, 2); (2, 7); (7, 7); (7, 2)]]
  /\ boundingRect [(2, 2); (2, 7); (7, 7); (7, 2)] = (2, 2, 6, 6)
  /\ segment_characters trace_outer (filled_block 10 10 2 2 6 6) (str_of "a")
     = Ok [(97%N, filled_block 10 10 2 2 6 6)]
  /\ segment_characters trace_outer (filled_block 10 10 2 2 6 6) (str_of "a")
     <> Raise (ValueError "No valid character regions found").
Proof.
  assert (H : segment_characters trace_outer (filled_block 10 10 2 2 6 6) (str_of "a")
              = Ok [(97%N, filled_block 10 10 2 2 6 6)]) by (vm_compute; reflexivity).
  repeat split; try (vm_compute; reflexivity).
  rewrite H. discriminate.
Qed.

(** ** The dot-merge pass *)

Lemma is_small_spec median_h b :
  is_small median_h b = true <-> small_box median_h b.
Proof.
  unfold is_small, small_box. rewrite andb_true_iff, !Qltb_lt. reflexivity.
Qed.

Lemma below_and_overlapping_spec b1 b2 :
  below_and_overlapping b1 b2 = true <->
  box_y b1 < box_y b2
  /\ (Qabs ((inject_Z (box_x b1) + inject_Z (box_w b1) / 2)
            - (inject_Z (box_x b2) + inject_Z (box_w b2) / 2))
      < inject_Z (box_w b2))%Q.
Proof.
  unfold below_and_overlapping.
  rewrite andb_true_iff, Z.ltb_lt, Qltb_lt. reflexivity.
Qed.

Section FindParent.

Variables (used : gset nat) (median_h : Z) (i : nat) (b1 : Box).

(** What the inner loop tests of an entry of [indexed]. *)
Definition eligible (jb : nat * Box) : Prop :=
  jb.1 <> i /\ (jb.1 ∉ used) /\ qualifies median_h b1 jb.2.

(** The state of the inner loop after the entries [seen]. *)
Definition parent_inv (seen : list (nat * Box)) (st : option nat * option Z) : Prop :=
  match st with
  | (None, None) => forall jb, In jb seen -> ~ eligible jb
  | (Some j, Some d) =>
      exists b2, In (j, b2) seen /\ eligible (j, b2) /\ d = gap b1 b2
                 /\ forall jb, In jb seen -> eligible jb -> d <= gap b1 jb.2
  | _ => False
  end.

Lemma parent_step_cases st jb :
  (eligible jb /\ lt_best (gap b1 jb.2) st.2 = true
   /\ parent_step used median_h i b1 st jb = (Some jb.1, Some (gap b1 jb.2)))
  \/ ((~ eligible jb \/ lt_best (gap b1 jb.2) st.2 = false)
      /\ parent_step used median_h i b1 st jb = st).
Proof.
  destruct jb as [j b2]. unfold parent_step, eligible, qualifies. simpl.
  destruct (bool_decide (j = i)) eqn:Ei.
  { apply bool_decide_eq_true in Ei. right. split; [|reflexivity]. left. tauto. }
  apply bool_decide_eq_false in Ei.
  destruct (bool_decide (j ∈ used)) eqn:Eu; simpl.
  { apply bool_decide_eq_true in Eu. right. split; [|reflexivity]. left. tauto. }
  apply bool_decide_eq_false in Eu.
  destruct (below_and_overlapping b1 b2) eqn:Eb.
  2:{ right. split; [|reflexivity]. left. intros (_ & _ & Hy & Hx & _).
      assert (below_and_overlapping b1 b2 = true)
        by (apply below_and_overlapping_spec; auto).
      congruence. }
  apply below_and_overlapping_spec in Eb as [Hy Hx].
  destruct (Qltb (inject_Z (gap b1 b2)) (inject_Z median_h * (8 # 10))) eqn:Eg; simpl.
  2:{ right. split; [|reflexivity]. left. intros (_ & _ & _ & _ & Hg).
      apply Qltb_lt in Hg. congruence. }
  apply Qltb_lt in Eg.
  destruct (lt_best (gap b1 b2) st.2) eqn:El.
  - left. auto 10.
  - right. auto.
Qed.

Lemma parent_inv_step seen st jb :
  parent_inv seen st ->
  parent_inv (seen ++ [jb]) (parent_step used median_h i b1 st jb).
Proof.
  intros Hinv.
  destruct (parent_step_cases st jb) as [(He & Hlt & ->) | (Hno & ->)].
  - destruct jb as [j b2]. simpl in *.
    exists b2. split; [apply in_or_app; right; left; reflexivity|].
    split; [exact He|]. split; [reflexivity|].
    intros jb' Hin He'. apply in_app_or in Hin as [Hin | [<- | []]]; [|simpl; lia].
    destruct st as [[j0|] [d0|]]; simpl in Hinv, Hlt; try contradiction.
    + destruct Hinv as (b0 & _ & _ & -> & Hmin).
      apply Z.ltb_lt in Hlt. specialize (Hmin jb' Hin He'). lia.
    + exfalso. exact (Hinv jb' Hin He').
  - destruct st as [[j0|] [d0|]]; simpl in Hinv, Hno |- *; try contradiction.
    + destruct Hinv as (b0 & Hin0 & He0 & -> & Hmin).
      exists b0. split; [apply in_or_app; left; exact Hin0|].
      split; [exact He0|]. split; [reflexivity|].
      intros jb' Hin He'. apply in_app_or in Hin as [Hin | [<- | []]]; [auto|].
      destruct Hno as [Hno | Hno]; [contradiction|].
      apply Z.ltb_ge in Hno. exact Hno.
    + intros jb' Hin. apply in_app_or in Hin as [Hin | [<- | []]]; [auto|].
      destruct Hno as [Hno | Hno]; [exact Hno | discriminate].
Qed.

Lemma parent_inv_fold rest :
  forall seen st,
    parent_inv seen st ->
    parent_inv (seen ++ rest) (fold_left (parent_step used median_h i b1) rest st).
Proof.
  induction rest as [|jb rest IH]; intros seen st Hinv; simpl.
  - rewrite app_nil_r. exact Hinv.
  - replace (seen ++ jb :: rest) with ((seen ++ [jb]) ++ rest)
      by (rewrite <- app_assoc; reflexivity).
    apply IH. apply parent_inv_step. exact Hinv.
Qed.

(** The inner loop returns the nearest eligible entry, or nothing when
    no entry is eligible. *)
Lemma find_parent_spec indexed :
  match find_parent indexed used median_h i b1 with
  | Some j =>
      exists b2, In (j, b2) indexed /\ eligible (j, b2)
                 /\ forall jb, In jb indexed -> eligible jb ->
                               gap b1 b2 <= gap b1 jb.2
  | None => forall jb, In jb indexed -> ~ eligible jb
  end.
Proof.
  unfold find_parent.
  pose proof (parent_inv_fold indexed [] (None, None)) as H.
  simpl in H. specialize (H (fun _ Hin => match Hin with end)).
  destruct (fold_left (parent_step used median_h i b1) indexed (None, None))
    as [[j|] [d|]]; simpl in *; try contradiction.
  - destruct H as (b2 & Hin & He & -> & Hmin). eauto.
  - exact H.
Qed.

End FindParent.

Lemma In_insert_by {A : Type} (key : A -> Z) (a x : A) (l : list A) :
  In x (insert_by key a l) <-> x = a \/ In x l.
Proof.
  induction l as [|b l IH]; simpl; [intuition|].
  destruct (key a <=? key b); simpl; [intuition|].
  rewrite IH. intuition.
Qed.

Lemma In_sorted_by {A : Type} (key : A -> Z) (x : A) (l : list A) :
  In x (sorted_by key l) <-> In x l.
Proof.
  unfold sorted_by. induction l as [|a l IH]; simpl; [reflexivity|].
  rewrite In_insert_by, IH. intuition.
Qed.

Lemma In_enumerate {A : Type} (l : list A) (j : nat) (a : A) :
  In (j, a) (enumerate l) <-> l !! j = Some a.
Proof.
  unfold enumerate. rewrite <- list_elem_of_In, elem_of_lookup_imap. split.
  - intros (k & y & [= -> ->] & H). exact H.
  - intros H. eauto.
Qed.

Lemma merge_boxes_union (b1 b2 : Box) : union_box b1 b2 (merge_boxes b1 b2).
Proof.
  unfold union_box, merge_boxes, box_x, box_y, box_w, box_h. simpl.
  repeat split; lia.
Qed.

(** A box consumed as a parent is passed over. *)
Lemma merge_step_consumed (boxes : list Box) (indexed : list (nat * Box))
    (median_h : Z) (merged : list Box) (used : gset nat) (i : nat) (b1 : Box) :
  i ∈ used ->
  merge_step boxes indexed median_h (merged, used) (i, b1) = (merged, used).
Proof.
  intros Hi. unfold merge_step. rewrite bool_decide_eq_true_2 by exact Hi.
  reflexivity.
Qed.

(** ** The pass against the rule *)







(** The nearest candidate is a candidate with the least gap. *)
Lemma nearest_least (b1 : Box) (cands : list (nat * Box)) (c : nat * Box) :
  nearest b1 cands = Some c ->
  forall c', In c' cands -> gap b1 c.2 <= gap b1 c'.2.
Proof.
  unfold gap.
  revert c. induction cands as [|a rest IH]; intros c; [discriminate|].
  cbn [nearest].
  destruct (nearest b1 rest) as [n|] eqn:En.
  - specialize (IH n eq_refl).
    match goal with
    | |- context [?x <? ?y] => destruct (Z.ltb_spec x y) as [Hlt | Hge]
    end; intros [= <-] c' [<- | Hin]; try lia.
    + apply IH. exact Hin.
    + specialize (IH c' Hin). lia.
  - intros [= <-] c' [<- | Hin]; [lia|].
    destruct rest as [|r rest']; [destruct Hin|].
    cbn [nearest] in En. destruct (nearest b1 rest'); [destruct (_ <? _)|]; discriminate.
Qed.





(** On that input the dot is merged with the letter below it. *)
Example dot_merge_example :
  merge_close_bboxes (map (fun b => (b, [])) dotted_boxes) []
  = [(8, 0, 10, 30); (30, 10, 10, 20)].
Proof. vm_compute. reflexivity. Qed.

End SegmentFacts.

(** * segment.py: the single-glyph extractor *)

Module ExtractFacts.

Import Segment.

(** ** Bounding rectangles *)

Lemma min_list_head (d : Z) (l : list Z) : min_list d l <= d.
Proof. induction l as [|a l IH]; simpl; lia. Qed.

Lemma max_list_head (d : Z) (l : list Z) : d <= max_list d l.
Proof. induction l as [|a l IH]; simpl; lia. Qed.

Lemma min_list_lower (d : Z) (l : list Z) (a : Z) : In a l -> min_list d l <= a.
Proof.
  induction l as [|b l IH]; simpl; [tauto|].
  intros [-> | H]; [lia|]. specialize (IH H). lia.
Qed.

Lemma max_list_upper (d : Z) (l : list Z) (a : Z) : In a l -> a <= max_list d l.
Proof.
  induction l as [|b l IH]; simpl; [tauto|].
  intros [-> | H]; [lia|]. specialize (IH H). lia.
Qed.

Lemma min_list_attained (d : Z) (l : list Z) : In (min_list d l) (d :: l).
Proof.
  induction l as [|b l IH]; simpl; [auto|].
  destruct (Z.min_spec b (min_list d l)) as [[_ ->] | [_ ->]]; [auto|].
  destruct IH as [<- | H]; auto.
Qed.

Lemma max_list_attained (d : Z) (l : list Z) : In (max_list d l) (d :: l).
Proof.
  induction l as [|b l IH]; simpl; [auto|].
  destruct (Z.max_spec b (max_list d l)) as [[_ ->] | [_ ->]]; [|auto].
  destruct IH as [<- | H]; auto.
Qed.

Lemma boundingRect_contains (pts : list Point) (x y w h : Z) (p : Point) :
  boundingRect pts = (x, y, w, h) -> In p pts ->
  x <= p.1 < x + w /\ y <= p.2 < y + h.
Proof.
  destruct pts as [|[x0 y0] rest]; [intros _ []|].
  simpl. intros [= <- <- <- <-] Hin.
  pose proof (min_list_head x0 (map fst rest)).
  pose proof (max_list_head x0 (map fst rest)).
  pose proof (min_list_head y0 (map snd rest)).
  pose proof (max_list_head y0 (map snd rest)).
  destruct Hin as [<- | Hin]; simpl; [lia|].
  pose proof (min_list_lower x0 _ _ (in_map fst _ _ Hin)).
  pose proof (max_list_upper x0 _ _ (in_map fst _ _ Hin)).
  pose proof (min_list_lower y0 _ _ (in_map snd _ _ Hin)).
  pose proof (max_list_upper y0 _ _ (in_map snd _ _ Hin)).
  lia.
Qed.

(** Each side of the rectangle touches a point. *)
Lemma boundingRect_tight (pts : list Point) (x y w h : Z) :
  pts <> [] -> boundingRect pts = (x, y, w, h) ->
  (exists p, In p pts /\ p.1 = x)
  /\ (exists p, In p pts /\ p.1 = x + w - 1)
  /\ (exists p, In p pts /\ p.2 = y)
  /\ (exists p, In p pts /\ p.2 = y + h - 1).
Proof.
  destruct pts as [|[x0 y0] rest]; [congruence|].
  intros _. simpl. intros [= <- <- <- <-].
  assert (Hfst : forall v, In v (x0 :: map fst rest) ->
                           exists p, In p ((x0, y0) :: rest) /\ p.1 = v).
  { intros v [<- | Hv]; [exists (x0, y0); simpl; auto|].
    apply in_map_iff in Hv as (p & <- & Hp). exists p. simpl; auto. }
  assert (Hsnd : forall v, In v (y0 :: map snd rest) ->
                           exists p, In p ((x0, y0) :: rest) /\ p.2 = v).
  { intros v [<- | Hv]; [exists (x0, y0); simpl; auto|].
    apply in_map_iff in Hv as (p & <- & Hp). exists p. simpl; auto. }
  repeat split.
  - apply Hfst, min_list_attained.
  - replace (_ + _ - 1) with (max_list x0 (map fst rest)) by lia.
    apply Hfst, max_list_attained.
  - apply Hsnd, min_list_attained.
  - replace (_ + _ - 1) with (max_list y0 (map snd rest)) by lia.
    apply Hsnd, max_list_attained.
Qed.

(** ** The non-zero pixels *)

Definition coords_of (m : Mask) : list Point := concat (imap nonzero_in_row m).

Lemma coords_of_in (m : Mask) (r c : nat) (v : Z) :
  pixel m r c = Some v -> v <> 0 -> In (Z.of_nat c, Z.of_nat r) (coords_of m).
Proof.
  unfold pixel. intros Hpx Hv.
  destruct (m !! r) as [row|] eqn:Er; simpl in Hpx; [|discriminate].
  apply in_concat. exists (nonzero_in_row r row). split.
  - apply list_elem_of_In. apply (elem_of_lookup_imap_2 nonzero_in_row m row r Er).
  - apply list_elem_of_In. unfold nonzero_in_row. apply list_elem_of_omap.
    exists (Some (Z.of_nat c, Z.of_nat r)). split; [|reflexivity].
    pose proof (elem_of_lookup_imap_2
      (fun c v => if v =? 0 then None else Some (Z.of_nat c, Z.of_nat r))
      row v c Hpx) as H.
    simpl in H. destruct (Z.eqb_spec v 0); [contradiction | exact H].
Qed.

Lemma in_coords_of (m : Mask) (p : Point) :
  In p (coords_of m) ->
  exists r c v, p = (Z.of_nat c, Z.of_nat r) /\ pixel m r c = Some v /\ v <> 0.
Proof.
  intros H. apply in_concat in H as (l & Hl & Hp).
  apply list_elem_of_In, elem_of_lookup_imap_1 in Hl as (r & row & -> & Er).
  apply list_elem_of_In in Hp. unfold nonzero_in_row in Hp.
  apply list_elem_of_omap in Hp as (o & Ho & Hid). simpl in Hid. subst o.
  apply elem_of_lookup_imap_1 in Ho as (c & v & Heq & Ec).
  destruct (Z.eqb_spec v 0) as [|Hv]; [discriminate|].
  injection Heq as ->. exists r, c, v. unfold pixel. rewrite Er. simpl. auto.
Qed.

Lemma findNonZero_coords (m : Mask) (coords : list Point) :
  findNonZero m = Some coords -> coords = coords_of m /\ coords <> [].
Proof.
  unfold findNonZero. fold (coords_of m).
  destruct (coords_of m); [discriminate|]. intros [= <-]. split; congruence.
Qed.

Lemma findNonZero_None (m : Mask) :
  findNonZero m = None <-> forall r c v, pixel m r c = Some v -> v = 0.
Proof.
  unfold findNonZero. fold (coords_of m). split.
  - destruct (coords_of m) eqn:E; [|discriminate]. intros _ r c v Hpx.
    destruct (Z.eq_dec v 0) as [|Hv]; [assumption|].
    pose proof (coords_of_in m r c v Hpx Hv) as Hin. rewrite E in Hin. destruct Hin.
  - intros H. destruct (coords_of m) as [|p l] eqn:E; [reflexivity|].
    destruct (in_coords_of m p) as (r & c & v & _ & Hpx & Hv).
    { rewrite E. left. reflexivity. }
    exfalso. apply Hv. eauto.
Qed.

(** ** The shape of the result *)

Lemma pixel_bounds (cols : nat) (m : Mask) (r c : nat) (v : Z) :
  rectangular cols m -> pixel m r c = Some v ->
  (r < length m)%nat /\ (c < cols)%nat.
Proof.
  unfold rectangular, pixel. intros Hrect Hpx.
  destruct (m !! r) as [row|] eqn:Er; simpl in Hpx; [|discriminate].
  split; [eapply lookup_lt_Some; eauto|].
  rewrite List.Forall_forall in Hrect.
  rewrite <- (Hrect row); [eapply lookup_lt_Some; eauto|].
  apply list_elem_of_In. eapply list_elem_of_lookup_2; eauto.
Qed.

Lemma slice_inside {A : Type} (l : list A) (a n : Z) :
  0 <= a -> 0 <= n -> a + n <= Z.of_nat (length l) ->
  slice l a (a + n) = take (Z.to_nat n) (drop (Z.to_nat a) l).
Proof.
  intros Ha Hn Hlen. unfold slice, slice_bound.
  destruct (Z.ltb_spec a 0); [lia|].
  destruct (Z.ltb_spec (a + n) 0); [lia|].
  rewrite !Z.min_l by lia. f_equal; f_equal; lia.
Qed.

Lemma filter_concat {A : Type} (P : A -> Prop) `{forall a, Decision (P a)}
    (ls : list (list A)) :
  filter P (concat ls) = concat (map (filter P) ls).
Proof.
  induction ls as [|l ls IH]; simpl; [reflexivity|].
  rewrite filter_app, IH. reflexivity.
Qed.

Lemma filter_blank (l : list Z) :
  Forall (fun v => v = 0) l -> filter (fun v => v <> 0) l = [].
Proof.
  induction 1 as [|v l Hv _ IH]; [reflexivity|].
  rewrite filter_cons_False by (intros Hn; exact (Hn Hv)). exact IH.
Qed.

Lemma filter_replicate_0 (n : nat) : filter (fun v => v <> 0) (replicate n 0) = [].
Proof. apply filter_blank. apply Forall_replicate. reflexivity. Qed.

Lemma ink_blank_rows (ls : list (list Z)) :
  Forall (Forall (fun v => v = 0)) ls -> ink ls = [].
Proof.
  unfold ink. rewrite filter_concat.
  induction 1 as [|l ls Hl _ IH]; [reflexivity|].
  simpl. rewrite (filter_blank l Hl). exact IH.
Qed.

Lemma ink_app (m1 m2 : Mask) : ink (m1 ++ m2) = ink m1 ++ ink m2.
Proof. unfold ink. rewrite concat_app, filter_app. reflexivity. Qed.

Section Content.

Variables (cols : nat) (m : Mask) (coords : list Point) (x y w h : Z).
Hypothesis Hrect : rectangular cols m.
Hypothesis Hfind : findNonZero m = Some coords.
Hypothesis Hbox : boundingRect coords = (x, y, w, h).

(** All the ink lies in the content box. *)
Lemma ink_in_box (r c : nat) (v : Z) :
  pixel m r c = Some v -> v <> 0 ->
  x <= Z.of_nat c < x + w /\ y <= Z.of_nat r < y + h.
Proof.
  intros Hpx Hv. destruct (findNonZero_coords m coords Hfind) as [-> _].
  exact (boundingRect_contains _ _ _ _ _ _ Hbox (coords_of_in m r c v Hpx Hv)).
Qed.

(** The content box lies in the image and is not empty. *)
Lemma box_in_image :
  0 <= x /\ 0 <= y /\ 1 <= w /\ 1 <= h
  /\ x + w <= Z.of_nat cols /\ y + h <= Z.of_nat (length m).
Proof.
  destruct (findNonZero_coords m coords Hfind) as [-> Hne].
  destruct (boundingRect_tight _ _ _ _ _ Hne Hbox)
    as ((p1 & H1 & E1) & (p2 & H2 & E2) & (p3 & H3 & E3) & (p4 & H4 & E4)).
  pose proof (boundingRect_contains _ _ _ _ _ p1 Hbox H1) as B1.
  apply in_coords_of in H1 as (r1 & c1 & v1 & -> & Hp1 & _).
  apply in_coords_of in H2 as (r2 & c2 & v2 & -> & Hp2 & _).
  apply in_coords_of in H3 as (r3 & c3 & v3 & -> & Hp3 & _).
  apply in_coords_of in H4 as (r4 & c4 & v4 & -> & Hp4 & _).
  apply (pixel_bounds cols) in Hp1, Hp2, Hp3, Hp4; try exact Hrect.
  simpl in *. lia.
Qed.

Let X := Z.to_nat x.
Let Y := Z.to_nat y.
Let W := Z.to_nat w.
Let H := Z.to_nat h.

Lemma shape1_cols : shape1 m = Z.of_nat cols.
Proof.
  pose proof box_in_image as Hb.
  unfold shape1. destruct m as [|row rest]; [simpl in Hb; lia|].
  unfold rectangular in Hrect. inversion Hrect; subst. reflexivity.
Qed.

(** The crop, row by row. *)
Definition crop : Mask := map (fun row => take W (drop X row)) (take H (drop Y m)).

Lemma cropped_eq : slice2 m y (y + h) x (x + w) = crop.
Proof.
  pose proof box_in_image as (Hx & Hy & Hw & Hh & Hxw & Hyh).
  unfold slice2, crop. rewrite (slice_inside m y h) by lia.
  pose proof shape1_cols as Hc. unfold shape1 in Hc.
  destruct m as [|row rest] eqn:Em; [simpl in Hyh; lia|].
  rewrite <- Em. apply Nat2Z.inj in Hc. rewrite Hc.
  unfold slice_bound.
  destruct (Z.ltb_spec x 0); [lia|].
  destruct (Z.ltb_spec (x + w) 0); [lia|].
  rewrite !Z.min_l by lia.
  replace (Z.to_nat (x + w - x)) with W by (unfold W; lia).
  reflexivity.
Qed.

Lemma crop_length : length crop = H.
Proof.
  pose proof box_in_image as (Hx & Hy & Hw & Hh & Hxw & Hyh).
  unfold crop. rewrite length_map, length_take, length_drop. unfold H, Y. lia.
Qed.

Lemma crop_row_length (src : list Z) : In src crop -> length src = W.
Proof.
  pose proof box_in_image as (Hx & Hy & Hw & Hh & Hxw & Hyh).
  unfold crop. intros Hin. apply in_map_iff in Hin as (row & <- & Hrow).
  assert (length row = cols) as Hlen.
  { unfold rectangular in Hrect. rewrite List.Forall_forall in Hrect.
    apply Hrect. apply list_elem_of_In.
    apply list_elem_of_In in Hrow.
    apply (subseteq_take H (drop Y m)), (subseteq_drop Y m) in Hrow. exact Hrow. }
  rewrite length_take, length_drop, Hlen. unfold W, X. lia.
Qed.

Lemma crop_lookup (i j : nat) :
  (i < H)%nat -> (j < W)%nat ->
  pixel crop i j = pixel m (Y + i) (X + j).
Proof.
  intros Hi Hj. unfold pixel, crop.
  rewrite list_lookup_fmap, lookup_take_lt by exact Hi.
  rewrite lookup_drop.
  destruct (m !! (Y + i)%nat) as [row|]; simpl; [|reflexivity].
  rewrite lookup_take_lt by exact Hj. apply lookup_drop.
Qed.

(** Nothing but zeros is cut away. *)
Lemma ink_crop : ink crop = ink m.
Proof.
  pose proof box_in_image as (Hx & Hy & Hw & Hh & Hxw & Hyh).
  assert (Hzero : forall r row c v, m !! r = Some row -> row !! c = Some v ->
                    ~ (x <= Z.of_nat c < x + w /\ y <= Z.of_nat r < y + h) -> v = 0).
  { intros r row c v Hr Hc Hout. destruct (Z.eq_dec v 0) as [|Hv]; [assumption|].
    exfalso. apply Hout. apply (ink_in_box r c v); [|exact Hv].
    unfold pixel. rewrite Hr. exact Hc. }
  rewrite <- (take_drop Y m) at 1. rewrite ink_app.
  rewrite (ink_blank_rows (take Y m)).
  2:{ apply Forall_forall. intros row Hrow.
      apply list_elem_of_lookup in Hrow as [r Hr].
      apply lookup_take_Some in Hr as [Hr Hlt].
      apply Forall_forall. intros v Hv.
      apply list_elem_of_lookup in Hv as [c Hc].
      apply (Hzero r row c v Hr Hc). unfold Y in Hlt. lia. }
  rewrite <- (take_drop H (drop Y m)) at 1. rewrite ink_app.
  rewrite (ink_blank_rows (drop H (drop Y m))).
  2:{ apply Forall_forall. intros row Hrow.
      apply list_elem_of_lookup in Hrow as [r Hr].
      rewrite !lookup_drop in Hr.
      apply Forall_forall. intros v Hv.
      apply list_elem_of_lookup in Hv as [c Hc].
      apply (Hzero _ row c v Hr Hc). unfold Y, H. lia. }
  simpl. rewrite app_nil_r.
  unfold crop, ink. rewrite !filter_concat. f_equal.
  rewrite map_map. apply map_ext_in. intros row Hrow.
  apply list_elem_of_In, list_elem_of_lookup in Hrow as [r Hr].
  apply lookup_take_Some in Hr as [Hr _]. rewrite lookup_drop in Hr.
  rewrite <- (take_drop X row) at 2. rewrite filter_app.
  rewrite (filter_blank (take X row)).
  2:{ apply Forall_forall. intros v Hv.
      apply list_elem_of_lookup in Hv as [c Hc].
      apply lookup_take_Some in Hc as [Hc Hlt].
      apply (Hzero _ row c v Hr Hc). unfold X in Hlt. lia. }
  rewrite <- (take_drop W (drop X row)) at 2. rewrite filter_app.
  rewrite (filter_blank (drop W (drop X row))).
  2:{ apply Forall_forall. intros v Hv.
      apply list_elem_of_lookup in Hv as [c Hc].
      rewrite !lookup_drop in Hc.
      apply (Hzero _ row _ v Hr Hc). unfold X, W. lia. }
  simpl. rewrite app_nil_r. reflexivity.
Qed.

(** The canvas around the crop. *)

Let side := Z.max w h + 20.
Let S := Z.to_nat side.
Let OX := Z.to_nat ((side - w) / 2).
Let OY := Z.to_nat ((side - h) / 2).

Lemma offsets_fit : (OX + W <= S)%nat /\ (OY + H <= S)%nat /\ (10 <= OX)%nat /\ (10 <= OY)%nat.
Proof.
  pose proof box_in_image as (Hx & Hy & Hw & Hh & Hxw & Hyh).
  assert (10 <= (side - w) / 2 <= side - w).
  { split; [apply Z.div_le_lower_bound | apply Z.div_le_upper_bound];
      unfold side; lia. }
  assert (10 <= (side - h) / 2 <= side - h).
  { split; [apply Z.div_le_lower_bound | apply Z.div_le_upper_bound];
      unfold side; lia. }
  unfold OX, OY, W, H, S. lia.
Qed.

Definition framed_row (src : list Z) : list Z :=
  replicate OX 0 ++ map to_uint8 src ++ replicate (S - OX - W) 0.

Definition framed : Mask :=
  replicate OY (replicate S 0) ++ map framed_row crop
  ++ replicate (S - OY - H) (replicate S 0).

Lemma extract_framed : extract_single_glyph m = framed.
Proof.
  pose proof offsets_fit as (Hox & Hoy & _ & _).
  unfold extract_single_glyph. rewrite Hfind, Hbox, cropped_eq.
  unfold assign_block, zeros.
  fold side. fold S. fold OX. fold OY. fold W. fold H.
  unfold framed.
  rewrite take_replicate, drop_replicate, take_replicate, drop_replicate.
  rewrite (Nat.min_l OY S) by lia.
  rewrite (Nat.min_l H (S - OY)) by lia.
  replace (S - (OY + H))%nat with (S - OY - H)%nat by lia.
  f_equal. f_equal.
  rewrite zip_with_replicate_l by (rewrite crop_length; lia).
  apply map_ext. intros src. unfold assign_row, framed_row.
  rewrite take_replicate, drop_replicate.
  rewrite (Nat.min_l OX S) by lia.
  replace (S - (OX + W))%nat with (S - OX - W)%nat by lia.
  reflexivity.
Qed.

Lemma framed_length : length framed = S.
Proof.
  pose proof offsets_fit as (Hox & Hoy & _ & _).
  unfold framed. rewrite !length_app, !length_replicate, length_map, crop_length.
  lia.
Qed.

Lemma framed_rows : rectangular S framed.
Proof.
  pose proof offsets_fit as (Hox & Hoy & _ & _).
  unfold rectangular, framed. rewrite !Forall_app. repeat split.
  - apply Forall_replicate. apply length_replicate.
  - apply Forall_forall. intros row Hrow.
    apply list_elem_of_In, in_map_iff in Hrow as (src & <- & Hsrc).
    unfold framed_row.
    rewrite !length_app, !length_replicate, length_map, (crop_row_length src Hsrc).
    lia.
  - apply Forall_replicate. apply length_replicate.
Qed.

Hypothesis Huint8 : uint8_mask m.

Lemma crop_uint8 (src : list Z) : In src crop -> map to_uint8 src = src.
Proof.
  unfold crop. intros Hin. apply in_map_iff in Hin as (row & <- & Hrow).
  assert (Forall (fun v => 0 <= v < 256) row) as Hr.
  { unfold uint8_mask in Huint8. rewrite List.Forall_forall in Huint8.
    apply Huint8. apply list_elem_of_In.
    apply list_elem_of_In in Hrow.
    apply (subseteq_take H (drop Y m)), (subseteq_drop Y m) in Hrow. exact Hrow. }
  rewrite <- (map_id (take W (drop X row))) at 2.
  apply map_ext_in. intros v Hv. unfold to_uint8.
  apply Z.mod_small.
  rewrite List.Forall_forall in Hr. apply Hr.
  apply list_elem_of_In. apply list_elem_of_In in Hv.
  apply (subseteq_take W (drop X row)), (subseteq_drop X row) in Hv. exact Hv.
Qed.

(** Inside the window the canvas shows the crop, pixel for pixel. *)
Lemma framed_inside (di dj : nat) :
  (di < H)%nat -> (dj < W)%nat ->
  pixel framed (OY + di) (OX + dj) = pixel m (Y + di) (X + dj).
Proof.
  intros Hdi Hdj. rewrite <- crop_lookup by assumption.
  unfold pixel, framed.
  rewrite lookup_app_r by (rewrite length_replicate; lia).
  rewrite length_replicate.
  replace (OY + di - OY)%nat with di by lia.
  rewrite lookup_app_l by (rewrite length_map, crop_length; exact Hdi).
  rewrite list_lookup_fmap.
  destruct (crop !! di) as [src|] eqn:Esrc; simpl; [|reflexivity].
  assert (In src crop) as Hin
    by (apply list_elem_of_In; eapply list_elem_of_lookup_2; eauto).
  unfold framed_row. rewrite (crop_uint8 src Hin).
  rewrite lookup_app_r by (rewrite length_replicate; lia).
  rewrite length_replicate.
  replace (OX + dj - OX)%nat with dj by lia.
  apply lookup_app_l. rewrite (crop_row_length src Hin). exact Hdj.
Qed.

(** Outside of it the canvas is black. *)
Lemma framed_outside (i j : nat) :
  (i < S)%nat -> (j < S)%nat ->
  ~ ((OY <= i < OY + H)%nat /\ (OX <= j < OX + W)%nat) ->
  pixel framed i j = Some 0.
Proof.
  pose proof offsets_fit as (Hox & Hoy & _ & _).
  intros Hi Hj Hout. unfold pixel, framed.
  assert (Hz : replicate S 0 !! j = Some 0) by (apply lookup_replicate_2; exact Hj).
  destruct (Nat.lt_ge_cases i OY) as [Hlo | Hlo].
  { rewrite lookup_app_l by (rewrite length_replicate; exact Hlo).
    rewrite lookup_replicate_2 by exact Hlo. exact Hz. }
  rewrite lookup_app_r by (rewrite length_replicate; exact Hlo).
  rewrite length_replicate.
  destruct (Nat.lt_ge_cases i (OY + H)) as [Hhi | Hhi].
  2:{ rewrite lookup_app_r by (rewrite length_map, crop_length; lia).
      rewrite length_map, crop_length.
      rewrite lookup_replicate_2 by lia. exact Hz. }
  rewrite lookup_app_l by (rewrite length_map, crop_length; lia).
  rewrite list_lookup_fmap.
  destruct (crop !! (i - OY)%nat) as [src|] eqn:Esrc; simpl.
  2:{ apply lookup_ge_None in Esrc. rewrite crop_length in Esrc. lia. }
  assert (In src crop) as Hin
    by (apply list_elem_of_In; eapply list_elem_of_lookup_2; eauto).
  unfold framed_row.
  destruct (Nat.lt_ge_cases j OX) as [Hl | Hl].
  { rewrite lookup_app_l by (rewrite length_replicate; exact Hl).
    apply lookup_replicate_2. exact Hl. }
  rewrite lookup_app_r by (rewrite length_replicate; exact Hl).
  rewrite length_replicate.
  rewrite lookup_app_r
    by (rewrite length_map, (crop_row_length src Hin); lia).
  rewrite length_map, (crop_row_length src Hin).
  apply lookup_replicate_2. lia.
Qed.

(** The canvas holds the ink of the crop and nothing else. *)
Lemma ink_framed : ink framed = ink m.
Proof.
  rewrite <- ink_crop. unfold framed. rewrite !ink_app.
  rewrite !(ink_blank_rows (replicate _ _))
    by (apply Forall_replicate, Forall_replicate; reflexivity).
  simpl. rewrite app_nil_r.
  unfold ink. rewrite !filter_concat. f_equal.
  rewrite map_map. apply map_ext_in. intros src Hsrc.
  unfold framed_row. rewrite (crop_uint8 src Hsrc).
  rewrite !filter_app, !filter_replicate_0. simpl. apply app_nil_r.
Qed.

End Content.

Lemma content_box_of (m : Mask) (coords : list Point) (x y w h : Z) :
  findNonZero m = Some coords -> boundingRect coords = (x, y, w, h) ->
  content_box m x y w h.
Proof.
  intros Hfind Hbox. split.
  - intros r c v. apply (ink_in_box m coords x y w h Hfind Hbox).
  - destruct (findNonZero_coords m coords Hfind) as [-> Hne].
    destruct (boundingRect_tight _ _ _ _ _ Hne Hbox)
      as ((p1 & H1 & E1) & (p2 & H2 & E2) & (p3 & H3 & E3) & (p4 & H4 & E4)).
    apply in_coords_of in H1 as (r1 & c1 & v1 & -> & Hp1 & Hv1).
    apply in_coords_of in H2 as (r2 & c2 & v2 & -> & Hp2 & Hv2).
    apply in_coords_of in H3 as (r3 & c3 & v3 & -> & Hp3 & Hv3).
    apply in_coords_of in H4 as (r4 & c4 & v4 & -> & Hp4 & Hv4).
    simpl in *. repeat split; eauto 10.
Qed.

(** C9. A mask without foreground is returned as it is. For a mask with
    foreground, [(x, y, w, h)] being the bounding box of its non-zero
    pixels, the result is a square of side [max w h + 20]; the window of
    [h] x [w] pixels at row [(side - h) / 2], column [(side - w) / 2]
    shows the content crop pixel for pixel, and every pixel outside that
    window is 0. *)
Theorem extract_single_glyph_spec (cols : nat) (binary : Mask) :
  rectangular cols binary ->
  uint8_mask binary ->
  ((forall r c v, pixel binary r c = Some v -> v = 0) ->
   extract_single_glyph binary = binary)
  /\ ((exists r c v, pixel binary r c = Some v /\ v <> 0) ->
      exists x y w h,
        content_box binary x y w h
        /\ let side := Z.max w h + 20 in
           let ox := Z.to_nat ((side - w) / 2) in
           let oy := Z.to_nat ((side - h) / 2) in
           let out := extract_single_glyph binary in
           length out = Z.to_nat side
           /\ rectangular (Z.to_nat side) out
           /\ (forall di dj : nat,
                 (di < Z.to_nat h)%nat -> (dj < Z.to_nat w)%nat ->
                 pixel out (oy + di) (ox + dj)
                 = pixel binary (Z.to_nat y + di) (Z.to_nat x + dj))
           /\ (forall i j : nat,
                 (i < Z.to_nat side)%nat -> (j < Z.to_nat side)%nat ->
                 ~ ((oy <= i < oy + Z.to_nat h)%nat
                    /\ (ox <= j < ox + Z.to_nat w)%nat) ->
                 pixel out i j = Some 0)).
Proof.
  intros Hrect Huint8. split.
  - intros Hblank. apply findNonZero_None in Hblank.
    unfold extract_single_glyph. rewrite Hblank. reflexivity.
  - intros (r & c & v & Hpx & Hv).
    destruct (findNonZero binary) as [coords|] eqn:Hfind.
    2:{ exfalso. apply Hv. eapply findNonZero_None; eauto. }
    destruct (boundingRect coords) as [[[x y] w] h] eqn:Hbox.
    exists x, y, w, h. split; [eapply content_box_of; eauto|].
    cbv zeta.
    rewrite (extract_framed cols binary coords x y w h Hrect Hfind Hbox).
    split; [eapply framed_length; eauto|].
    split; [eapply framed_rows; eauto|].
    split.
    + intros di dj. eapply framed_inside; eauto.
    + intros i j. eapply framed_outside; eauto.
Qed.

Lemma block_mask_rectangular : rectangular 5 block_mask.
Proof. unfold rectangular, block_mask. repeat constructor. Qed.

Lemma block_mask_uint8 : uint8_mask block_mask.
Proof. unfold uint8_mask, block_mask. repeat constructor; lia. Qed.

Lemma extract_single_glyph_spec_witness :
  exists x y w h,
    content_box block_mask x y w h
    /\ length (extract_single_glyph block_mask) = Z.to_nat (Z.max w h + 20).
Proof.
  destruct (proj2 (extract_single_glyph_spec 5 block_mask
                     block_mask_rectangular block_mask_uint8))
    as (x & y & w & h & Hbox & Hlen & _).
  - exists 1%nat, 1%nat, 255. split; [reflexivity | discriminate].
  - exists x, y, w, h. split; [exact Hbox | exact Hlen].
Defined.

(** On the sample block: a 24 x 24 canvas with the 4 x 3 block in rows
    10 to 13 and columns 10 to 12. *)
Example extract_block_mask :
  extract_single_glyph block_mask = filled_block 24 24 10 10 4 3.
Proof. vm_compute. reflexivity. Qed.

Lemma extract_ink_eq (cols : nat) (binary : Mask) :
  rectangular cols binary -> uint8_mask binary ->
  ink (extract_single_glyph binary) = ink binary.
Proof.
  intros Hrect Huint8.
  destruct (findNonZero binary) as [coords|] eqn:Hfind.
  - destruct (boundingRect coords) as [[[x y] w] h] eqn:Hbox.
    rewrite (extract_framed cols binary coords x y w h Hrect Hfind Hbox).
    eapply ink_framed; eauto.
  - unfold extract_single_glyph. rewrite Hfind. reflexivity.
Qed.

(** C10. The extractor neither loses nor creates ink: the foreground
    pixel values of the result are those of the input, as multisets, and
    so there are as many of them. *)
Theorem extract_preserves_ink (cols : nat) (binary : Mask) :
  rectangular cols binary ->
  uint8_mask binary ->
  ink (extract_single_glyph binary) ≡ₚ ink binary
  /\ length (ink (extract_single_glyph binary)) = length (ink binary).
Proof.
  intros Hrect Huint8.
  rewrite (extract_ink_eq cols binary Hrect Huint8). split; reflexivity.
Qed.

Lemma extract_preserves_ink_witness :
  length (ink (extract_single_glyph block_mask)) = length (ink block_mask).
Proof.
  exact (proj2 (extract_preserves_ink 5 block_mask
                  block_mask_rectangular block_mask_uint8)).
Defined.

End ExtractFacts.

(** * segment.py: extracting a glyph twice *)

Module ExtractMoreFacts.

Import Segment ExtractFacts.

(** A mask has one content box. *)
Lemma content_box_unique (m : Mask) (x y w h x' y' w' h' : Z) :
  content_box m x y w h -> content_box m x' y' w' h' ->
  (x, y, w, h) = (x', y', w', h').
Proof.
  intros (Hin & (r1 & c1 & v1 & P1 & V1 & E1) & (r2 & c2 & v2 & P2 & V2 & E2)
          & (r3 & c3 & v3 & P3 & V3 & E3) & (r4 & c4 & v4 & P4 & V4 & E4))
         (Hin' & (r1' & c1' & v1' & P1' & V1' & E1') & (r2' & c2' & v2' & P2' & V2' & E2')
          & (r3' & c3' & v3' & P3' & V3' & E3') & (r4' & c4' & v4' & P4' & V4' & E4')).
  pose proof (Hin' _ _ _ P1 V1). pose proof (Hin' _ _ _ P2 V2).
  pose proof (Hin' _ _ _ P3 V3). pose proof (Hin' _ _ _ P4 V4).
  pose proof (Hin _ _ _ P1' V1'). pose proof (Hin _ _ _ P2' V2').
  pose proof (Hin _ _ _ P3' V3'). pose proof (Hin _ _ _ P4' V4').
  assert (x = x') by lia. assert (y = y') by lia.
  assert (w = w') by lia. assert (h = h') by lia.
  congruence.
Qed.

Section Twice.

Variables (cols : nat) (m : Mask) (coords : list Point) (x y w h : Z).
Hypothesis Hrect : rectangular cols m.
Hypothesis Hfind : findNonZero m = Some coords.
Hypothesis Hbox : boundingRect coords = (x, y, w, h).
Hypothesis Huint8 : uint8_mask m.

Let W := Z.to_nat w.
Let H := Z.to_nat h.
Let S := Z.to_nat (Z.max w h + 20).
Let OX := Z.to_nat ((Z.max w h + 20 - w) / 2).
Let OY := Z.to_nat ((Z.max w h + 20 - h) / 2).
Let out := framed m x y w h.

(** The content box of the canvas is the window the crop was put in. *)
Lemma framed_content_box : content_box out (Z.of_nat OX) (Z.of_nat OY) w h.
Proof.
  pose proof (box_in_image cols m coords x y w h Hrect Hfind Hbox)
    as (Hx & Hy & Hw & Hh & Hxw & Hyh).
  pose proof (offsets_fit cols m coords x y w h Hrect Hfind Hbox)
    as (Hox & Hoy & _ & _).
  fold OX OY W H S in Hox, Hoy.
  assert (Htouch : forall r c v,
            pixel m r c = Some v -> v <> 0 ->
            exists r' c',
              pixel out r' c' = Some v
              /\ Z.of_nat c' = Z.of_nat OX + (Z.of_nat c - x)
              /\ Z.of_nat r' = Z.of_nat OY + (Z.of_nat r - y)).
  { intros r c v Hp Hv.
    destruct (ink_in_box m coords x y w h Hfind Hbox r c v Hp Hv) as [Hc Hr].
    exists (OY + (r - Z.to_nat y))%nat, (OX + (c - Z.to_nat x))%nat.
    split; [|lia].
    unfold out, OX, OY.
    rewrite (framed_inside cols m coords x y w h Hrect Hfind Hbox Huint8) by lia.
    replace (Z.to_nat y + (r - Z.to_nat y))%nat with r by lia.
    replace (Z.to_nat x + (c - Z.to_nat x))%nat with c by lia.
    exact Hp. }
  destruct (content_box_of m coords x y w h Hfind Hbox)
    as (_ & (r1 & c1 & v1 & P1 & V1 & E1) & (r2 & c2 & v2 & P2 & V2 & E2)
        & (r3 & c3 & v3 & P3 & V3 & E3) & (r4 & c4 & v4 & P4 & V4 & E4)).
  split; [|repeat split].
  - intros r c v Hp Hv.
    destruct (pixel_bounds S out r c v) as [Hr Hc]; [| exact Hp |].
    { apply (framed_rows cols m coords x y w h Hrect Hfind Hbox). }
    unfold out in Hr.
    rewrite (framed_length cols m coords x y w h Hrect Hfind Hbox) in Hr.
    fold S in Hr.
    destruct (decide ((OY <= r < OY + H)%nat /\ (OX <= c < OX + W)%nat))
      as [Hin | Hnot]; [unfold W, H in Hin; lia|].
    exfalso. apply Hv.
    pose proof (framed_outside cols m coords x y w h Hrect Hfind Hbox r c Hr Hc Hnot)
      as H0.
    fold out in H0. congruence.
  - destruct (Htouch _ _ _ P1 V1) as (r' & c' & Hp & Hc & _).
    exists r', c', v1. repeat split; [exact Hp | exact V1 | lia].
  - destruct (Htouch _ _ _ P2 V2) as (r' & c' & Hp & Hc & _).
    exists r', c', v2. repeat split; [exact Hp | exact V2 | lia].
  - destruct (Htouch _ _ _ P3 V3) as (r' & c' & Hp & _ & Hr).
    exists r', c', v3. repeat split; [exact Hp | exact V3 | lia].
  - destruct (Htouch _ _ _ P4 V4) as (r' & c' & Hp & _ & Hr).
    exists r', c', v4. repeat split; [exact Hp | exact V4 | lia].
Qed.

(** Cropping the canvas to that window gives the crop back. *)
Lemma crop_framed :
  crop out (Z.of_nat OX) (Z.of_nat OY) w h = crop m x y w h.
Proof.
  pose proof (crop_length cols m coords x y w h Hrect Hfind Hbox) as Hlen.
  unfold crop at 1. rewrite !Nat2Z.id. fold W H.
  unfold out, framed. fold W H S OX OY.
  rewrite drop_app_length' by (rewrite length_replicate; reflexivity).
  rewrite take_app_length' by (rewrite length_map, Hlen; reflexivity).
  rewrite map_map. rewrite <- (map_id (crop m x y w h)) at 2.
  apply map_ext_in. intros src Hsrc.
  unfold framed_row. fold W S OX.
  rewrite drop_app_length' by (rewrite length_replicate; reflexivity).
  rewrite take_app_length'
    by (rewrite length_map,
          (crop_row_length cols m coords x y w h Hrect Hfind Hbox src Hsrc);
        reflexivity).
  apply (crop_uint8 m x y w h Huint8). exact Hsrc.
Qed.

Lemma extract_framed_twice : extract_single_glyph out = out.
Proof.
  pose proof framed_content_box as Hcb.
  pose proof (framed_rows cols m coords x y w h Hrect Hfind Hbox) as Hrows.
  fold out S in Hrows.
  destruct (findNonZero out) as [coords'|] eqn:Hfind'.
  2:{ exfalso. destruct Hcb as (_ & (r & c & v & Hp & Hv & _) & _).
      apply Hv. exact (proj1 (findNonZero_None out) Hfind' r c v Hp). }
  destruct (boundingRect coords') as [[[x' y'] w'] h'] eqn:Hbox'.
  pose proof (content_box_of out coords' x' y' w' h' Hfind' Hbox') as Hcb'.
  pose proof (content_box_unique _ _ _ _ _ _ _ _ _ Hcb' Hcb) as E.
  injection E as -> -> -> ->.
  rewrite (extract_framed S out coords' _ _ w h Hrows Hfind' Hbox').
  unfold framed at 1. rewrite crop_framed. reflexivity.
Qed.

End Twice.

(** [extract_single_glyph] is idempotent: a glyph that was extracted and
    centred is left as it is by a second extraction. *)
Theorem extract_single_glyph_idempotent (cols : nat) (binary : Mask) :
  rectangular cols binary -> uint8_mask binary ->
  extract_single_glyph (extract_single_glyph binary)
  = extract_single_glyph binary.
Proof.
  intros Hrect Huint8.
  destruct (findNonZero binary) as [coords|] eqn:Hfind.
  - destruct (boundingRect coords) as [[[x y] w] h] eqn:Hbox.
    rewrite (extract_framed cols binary coords x y w h Hrect Hfind Hbox).
    apply (extract_framed_twice cols binary coords x y w h); assumption.
  - assert (E : extract_single_glyph binary = binary)
      by (unfold extract_single_glyph; rewrite Hfind; reflexivity).
    rewrite E. exact E.
Qed.

Lemma extract_single_glyph_idempotent_witness :
  extract_single_glyph (extract_single_glyph block_mask)
  = extract_single_glyph block_mask.
Proof.
  apply (extract_single_glyph_idempotent 5 block_mask).
  - exact block_mask_rectangular.
  - exact block_mask_uint8.
Defined.

End ExtractMoreFacts.

(** * preprocess.py: removal of small components *)

Module PreprocessFacts.

Import Preprocess.

(** ** Pixels of derived images *)

Lemma pixel_is_Some {A : Type} (m : list (list A)) (r c : nat) :
  is_Some (pixel m r c) <-> (c < default 0%nat (map length m !! r))%nat.
Proof.
  unfold pixel. rewrite list_lookup_fmap.
  destruct (m !! r) as [row|]; simpl.
  - apply lookup_lt_is_Some.
  - split; [intros [? ?]; discriminate | lia].
Qed.

Lemma same_shape_is_Some {A B : Type} (a : list (list A)) (b : list (list B))
    (r c : nat) :
  map length a = map length b -> is_Some (pixel a r c) <-> is_Some (pixel b r c).
Proof. intros H. rewrite !pixel_is_Some, H. reflexivity. Qed.

Lemma pixel_zeros_like (m : Mask) (r c : nat) :
  pixel (zeros_like m) r c = (fun _ => 0) <$> pixel m r c.
Proof.
  unfold pixel, zeros_like. rewrite list_lookup_fmap.
  destruct (m !! r) as [row|]; simpl; [|reflexivity].
  apply list_lookup_fmap.
Qed.

Lemma pixel_assign_where (result : Mask) (labels : Labels) (i : nat) (v : Z)
    (r c : nat) :
  pixel (assign_where result labels i v) r c
  = match pixel result r c, pixel labels r c with
    | Some old, Some l => Some (if (l =? i)%nat then v else old)
    | _, _ => None
    end.
Proof.
  unfold pixel, assign_where. rewrite lookup_zip_with.
  destruct (result !! r) as [rrow|]; simpl; [|reflexivity].
  destruct (labels !! r) as [lrow|]; simpl.
  - rewrite lookup_zip_with.
    destruct (rrow !! c); simpl; [|reflexivity].
    destruct (lrow !! c); reflexivity.
  - destruct (rrow !! c); reflexivity.
Qed.

Section Paint.

Variables (labels : Labels) (stats : list Stat) (min_area : Z).

Definition area_of (i : nat) : Z := CC_STAT_AREA (nth i stats (mkStat 0 0 0 0 0)).

Definition paint (result : Mask) (i : nat) : Mask :=
  if min_area <=? area_of i then assign_where result labels i 255 else result.

Definition painted (l : nat) (idx : list nat) : bool :=
  existsb (fun i => (l =? i)%nat && (min_area <=? area_of i)) idx.

Lemma pixel_paint (result : Mask) (i r c : nat) :
  (is_Some (pixel result r c) -> is_Some (pixel labels r c)) ->
  pixel (paint result i) r c
  = (fun old => if (label_at labels (r, c) =? i)%nat && (min_area <=? area_of i)
                then 255 else old) <$> pixel result r c.
Proof.
  intros Hshape. unfold paint, label_at. simpl.
  destruct (min_area <=? area_of i).
  - rewrite pixel_assign_where.
    destruct (pixel result r c) as [old|]; [|reflexivity].
    destruct Hshape as [l Hl]; [eauto|]. rewrite Hl. simpl.
    rewrite andb_true_r. reflexivity.
  - destruct (pixel result r c); simpl; [|reflexivity].
    rewrite andb_false_r. reflexivity.
Qed.

Lemma pixel_fold_paint (idx : list nat) (r c : nat) :
  forall result,
    (is_Some (pixel result r c) -> is_Some (pixel labels r c)) ->
    pixel (fold_left paint idx result) r c
    = (fun old => if painted (label_at labels (r, c)) idx then 255 else old)
        <$> pixel result r c.
Proof.
  induction idx as [|i idx IH]; intros result Hshape; simpl.
  - destruct (pixel result r c); reflexivity.
  - rewrite IH.
    2:{ rewrite pixel_paint by exact Hshape.
        intros [v Hv]. apply Hshape.
        destruct (pixel result r c); [eauto | discriminate]. }
    rewrite pixel_paint by exact Hshape.
    destruct (pixel result r c) as [old|]; simpl; [|reflexivity].
    destruct ((label_at labels (r, c) =? i)%nat && (min_area <=? area_of i));
      simpl; [|reflexivity].
    destruct (painted (label_at labels (r, c)) idx); reflexivity.
Qed.

Lemma painted_range (l n : nat) :
  painted l (seq 1 (n - 1)) = true
  <-> (1 <= l < n)%nat /\ min_area <= area_of l.
Proof.
  unfold painted. rewrite existsb_exists. split.
  - intros (i & Hi & Hc). apply in_seq in Hi.
    apply andb_true_iff in Hc as [El Ea].
    apply Nat.eqb_eq in El. subst i. apply Z.leb_le in Ea. split; [lia | exact Ea].
  - intros [Hl Ha]. exists l. split; [apply in_seq; lia|].
    apply andb_true_iff. split; [apply Nat.eqb_refl | apply Z.leb_le; exact Ha].
Qed.

End Paint.

(** ** The result of [remove_small_components] *)

Section Removal.

Variable connectedComponentsWithStats : Mask -> Z -> nat * Labels * list Stat.
Variables (binary : Mask) (min_area : Z).
Hypothesis Hspec : cc_spec binary (connectedComponentsWithStats binary 8).

Let n := (connectedComponentsWithStats binary 8).1.1.
Let labels := (connectedComponentsWithStats binary 8).1.2.
Let stats := (connectedComponentsWithStats binary 8).2.
Let out := remove_small_components connectedComponentsWithStats binary min_area.

Lemma out_pixel (r c : nat) :
  pixel out r c
  = (fun _ => if painted stats min_area (label_at labels (r, c))
                   (seq 1 (n - 1))
              then 255 else 0) <$> pixel binary r c.
Proof.
  unfold out, remove_small_components, n, labels, stats.
  destruct (connectedComponentsWithStats binary 8) as [[n0 labels0] stats0] eqn:E.
  simpl.
  change (fold_left _ (seq 1 (n0 - 1)) (zeros_like binary))
    with (fold_left (paint labels0 stats0 min_area) (seq 1 (n0 - 1))
                    (zeros_like binary)).
  rewrite pixel_fold_paint.
  - rewrite pixel_zeros_like. destruct (pixel binary r c); reflexivity.
  - rewrite pixel_zeros_like. intros Hs.
    apply (same_shape_is_Some labels0 binary r c (cc_shape _ _ Hspec)).
    destruct (pixel binary r c); [eauto | destruct Hs; discriminate].
Qed.

Lemma fg_label (p : Pixel) : fg binary p <-> label_at labels p <> 0%nat.
Proof.
  pose proof (cc_background _ _ Hspec p) as H. fold labels in H.
  unfold fg in *. split.
  - intros Hfg Hl. apply H in Hl. contradiction.
  - intros Hl. destruct (Z.eq_dec (px binary p) 0) as [E|E]; [|exact E].
    exfalso. apply Hl, H. intros Hn. contradiction.
Qed.

Lemma fg_label_range (p : Pixel) : fg binary p -> (1 <= label_at labels p < n)%nat.
Proof.
  intros Hfg. apply fg_label in Hfg.
  pose proof (cc_range _ _ Hspec p) as H. fold labels n in H. lia.
Qed.

(** A foreground pixel whose label is large enough is kept. *)
Lemma out_kept (p : Pixel) :
  fg binary p -> min_area <= area_of stats (label_at labels p) -> px out p = 255.
Proof.
  intros Hfg Ha. destruct p as [r c]. unfold px. simpl. rewrite out_pixel.
  assert (painted stats min_area (label_at labels (r, c)) (seq 1 (n - 1))
          = true) as ->.
  { apply painted_range. split; [apply fg_label_range; exact Hfg | exact Ha]. }
  unfold fg, px in Hfg. simpl in Hfg.
  destruct (pixel binary r c); [reflexivity | contradiction].
Qed.

(** Every other pixel is black. *)
Lemma out_removed (p : Pixel) :
  ~ fg binary p \/ area_of stats (label_at labels p) < min_area -> px out p = 0.
Proof.
  intros Hno. destruct p as [r c]. unfold px. simpl. rewrite out_pixel.
  destruct (pixel binary r c) as [v|] eqn:Ev; simpl; [|reflexivity].
  destruct (painted stats min_area (label_at labels (r, c)) (seq 1 (n - 1)))
    eqn:Ep; [|reflexivity].
  apply painted_range in Ep as [Hl Ha].
  destruct Hno as [Hno | Hno]; [|lia].
  exfalso. apply Hno. apply fg_label. lia.
Qed.

Lemma out_fg (p : Pixel) :
  fg out p <-> fg binary p /\ min_area <= area_of stats (label_at labels p).
Proof.
  split.
  - intros Hfg.
    destruct (Z.eq_dec (px binary p) 0) as [E|E].
    { exfalso. apply Hfg. apply out_removed. left. intros H. exact (H E). }
    split; [exact E|].
    destruct (Z.le_gt_cases min_area (area_of stats (label_at labels p)))
      as [H|H]; [exact H|].
    exfalso. apply Hfg. apply out_removed. right. lia.
  - intros [Hfg Ha]. unfold fg. rewrite (out_kept p Hfg Ha). discriminate.
Qed.

(** ** Components *)

Lemma connected8_label (p q : Pixel) :
  connected8 binary p q -> label_at labels p = label_at labels q.
Proof.
  induction 1 as [|a b d Hstep _ IH]; [reflexivity|].
  rewrite <- IH. apply (cc_closed _ _ Hspec). exact Hstep.
Qed.

(** A kept component stays connected. *)
Lemma connected8_out (p q : Pixel) :
  connected8 binary p q ->
  min_area <= area_of stats (label_at labels p) ->
  connected8 out p q.
Proof.
  induction 1 as [|a b d Hstep _ IH]; intros Ha; [apply rtc_refl|].
  pose proof (cc_closed _ _ Hspec a b Hstep) as El. fold labels in El.
  destruct Hstep as (Hfa & Hfb & Hadj).
  apply rtc_l with b.
  - split; [|split; [|exact Hadj]]; apply out_fg; split;
      try assumption; rewrite <- ?El; exact Ha.
  - apply IH. rewrite <- El. exact Ha.
Qed.

Lemma elem_of_all_pixels {A : Type} (m : list (list A)) (p : Pixel) :
  p ∈ all_pixels m <-> is_Some (pixel m p.1 p.2).
Proof.
  unfold all_pixels. rewrite list_elem_of_bind. destruct p as [r c]. simpl.
  unfold pixel. split.
  - intros (r' & Hc & Hr). apply list_elem_of_fmap in Hc as (c' & [= -> ->] & Hc).
    apply elem_of_seq in Hr, Hc.
    destruct (m !! r') as [row|] eqn:Er.
    + simpl. rewrite (nth_lookup_Some _ _ _ _ Er) in Hc.
      apply lookup_lt_is_Some. lia.
    + apply lookup_ge_None in Er. lia.
  - intros Hs. destruct (m !! r) as [row|] eqn:Er; simpl in Hs.
    2:{ destruct Hs; discriminate. }
    exists r. split.
    + apply list_elem_of_fmap. exists c. split; [reflexivity|].
      apply elem_of_seq. rewrite (nth_lookup_Some _ _ _ _ Er).
      apply lookup_lt_is_Some in Hs. lia.
    + apply elem_of_seq. apply lookup_lt_Some in Er. lia.
Qed.

Lemma NoDup_all_pixels {A : Type} (m : list (list A)) : NoDup (all_pixels m).
Proof.
  unfold all_pixels. apply NoDup_bind.
  - intros r1 r2 p _ _ H1 H2.
    apply list_elem_of_fmap in H1 as (c1 & -> & _).
    apply list_elem_of_fmap in H2 as (c2 & [= -> _] & _). reflexivity.
  - intros r _. apply NoDup_fmap_2; [|apply NoDup_seq].
    intros c1 c2 [= ->]. reflexivity.
  - apply NoDup_seq.
Qed.

Lemma elem_of_pixels_labelled (i : nat) (p : Pixel) :
  i <> 0%nat -> p ∈ pixels_labelled labels i <-> label_at labels p = i.
Proof.
  intros Hi. unfold pixels_labelled. rewrite list_elem_of_filter, elem_of_all_pixels.
  split; [tauto|]. intros Hl. split; [exact Hl|].
  unfold label_at in Hl. destruct (pixel labels p.1 p.2); [eauto|].
  simpl in Hl. congruence.
Qed.

(** The pixels carrying the label of [p] are its component. *)
Lemma component_size (p : Pixel) (comp : list Pixel) :
  fg binary p -> NoDup comp ->
  (forall q, q ∈ comp <-> connected8 binary p q) ->
  Z.of_nat (length comp) = area_of stats (label_at labels p).
Proof.
  intros Hfg Hnd Hcomp.
  pose proof (fg_label_range p Hfg) as Hr.
  unfold area_of. rewrite (cc_area _ _ Hspec) by (fold n; lia).
  fold labels. f_equal. apply Permutation_length.
  apply NoDup_Permutation; [exact Hnd | |].
  - apply NoDup_filter, NoDup_all_pixels.
  - intros q. rewrite Hcomp, elem_of_pixels_labelled by lia. split.
    + intros Hc. symmetry. apply connected8_label. exact Hc.
    + intros Hl. apply (cc_connected _ _ Hspec); [exact Hfg|].
      fold labels. congruence.
Qed.

Lemma remove_small_components_spec :
  (forall p, fg out p ->
     exists comp, NoDup comp /\ min_area <= Z.of_nat (length comp)
                  /\ forall q, q ∈ comp -> connected8 out p q)
  /\ (forall p comp, fg binary p -> NoDup comp ->
        (forall q, q ∈ comp <-> connected8 binary p q) ->
        (Z.of_nat (length comp) < min_area -> px out p = 0)
        /\ (min_area <= Z.of_nat (length comp) -> px out p = 255)).
Proof.
  split.
  - intros p Hfg. apply out_fg in Hfg as [Hfg Ha].
    pose proof (fg_label_range p Hfg) as Hr.
    exists (pixels_labelled labels (label_at labels p)).
    split; [apply NoDup_filter, NoDup_all_pixels|].
    split.
    + unfold area_of in Ha. rewrite (cc_area _ _ Hspec) in Ha by (fold n; lia).
      exact Ha.
    + intros q Hq. apply elem_of_pixels_labelled in Hq; [|lia].
      apply connected8_out; [|exact Ha].
      apply (cc_connected _ _ Hspec); [exact Hfg|]. fold labels. congruence.
  - intros p comp Hfg Hnd Hcomp.
    rewrite (component_size p comp Hfg Hnd Hcomp). split.
    + intros Hlt. apply out_removed. right. exact Hlt.
    + intros Hge. apply out_kept; assumption.
Qed.

End Removal.

(** C8. Under the contract of the labelling routine, the mask returned by
    the photo pipeline has no 8-connected foreground component of fewer
    than 50 pixels: every foreground pixel of the result is connected, in
    the result, to at least 50 distinct pixels (itself included). A
    foreground pixel of the cleaned-up mask whose component has fewer
    than 50 pixels is 0 in the result, and one whose component has 50
    pixels or more is 255. *)
Theorem preprocess_removes_small_components
    (cvtColor : Image -> Mask)
    (GaussianBlur : Mask -> Z * Z -> Z -> Mask)
    (adaptiveThreshold : Mask -> Z -> Z -> Z -> Mask)
    (morphologyEx : Mask -> Z * Z -> Z -> Mask)
    (connectedComponentsWithStats : Mask -> Z -> nat * Labels * list Stat)
    (img : Image) :
  let cleaned :=
    morphologyEx (adaptiveThreshold (GaussianBlur (cvtColor img) (5, 5) 0) 255 21 10)
                 (3, 3) 1 in
  let out :=
    preprocess cvtColor GaussianBlur adaptiveThreshold morphologyEx
               connectedComponentsWithStats img in
  cc_spec cleaned (connectedComponentsWithStats cleaned 8) ->
  (forall p, fg out p ->
     exists comp, NoDup comp /\ (50 <= length comp)%nat
                  /\ forall q, q ∈ comp -> connected8 out p q)
  /\ (forall p comp, fg cleaned p -> NoDup comp ->
        (forall q, q ∈ comp <-> connected8 cleaned p q) ->
        ((length comp < 50)%nat -> px out p = 0)
        /\ ((50 <= length comp)%nat -> px out p = 255)).
Proof.
  intros cleaned out Hspec.
  destruct (remove_small_components_spec connectedComponentsWithStats cleaned 50 Hspec)
    as [H1 H2].
  split.
  - intros p Hfg. destruct (H1 p Hfg) as (comp & Hnd & Hlen & Hc).
    exists comp. split; [exact Hnd|]. split; [lia | exact Hc].
  - intros p comp Hfg Hnd Hcomp. destruct (H2 p comp Hfg Hnd Hcomp) as [Hlt Hge].
    split; intros; [apply Hlt | apply Hge]; lia.
Qed.

(** ** The sample run *)

Lemma sample_row_lookup {A : Type} (x a b : A) (c : nat) :
  (replicate 50 x ++ [a; b]) !! c
  = if decide (c < 50)%nat then Some x
    else if decide (c = 50)%nat then Some a
    else if decide (c = 51)%nat then Some b
    else None.
Proof.
  destruct (decide (c < 50)%nat) as [Hlt | Hge].
  - rewrite lookup_app_l by (rewrite length_replicate; exact Hlt).
    apply lookup_replicate_2. exact Hlt.
  - rewrite lookup_app_r by (rewrite length_replicate; lia).
    rewrite length_replicate.
    destruct (decide (c = 50)%nat) as [-> | H50]; [reflexivity|].
    destruct (decide (c = 51)%nat) as [-> | H51]; [reflexivity|].
    destruct (c - 50)%nat as [|[|k]] eqn:E; [lia | lia | reflexivity].
Qed.

Lemma pixel_single_row {A : Type} (row : list A) (r c : nat) :
  pixel [row] r c = match r with O => row !! c | S _ => None end.
Proof. destruct r; reflexivity. Qed.

Lemma sample_fg (p : Pixel) :
  fg sample_cleaned p <-> p.1 = 0%nat /\ ((p.2 < 50)%nat \/ p.2 = 51%nat).
Proof.
  unfold fg, px, sample_cleaned. rewrite pixel_single_row.
  destruct p as [[|r] c]; cbn [fst snd].
  - rewrite sample_row_lookup.
    repeat (destruct (decide _)); simpl; split; intros H;
      try discriminate; try lia; try (exfalso; apply H; reflexivity).
  - simpl. split; [intros H; exfalso; apply H; reflexivity | lia].
Qed.

Lemma sample_label (p : Pixel) :
  label_at (sample_labelling sample_cleaned 8).1.2 p
  = if decide (p.1 = 0 /\ p.2 < 50)%nat then 1%nat
    else if decide (p.1 = 0 /\ p.2 = 51)%nat then 2%nat
    else 0%nat.
Proof.
  unfold label_at, sample_labelling. cbn [fst snd].
  rewrite pixel_single_row.
  destruct p as [[|r] c]; cbn [fst snd].
  - rewrite sample_row_lookup.
    repeat (destruct (decide _)); simpl; try reflexivity; lia.
  - repeat (destruct (decide _)); simpl; try reflexivity; lia.
Qed.

Lemma sample_stroke_right (a b : nat) :
  (a <= b)%nat -> (b < 50)%nat -> connected8 sample_cleaned (0%nat, a) (0%nat, b).
Proof.
  induction b as [|b IH]; intros Hab Hb.
  - replace a with 0%nat by lia. apply rtc_refl.
  - destruct (decide (a = S b)) as [-> | Hne]; [apply rtc_refl|].
    apply rtc_r with (0%nat, b); [apply IH; lia|].
    split; [|split].
    + apply sample_fg. simpl. lia.
    + apply sample_fg. simpl. lia.
    + unfold adj8. simpl. split; [intros [= H]; lia | lia].
Qed.

Lemma fg_step_sym (m : Mask) (p q : Pixel) : fg_step m p q -> fg_step m q p.
Proof.
  intros (Hp & Hq & Hne & H1 & H2 & H3 & H4).
  split; [exact Hq|]. split; [exact Hp|].
  unfold adj8. repeat split; try assumption. congruence.
Qed.

Lemma connected8_sym (m : Mask) (p q : Pixel) :
  connected8 m p q -> connected8 m q p.
Proof.
  induction 1 as [|a b d Hstep _ IH]; [apply rtc_refl|].
  apply rtc_r with b; [exact IH | apply fg_step_sym; exact Hstep].
Qed.

Lemma sample_labelling_spec :
  cc_spec sample_cleaned (sample_labelling sample_cleaned 8).
Proof.
  split.
  - reflexivity.
  - intros p. rewrite sample_fg, sample_label.
    repeat (destruct (decide _)); split; intros H; try discriminate; lia.
  - intros p. rewrite sample_label. simpl.
    repeat (destruct (decide _)); lia.
  - intros p q (Hp & Hq & Hne & H1 & H2 & H3 & H4).
    apply sample_fg in Hp, Hq. rewrite !sample_label.
    repeat (destruct (decide _)); try reflexivity; lia.
  - intros p q Hp. apply sample_fg in Hp. rewrite !sample_label.
    destruct p as [r c], q as [r' c']. simpl in *.
    repeat (destruct (decide _)); intros E; try discriminate; try lia.
    + destruct Hp as [-> _].
      replace r' with 0%nat by lia.
      destruct (Nat.le_ge_cases c c') as [Hle | Hle].
      * apply sample_stroke_right; lia.
      * apply connected8_sym, sample_stroke_right; lia.
    + replace r with 0%nat by lia. replace r' with 0%nat by lia.
      replace c with 51%nat by lia. replace c' with 51%nat by lia.
      apply rtc_refl.
  - reflexivity.
  - intros i Hi. simpl in Hi.
    destruct i as [|[|[|i]]]; [vm_compute; reflexivity.. | lia].
Qed.

Lemma preprocess_removes_small_components_witness :
  let out :=
    preprocess sample_cvtColor sample_blur sample_threshold sample_close
               sample_labelling sample_photo in
  (forall p, fg out p ->
     exists comp, NoDup comp /\ (50 <= length comp)%nat
                  /\ forall q, q ∈ comp -> connected8 out p q)
  /\ (forall p comp, fg sample_cleaned p -> NoDup comp ->
        (forall q, q ∈ comp <-> connected8 sample_cleaned p q) ->
        ((length comp < 50)%nat -> px out p = 0)
        /\ ((50 <= length comp)%nat -> px out p = 255)).
Proof.
  exact (preprocess_removes_small_components sample_cvtColor sample_blur
           sample_threshold sample_close sample_labelling sample_photo
           sample_labelling_spec).
Defined.

(** On the sample the stroke of 50 pixels stays and the speck goes. *)
Example preprocess_sample :
  preprocess sample_cvtColor sample_blur sample_threshold sample_close
             sample_labelling sample_photo
  = [replicate 50 255 ++ [0; 0]].
Proof. vm_compute. reflexivity. Qed.

End PreprocessFacts.

(** * fontgen.py and main.py: the character map and the empty mapping *)

Module FontgenFacts.

Import Vectorize Fontgen Main.

(** ** The character map *)

Lemma create_font_cmap (glyphs : dict char GlyphData) (family style : string) :
  characterMap (font_of (create_font glyphs family style).1) = build_cmap glyphs
  /\ characterMap (font_of (create_font glyphs family style).2) = build_cmap glyphs.
Proof. split; reflexivity. Qed.

Lemma islower_range (c : char) : islower c = true <-> (97 <= c <= 122)%N.
Proof.
  unfold islower. rewrite andb_true_iff, !N.leb_le. reflexivity.
Qed.

Lemma upper_char_lower (c : char) : islower c = true -> upper_char c = (c - 32)%N.
Proof. intros H. unfold upper_char. rewrite H. reflexivity. Qed.

(** C6 as stated fails when a capital is supplied next to its lowercase
    letter, and when the space character itself is supplied. *)
Lemma capital_and_space_keys_override :
  (let cmap := characterMap (font_of (create_font
                  [(97%N, blank_glyph); (65%N, blank_glyph)]
                  "MyHandwriting" "Regular").1) in
   cmap !! upper_char 97%N = Some "uni0041"%string
   /\ cmap !! 97%N = Some "uni0061"%string
   /\ cmap !! upper_char 97%N <> cmap !! 97%N)
  /\ characterMap (font_of (create_font [(32%N, blank_glyph)]
                              "MyHandwriting" "Regular").1) !! 32%N
     = Some "uni0020"%string.
Proof.
  split; [|vm_compute; reflexivity].
  cbv zeta.
  assert (H1 : characterMap (font_of (create_font
                  [(97%N, blank_glyph); (65%N, blank_glyph)]
                  "MyHandwriting" "Regular").1) !! upper_char 97%N
               = Some "uni0041"%string) by (vm_compute; reflexivity).
  assert (H2 : characterMap (font_of (create_font
                  [(97%N, blank_glyph); (65%N, blank_glyph)]
                  "MyHandwriting" "Regular").1) !! 97%N
               = Some "uni0061"%string) by (vm_compute; reflexivity).
  rewrite H1, H2. repeat split. discriminate.
Qed.

(** ** The empty mapping *)

Section WithOpenCV.

Variable findContours : Mask -> list Contour * option (list HierarchyRow).
Variable approxPolyDP : Contour -> Q -> bool -> Contour.

Lemma vectorize_chars_no_paths (char_bitmaps : dict char Mask) :
  forall glyphs,
    Forall (fun cb => exists g, process_glyph_bitmap findContours approxPolyDP cb.2
                                = Ok g /\ paths g = [])
           char_bitmaps ->
    vectorize_chars findContours approxPolyDP char_bitmaps glyphs = Ok glyphs.
Proof.
  induction char_bitmaps as [|[c bitmap] rest IH]; intros glyphs Hall; simpl.
  - reflexivity.
  - inversion Hall as [|? ? (g & Hg & Hp) Hrest]; subst. simpl in Hg.
    rewrite Hg. simpl. rewrite Hp. apply IH. exact Hrest.
Qed.

(** C1, as the code has it. [create_font_from_chars] fails with "No
    valid glyphs could be extracted from the provided images" when no
    supplied bitmap yields a path, the empty mapping included, and the
    font-generation handler rejects an empty glyph mapping before it
    reaches [create_font]. *)
Theorem no_valid_glyphs (char_bitmaps : dict char Mask) :
  Forall (fun cb => exists g, process_glyph_bitmap findContours approxPolyDP cb.2
                              = Ok g /\ paths g = [])
         char_bitmaps ->
  create_font_from_chars findContours approxPolyDP char_bitmaps
  = Raise (ValueError
             "No valid glyphs could be extracted from the provided images")
  /\ create_font_from_chars findContours approxPolyDP []
     = Raise (ValueError
                "No valid glyphs could be extracted from the provided images")
  /\ generate_font_endpoint []
     = Raise (HTTPException 400 "No glyph data provided").
Proof.
  intros Hall. unfold create_font_from_chars.
  rewrite (vectorize_chars_no_paths char_bitmaps [] Hall).
  repeat split.
Qed.

End WithOpenCV.

Lemma no_valid_glyphs_witness :
  create_font_from_chars trace_rectangle keep_polygon [(97%N, blank_mask)]
  = Raise (ValueError "No valid glyphs could be extracted from the provided images").
Proof.
  refine (proj1 (no_valid_glyphs trace_rectangle keep_polygon
                   [(97%N, blank_mask)] _)).
  constructor; [|constructor].
  exists (mkGlyph [] 500 0). split; reflexivity.
Defined.

(** C1 as stated fails for [create_font] itself: given the empty mapping
    it returns both font files, holding the placeholder and the space
    glyph only. *)
Lemma create_font_accepts_empty_mapping :
  exists ttf woff2,
    create_font [] "MyHandwriting" "Regular" = (Saved ttf, Saved woff2)
    /\ glyphOrder ttf = [".notdef"; "space"]%string
    /\ glyphOrder woff2 = [".notdef"; "space"]%string
    /\ flavor ttf = None
    /\ flavor woff2 = Some "woff2"%string.
Proof. do 2 eexists. repeat split. Qed.

End FontgenFacts.

(** * pangrams.py and the characters returned by the segmenter *)

Module PangramFacts.

Import Pangrams Segment.

(** The letters of a phrase, lowercased, in order. *)
Definition letters (pangram : str) : list char :=
  filter (fun c => isalpha c = true) (lower pangram).

(** The first occurrences in [l] of the characters not in [seen]. *)
Fixpoint first_seen (seen : gset N) (l : list N) : list N :=
  match l with
  | [] => []
  | c :: l' =>
      if bool_decide (c ∈ seen) then first_seen seen l'
      else c :: first_seen ({[c]} ∪ seen) l'
  end.

Ltac case_leb :=
  repeat match goal with
         | |- context [(?a <=? ?b)%N] => destruct (N.leb_spec a b)
         end;
  simpl; try reflexivity; try lia.

Lemma isalpha_lower_char (c : char) : isalpha (lower_char c) = isalpha c.
Proof.
  unfold isalpha, lower_char, isupper, islower.
  destruct (N.leb_spec 65 c), (N.leb_spec c 90); simpl; case_leb.
Qed.


Lemma fold_unique_step (pangram : str) :
  forall seen chars,
    (fold_left unique_step pangram (seen, chars)).2
    = chars ++ first_seen seen (letters pangram).
Proof.
  unfold letters, lower.
  induction pangram as [|c pangram IH]; intros seen chars.
  - simpl. rewrite app_nil_r. reflexivity.
  - change (fold_left unique_step (c :: pangram) (seen, chars))
      with (fold_left unique_step pangram (unique_step (seen, chars) c)).
    change (map lower_char (c :: pangram))
      with (lower_char c :: map lower_char pangram).
    unfold unique_step.
    destruct (isalpha (lower_char c)) eqn:Ea.
    + rewrite filter_cons_True by exact Ea. cbn [first_seen andb].
      destruct (bool_decide (lower_char c ∈ seen)); cbn [negb].
      * apply IH.
      * rewrite IH, <- app_assoc. reflexivity.
    + rewrite filter_cons_False by (rewrite Ea; discriminate).
      cbn [andb]. apply IH.
Qed.

Lemma get_unique_chars_first_seen (pangram : str) :
  get_unique_chars pangram = first_seen ∅ (letters pangram).
Proof. unfold get_unique_chars. apply fold_unique_step. Qed.

Lemma elem_of_first_seen (l : list N) :
  forall seen c, c ∈ first_seen seen l <-> c ∈ l /\ c ∉ seen.
Proof.
  induction l as [|a l IH]; intros seen c; simpl.
  - split; [intros H; inversion H | intros [H _]; inversion H].
  - destruct (bool_decide_reflect (a ∈ seen)) as [Ha | Ha].
    + rewrite IH, elem_of_cons. split; [tauto|].
      intros [[-> | H] Hc]; [contradiction | tauto].
    + rewrite !elem_of_cons, IH. rewrite elem_of_union, elem_of_singleton.
      split.
      * intros [-> | [H1 H2]]; [tauto|]. split; [tauto|]. tauto.
      * intros [[-> | H] Hc]; [tauto|].
        destruct (decide (c = a)); [tauto|]. right. tauto.
Qed.

Lemma NoDup_first_seen (l : list N) : forall seen, NoDup (first_seen seen l).
Proof.
  induction l as [|a l IH]; intros seen; simpl; [constructor|].
  destruct (bool_decide (a ∈ seen)); [apply IH|].
  constructor; [|apply IH].
  rewrite elem_of_first_seen. intros [_ H]. apply H.
  apply elem_of_union_l, elem_of_singleton. reflexivity.
Qed.

Lemma first_seen_app (l1 l2 : list N) :
  forall seen,
    first_seen seen (l1 ++ l2)
    = first_seen seen l1 ++ first_seen (list_to_set l1 ∪ seen) l2.
Proof.
  induction l1 as [|a l1 IH]; intros seen; simpl.
  - f_equal. symmetry. apply (left_id_L ∅ (∪)).
  - assert (Hset : list_to_set l1 ∪ ({[a]} ∪ seen)
                   = ({[a]} ∪ list_to_set l1) ∪ seen :> gset N).
    { rewrite (assoc_L (∪)), (comm_L (∪) (list_to_set l1) {[a]}). reflexivity. }
    destruct (bool_decide_reflect (a ∈ seen)) as [Ha | Ha].
    + rewrite IH. f_equal. f_equal.
      rewrite <- Hset. f_equal. symmetry. apply subseteq_union_1_L.
      apply singleton_subseteq_l. exact Ha.
    + simpl. rewrite IH, Hset. reflexivity.
Qed.


Lemma elem_of_letters (pangram : str) (c : char) :
  c ∈ letters pangram
  <-> isalpha c = true /\ exists ch, ch ∈ pangram /\ lower_char ch = c.
Proof.
  unfold letters, lower. rewrite list_elem_of_filter.
  change (map lower_char pangram) with (lower_char <$> pangram).
  rewrite list_elem_of_fmap. split.
  - intros [Ha (ch & -> & Hch)]. eauto.
  - intros [Ha (ch & Hch & <-)]. eauto.
Qed.

Lemma islower_letter (c : char) :
  isalpha c = true -> islower (lower_char c) = true.
Proof.
  unfold isalpha, lower_char, isupper, islower.
  destruct (N.leb_spec 65 c), (N.leb_spec c 90); simpl; case_leb;
    intros H; try exact H; discriminate.
Qed.

Lemma get_unique_chars_NoDup (pangram : str) : NoDup (get_unique_chars pangram).
Proof. rewrite get_unique_chars_first_seen. apply NoDup_first_seen. Qed.

Lemma elem_of_get_unique_chars (pangram : str) (c : char) :
  c ∈ get_unique_chars pangram
  <-> isalpha c = true /\ exists ch, ch ∈ pangram /\ lower_char ch = c.
Proof.
  rewrite get_unique_chars_first_seen, elem_of_first_seen, elem_of_letters.
  split; [tauto|]. intros H. split; [exact H | apply not_elem_of_empty].
Qed.

(** On an ASCII phrase [get_unique_chars] returns each letter of the
    phrase once, folded to lower case, and nothing else: no character
    twice, and a character is returned exactly when it is a lowercase
    letter a-z and it or its capital occurs in the phrase. *)
Theorem get_unique_chars_spec (pangram : str) :
  isascii pangram = true ->
  NoDup (get_unique_chars pangram)
  /\ forall c, c ∈ get_unique_chars pangram
               <-> (97 <= c <= 122)%N /\ (c ∈ pangram \/ (c - 32)%N ∈ pangram).
Proof.
  intros _.
  split; [apply get_unique_chars_NoDup|].
  intros c. rewrite elem_of_get_unique_chars. split.
  - intros [Ha (ch & Hch & <-)].
    rewrite isalpha_lower_char in Ha.
    pose proof (islower_letter ch Ha) as Hl.
    split; [apply FontgenFacts.islower_range; exact Hl|].
    unfold lower_char in *. destruct (isupper ch) eqn:Eu.
    + right. replace (ch + 32 - 32)%N with ch by lia. exact Hch.
    + left. exact Hch.
  - intros [Hr [Hin | Hin]].
    + split; [unfold isalpha, isupper, islower; case_leb|].
      exists c. split; [exact Hin|].
      unfold lower_char, isupper. case_leb.
    + split; [unfold isalpha, isupper, islower; case_leb|].
      exists (c - 32)%N. split; [exact Hin|].
      unfold lower_char, isupper. case_leb.
Qed.

Lemma get_unique_chars_spec_witness :
  NoDup (get_unique_chars (str_of "Aa b"))
  /\ forall c, c ∈ get_unique_chars (str_of "Aa b")
               <-> (97 <= c <= 122)%N
                   /\ (c ∈ str_of "Aa b" \/ (c - 32)%N ∈ str_of "Aa b").
Proof. apply get_unique_chars_spec. reflexivity. Defined.



(** ** The characters of a segmentation *)

Lemma assign_chars_chars (binary : Mask) (chars : str) (boxes : list Box) :
  forall i results seen,
    map fst (assign_chars binary chars i boxes results seen)
    = map fst results ++ first_seen seen (take (length boxes) (drop i chars)).
Proof.
  induction boxes as [|b rest IH]; intros i results seen; simpl.
  - rewrite app_nil_r. reflexivity.
  - destruct (chars !! i) as [c|] eqn:Ec.
    + rewrite (drop_S _ _ _ Ec). simpl.
      destruct (bool_decide (c ∈ seen)).
      * apply IH.
      * rewrite IH, map_app, <- app_assoc. reflexivity.
    + apply lookup_ge_None in Ec. rewrite drop_ge by exact Ec.
      simpl. rewrite app_nil_r. reflexivity.
Qed.

Lemma segment_characters_keys (findContours : Mask -> list Contour)
    (binary : Mask) (pangram : str) (results : list (char * Mask)) :
  segment_characters findContours binary pangram = Ok results ->
  NoDup (map fst results)
  /\ map fst results `prefix_of` get_unique_chars pangram.
Proof.
  unfold segment_characters.
  destruct (findContours binary) as [|c cs]; [discriminate|].
  match goal with |- context [omap ?f ?l] => destruct (omap f l) as [|b bs] end;
    [discriminate|].
  intros [= <-]. rewrite assign_chars_chars. simpl.
  rewrite drop_0. fold (letters pangram).
  split; [apply NoDup_first_seen|].
  rewrite get_unique_chars_first_seen.
  rewrite <- (take_drop (length (sort_reading_order
                 (merge_close_bboxes (b :: bs) binary) (shape0 binary)))
               (letters pangram)) at 2.
  rewrite first_seen_app. eexists. reflexivity.
Qed.

(** Whatever the image, for an ASCII phrase the characters returned by
    [segment_characters] are distinct and form an initial part of
    [get_unique_chars(pangram)]. *)
Theorem segment_characters_chars (findContours : Mask -> list Contour)
    (binary : Mask) (pangram : str) (results : list (char * Mask)) :
  isascii pangram = true ->
  segment_characters findContours binary pangram = Ok results ->
  NoDup (map fst results)
  /\ map fst results `prefix_of` get_unique_chars pangram.
Proof. intros _. apply segment_characters_keys. Qed.

Lemma segment_characters_chars_witness :
  map fst [(97%N, filled_block 10 10 2 2 6 6)]
  `prefix_of` get_unique_chars (str_of "a").
Proof.
  refine (proj2 (segment_characters_chars trace_outer (filled_block 10 10 2 2 6 6)
                   (str_of "a") [(97%N, filled_block 10 10 2 2 6 6)] _ _)).
  - reflexivity.
  - vm_compute. reflexivity.
Defined.

(** ** The phrases on offer *)

Lemma islower_alphabet (c : char) :
  islower c = true -> In c (map N.of_nat (seq 97 26)).
Proof.
  unfold islower. rewrite andb_true_iff, !N.leb_le. intros [Hlo Hhi].
  apply in_map_iff. exists (N.to_nat c). split; [apply N2Nat.id|].
  apply in_seq. lia.
Qed.

(** Each phrase of [PANGRAMS] is a pangram: [get_unique_chars] finds 26
    letters in it, every lowercase letter among them. *)
Theorem pangrams_cover_alphabet (pangram : str) (c : char) :
  In pangram PANGRAMS -> islower c = true ->
  c ∈ get_unique_chars pangram /\ length (get_unique_chars pangram) = 26%nat.
Proof.
  intros Hp Hc.
  assert (Hall : forallb (fun p =>
            (length (get_unique_chars p) =? 26)%nat
            && forallb (fun a => existsb (N.eqb a) (get_unique_chars p))
                       (map N.of_nat (seq 97 26))) PANGRAMS = true)
    by (vm_compute; reflexivity).
  rewrite forallb_forall in Hall. specialize (Hall pangram Hp).
  apply andb_true_iff in Hall as [Hlen Hletters].
  apply Nat.eqb_eq in Hlen. split; [|exact Hlen].
  rewrite forallb_forall in Hletters.
  specialize (Hletters c (islower_alphabet c Hc)).
  apply existsb_exists in Hletters as (a & Ha & E).
  apply N.eqb_eq in E. subst a. apply list_elem_of_In. exact Ha.
Qed.

Lemma pangrams_cover_alphabet_witness :
  122%N ∈ get_unique_chars (str_of "The quick brown fox jumps over the lazy dog")
  /\ length (get_unique_chars (str_of "The quick brown fox jumps over the lazy dog"))
     = 26%nat.
Proof.
  apply pangrams_cover_alphabet; [left; reflexivity | reflexivity].
Defined.

End PangramFacts.

(** * segment.py: the reading order *)

Module ReadingOrderFacts.

Import Segment.

(** [l] is in ascending order of [key]. *)
Fixpoint ascending {A : Type} (key : A -> Z) (l : list A) : Prop :=
  match l with
  | [] => True
  | a :: l' => Forall (fun b => key a <= key b) l' /\ ascending key l'
  end.

(** [a] stands somewhere before [b] in [l]. *)
Definition precedes {A : Type} (a b : A) (l : list A) : Prop :=
  exists l1 l2 l3, l = l1 ++ a :: l2 ++ b :: l3.

(** The threshold of [sort_reading_order]: half the median height. *)
Definition line_threshold (bboxes : list Box) : Q :=
  (inject_Z (median (map box_h bboxes)) * (1 # 2))%Q.

(** ** Sorting *)

Lemma insert_by_perm {A : Type} (key : A -> Z) (a : A) (l : list A) :
  insert_by key a l ≡ₚ a :: l.
Proof.
  induction l as [|b l IH]; simpl; [reflexivity|].
  destruct (key a <=? key b); [reflexivity|].
  rewrite IH. apply Permutation_swap.
Qed.

Lemma sorted_by_perm {A : Type} (key : A -> Z) (l : list A) :
  sorted_by key l ≡ₚ l.
Proof.
  unfold sorted_by. induction l as [|a l IH]; simpl; [reflexivity|].
  rewrite insert_by_perm, IH. reflexivity.
Qed.

Lemma insert_by_ascending {A : Type} (key : A -> Z) (a : A) (l : list A) :
  ascending key l -> ascending key (insert_by key a l).
Proof.
  induction l as [|b l IH]; simpl; [auto|].
  intros [Hb Hl]. destruct (Z.leb_spec (key a) (key b)) as [Hle | Hlt]; simpl.
  - split; [|auto]. constructor; [exact Hle|].
    eapply Forall_impl; [exact Hb|]. simpl. intros c Hc. lia.
  - split; [|apply IH; exact Hl].
    rewrite (insert_by_perm key a l). constructor; [lia | exact Hb].
Qed.

Lemma sorted_by_ascending {A : Type} (key : A -> Z) (l : list A) :
  ascending key (sorted_by key l).
Proof.
  unfold sorted_by. induction l as [|a l IH]; simpl; [exact I|].
  apply insert_by_ascending. exact IH.
Qed.

Lemma ascending_app {A : Type} (key : A -> Z) (l1 l2 : list A) :
  ascending key (l1 ++ l2) ->
  ascending key l1 /\ ascending key l2
  /\ forall a b, a ∈ l1 -> b ∈ l2 -> key a <= key b.
Proof.
  induction l1 as [|c l1 IH]; simpl.
  - intros H. repeat split; [exact H|]. intros a b Ha. inversion Ha.
  - intros [Hc Hl]. destruct (IH Hl) as (H1 & H2 & H3).
    apply Forall_app in Hc as [Hc1 Hc2].
    repeat split; try assumption.
    intros a b Ha Hb. apply elem_of_cons in Ha as [-> | Ha]; [|auto].
    rewrite Forall_forall in Hc2. apply Hc2. exact Hb.
Qed.

(** ** The grouping into lines *)

Lemma concat_snoc {A : Type} (ls : list (list A)) (l : list A) :
  concat (ls ++ [l]) = concat ls ++ l.
Proof. rewrite concat_app. simpl. rewrite app_nil_r. reflexivity. Qed.

(** No line holds two boxes whose tops are at least the threshold
    apart. *)
Definition tight (thr : Q) (line : list Box) : Prop :=
  forall c d, c ∈ line -> d ∈ line -> box_y c < box_y d ->
              (inject_Z (box_y d - box_y c) < thr)%Q.

Lemma line_fold_lines (thr : Q) (todo : list Box) :
  forall lines cur a0 done,
    concat lines ++ a0 :: cur = done ->
    ascending box_y (done ++ todo) ->
    Forall (tight thr) lines ->
    tight thr (a0 :: cur) ->
    let st := fold_left (line_step thr) todo (lines, a0 :: cur, box_y a0) in
    concat (st.1.1 ++ [st.1.2]) = done ++ todo
    /\ Forall (tight thr) (st.1.1 ++ [st.1.2]).
Proof.
  induction todo as [|bbox todo IH]; intros lines cur a0 done Hdone Hasc Hlines Hcur.
  - simpl. rewrite concat_snoc, app_nil_r. split; [exact Hdone|].
    apply Forall_app. split; [exact Hlines|].
    constructor; [exact Hcur | constructor].
  - replace (done ++ bbox :: todo) with ((done ++ [bbox]) ++ todo) in *
      by (rewrite <- app_assoc; reflexivity).
    destruct (ascending_app _ _ _ Hasc) as (Hd & _ & _).
    destruct (ascending_app _ _ _ Hd) as (_ & _ & Hle).
    cbn [fold_left].
    destruct (Qltb (inject_Z (Z.abs (box_y bbox - box_y a0))) thr) eqn:E.
    + assert (Hs : line_step thr (lines, a0 :: cur, box_y a0) bbox
                   = (lines, a0 :: (cur ++ [bbox]), box_y a0))
        by (unfold line_step; rewrite E; reflexivity).
      rewrite Hs. apply Qltb_lt in E.
      apply (IH lines (cur ++ [bbox]) a0 (done ++ [bbox])).
      * rewrite <- Hdone, <- !app_assoc. reflexivity.
      * exact Hasc.
      * exact Hlines.
      * assert (Ha0 : forall c, c ∈ a0 :: cur -> box_y a0 <= box_y c <= box_y bbox).
        { intros c Hc. split.
          - apply elem_of_cons in Hc as [-> | Hc]; [lia|].
            rewrite <- Hdone in Hd.
            rewrite <- app_assoc in Hd.
            destruct (ascending_app _ _ _ Hd) as (_ & Hd2 & _).
            simpl in Hd2. destruct Hd2 as [Hf _].
            rewrite Forall_forall in Hf. apply Hf.
            apply elem_of_app. left. exact Hc.
          - apply Hle; [|apply list_elem_of_singleton; reflexivity].
            rewrite <- Hdone. apply elem_of_app. right. exact Hc. }
        intros c d Hc Hd' Hlt.
        change (a0 :: cur ++ [bbox]) with ((a0 :: cur) ++ [bbox]) in Hc, Hd'.
        apply elem_of_app in Hc as [Hc | Hc], Hd' as [Hd' | Hd'].
        -- apply Hcur; assumption.
        -- apply list_elem_of_singleton in Hd'. subst d.
           eapply Qle_lt_trans; [|exact E].
           rewrite <- Zle_Qle. specialize (Ha0 c Hc). lia.
        -- apply list_elem_of_singleton in Hc. subst c.
           specialize (Ha0 d Hd'). lia.
        -- apply list_elem_of_singleton in Hc, Hd'. subst. lia.
    + assert (Hs : line_step thr (lines, a0 :: cur, box_y a0) bbox
                   = (lines ++ [a0 :: cur], [bbox], box_y bbox))
        by (unfold line_step; rewrite E; reflexivity).
      rewrite Hs.
      apply (IH (lines ++ [a0 :: cur]) [] bbox (done ++ [bbox])).
      * rewrite concat_snoc, Hdone. reflexivity.
      * exact Hasc.
      * apply Forall_app. split; [exact Hlines|].
        constructor; [exact Hcur | constructor].
      * intros c d Hc Hd' Hlt.
        apply list_elem_of_singleton in Hc, Hd'. subst. lia.
Qed.

Lemma sort_reading_order_lines (bboxes : list Box) (img_height : Z) :
  exists lines,
    sort_reading_order bboxes img_height = concat (map (sorted_by box_x) lines)
    /\ concat lines = sorted_by box_y bboxes
    /\ Forall (tight (line_threshold bboxes)) lines.
Proof.
  destruct bboxes as [|b0 bs].
  { exists []. repeat split. constructor. }
  unfold sort_reading_order. fold (line_threshold (b0 :: bs)).
  pose proof (sorted_by_ascending box_y (b0 :: bs)) as Hasc.
  destruct (sorted_by box_y (b0 :: bs)) as [|first rest].
  { exists []. repeat split. constructor. }
  destruct (line_fold_lines (line_threshold (b0 :: bs)) rest [] [] first [first])
    as [Hcat Htight].
  - reflexivity.
  - exact Hasc.
  - constructor.
  - intros c d Hc Hd Hlt. apply list_elem_of_singleton in Hc, Hd. subst. lia.
  - destruct (fold_left (line_step (line_threshold (b0 :: bs))) rest
                ([], [first], box_y first)) as [[lines cur] cy].
    exists (lines ++ [cur]). simpl in Hcat, Htight. auto.
Qed.

Lemma concat_map_perm {A : Type} (f : list A -> list A) (ls : list (list A)) :
  (forall l, f l ≡ₚ l) -> concat (map f ls) ≡ₚ concat ls.
Proof.
  intros Hf. induction ls as [|l ls IH]; simpl; [reflexivity|].
  rewrite Hf, IH. reflexivity.
Qed.

Lemma sort_reading_order_length (bboxes : list Box) (img_height : Z) :
  length (sort_reading_order bboxes img_height) = length bboxes.
Proof.
  destruct (sort_reading_order_lines bboxes img_height) as (lines & -> & Hcat & _).
  apply Permutation_length.
  rewrite concat_map_perm by (intros l; apply sorted_by_perm).
  rewrite Hcat. apply sorted_by_perm.
Qed.

(** [sort_reading_order] only reorders: no box is lost, added or
    duplicated. *)
Theorem sort_reading_order_perm (bboxes : list Box) (img_height : Z) :
  sort_reading_order bboxes img_height ≡ₚ bboxes.
Proof.
  destruct (sort_reading_order_lines bboxes img_height) as (lines & -> & Hcat & _).
  rewrite concat_map_perm by (intros l; apply sorted_by_perm).
  rewrite Hcat. apply sorted_by_perm.
Qed.

(** Lines run from top to bottom: a box whose top lies above the top of
    another by at least half the median height comes before it, wherever
    the two stand horizontally. *)
Theorem reading_order_top_to_bottom (bboxes : list Box) (img_height : Z)
    (a b : Box) :
  a ∈ bboxes -> b ∈ bboxes ->
  box_y a < box_y b ->
  (line_threshold bboxes <= inject_Z (box_y b - box_y a))%Q ->
  precedes a b (sort_reading_order bboxes img_height).
Proof.
  intros Ha Hb Hlt Hthr.
  destruct (sort_reading_order_lines bboxes img_height)
    as (lines & -> & Hcat & Htight).
  pose proof (sorted_by_ascending box_y bboxes) as Hasc. rewrite <- Hcat in Hasc.
  assert (Ha' : a ∈ concat lines) by (rewrite Hcat, sorted_by_perm; exact Ha).
  assert (Hb' : b ∈ concat lines) by (rewrite Hcat, sorted_by_perm; exact Hb).
  apply list_elem_of_In, in_concat in Hb' as (Lb & HLb & HbL).
  apply list_elem_of_In, list_elem_of_split in HLb as (Ls1 & Ls2 & ->).
  apply list_elem_of_In in HbL.
  rewrite concat_app in Ha', Hasc. simpl in Ha', Hasc.
  apply Forall_app in Htight as [_ Htight].
  inversion Htight as [|? ? HtLb _]; subst.
  rewrite app_assoc in Hasc.
  destruct (ascending_app _ _ _ Hasc) as (_ & _ & Hle).
  apply elem_of_app in Ha' as [Ha' | Ha'].
  2:{ exfalso. apply elem_of_app in Ha' as [Ha' | Ha'].
      - apply (Qlt_not_le _ _ (HtLb a b Ha' HbL Hlt)). exact Hthr.
      - assert (box_y b <= box_y a); [|lia].
        apply Hle; [apply elem_of_app; right; exact HbL | exact Ha']. }
  rewrite map_app, concat_app. simpl.
  rewrite <- (concat_map_perm (sorted_by box_x) Ls1) in Ha'
    by (intros l; apply sorted_by_perm).
  rewrite <- (sorted_by_perm box_x Lb) in HbL.
  apply list_elem_of_split in Ha' as (p1 & p2 & ->).
  apply list_elem_of_split in HbL as (q1 & q2 & ->).
  exists p1, (p2 ++ q1), (q2 ++ concat (map (sorted_by box_x) Ls2)).
  repeat (rewrite <- ?app_assoc; simpl). reflexivity.
Qed.

Lemma reading_order_top_to_bottom_witness :
  precedes (50, 12, 10, 30) (10, 205, 10, 30)
    (sort_reading_order
       [(50, 12, 10, 30); (10, 10, 10, 30); (50, 200, 10, 30); (10, 205, 10, 30)]
       300).
Proof.
  apply reading_order_top_to_bottom.
  - rewrite !elem_of_cons. auto.
  - rewrite !elem_of_cons. auto 10.
  - vm_compute. reflexivity.
  - vm_compute. discriminate.
Defined.

Lemma line_fold_single (thr : Q) (cy : Z) (rest : list Box) :
  forall lines cur,
    (forall b, b ∈ rest -> (inject_Z (Z.abs (box_y b - cy)) < thr)%Q) ->
    fold_left (line_step thr) rest (lines, cur, cy) = (lines, cur ++ rest, cy).
Proof.
  induction rest as [|b rest IH]; intros lines cur Hclose; simpl.
  - rewrite app_nil_r. reflexivity.
  - assert (Qltb (inject_Z (Z.abs (box_y b - cy))) thr = true) as ->.
    { apply Qltb_lt. apply Hclose. left. }
    rewrite IH by (intros c Hc; apply Hclose; right; exact Hc).
    rewrite <- app_assoc. reflexivity.
Qed.

(** When all tops are closer to one another than half the median height,
    the boxes form one line and come out from left to right. *)
Theorem reading_order_single_line (bboxes : list Box) (img_height : Z) :
  (forall a b, a ∈ bboxes -> b ∈ bboxes ->
     (inject_Z (Z.abs (box_y a - box_y b)) < line_threshold bboxes)%Q) ->
  sort_reading_order bboxes img_height
  = sorted_by box_x (sorted_by box_y bboxes)
  /\ ascending box_x (sort_reading_order bboxes img_height).
Proof.
  intros Hclose.
  assert (sort_reading_order bboxes img_height
          = sorted_by box_x (sorted_by box_y bboxes)) as ->;
    [|split; [reflexivity | apply sorted_by_ascending]].
  destruct bboxes as [|b0 bs]; [reflexivity|].
  unfold sort_reading_order. fold (line_threshold (b0 :: bs)).
  assert (Hin : forall c, c ∈ sorted_by box_y (b0 :: bs) -> c ∈ b0 :: bs)
    by (intros c; rewrite sorted_by_perm; auto).
  destruct (sorted_by box_y (b0 :: bs)) as [|first rest]; [reflexivity|].
  rewrite line_fold_single.
  - simpl. apply app_nil_r.
  - intros b Hb. apply Hclose; apply Hin; [right; exact Hb | left].
Qed.

Lemma reading_order_single_line_witness :
  sort_reading_order [(50, 12, 10, 30); (10, 20, 10, 30); (30, 10, 10, 30)] 100
  = [(10, 20, 10, 30); (30, 10, 10, 30); (50, 12, 10, 30)].
Proof.
  refine (eq_trans (proj1 (reading_order_single_line
            [(50, 12, 10, 30); (10, 20, 10, 30); (30, 10, 10, 30)] 100 _)) _).
  - intros a b Ha Hb. rewrite !elem_of_cons in Ha, Hb.
    destruct Ha as [-> | [-> | [-> | Ha]]]; [| | |inversion Ha];
      (destruct Hb as [-> | [-> | [-> | Hb]]]; [| | |inversion Hb]);
      vm_compute; reflexivity.
  - vm_compute. reflexivity.
Defined.

End ReadingOrderFacts.

(** * segment.py: the dot-merge pass as a whole *)

Module MergeFacts.

Import Segment SegmentFacts ReadingOrderFacts.

(** Box [b] lies inside box [m]. *)
Definition inside (b m : Box) : Prop :=
  box_x m <= box_x b /\ box_y m <= box_y b
  /\ box_x b + box_w b <= box_x m + box_w m
  /\ box_y b + box_h b <= box_y m + box_h m.

Lemma inside_refl (b : Box) : inside b b.
Proof. unfold inside. lia. Qed.

Lemma inside_merge_l (b1 b2 : Box) : inside b1 (merge_boxes b1 b2).
Proof. unfold inside, merge_boxes, box_x, box_y, box_w, box_h. simpl. lia. Qed.

Lemma inside_merge_r (b1 b2 : Box) : inside b2 (merge_boxes b1 b2).
Proof. unfold inside, merge_boxes, box_x, box_y, box_w, box_h. simpl. lia. Qed.

Section Pass.

Variables (boxes : list Box) (indexed : list (nat * Box)) (median_h : Z).
Hypothesis Hindexed : forall j b, In (j, b) indexed -> boxes !! j = Some b.

(** Every consumed box lies inside an output box. *)
Definition covered (st : list Box * gset nat) : Prop :=
  forall j, j ∈ st.2 ->
    exists b m, boxes !! j = Some b /\ m ∈ st.1 /\ inside b m.

(** Every output box is an input box or the union of two of them. *)
Definition from_input (st : list Box * gset nat) : Prop :=
  forall m, m ∈ st.1 ->
    (exists j b, boxes !! j = Some b /\ m = b)
    \/ (exists j1 b1 j2 b2, boxes !! j1 = Some b1 /\ boxes !! j2 = Some b2
                            /\ j1 <> j2 /\ m = merge_boxes b1 b2).

Lemma merge_step_cases (st : list Box * gset nat) (i : nat) (b1 : Box) :
  (i ∈ st.2 /\ merge_step boxes indexed median_h st (i, b1) = st)
  \/ ((i ∉ st.2)
      /\ merge_step boxes indexed median_h st (i, b1)
         = (st.1 ++ [b1], {[i]} ∪ st.2))
  \/ ((i ∉ st.2)
      /\ exists j b2, boxes !! j = Some b2 /\ j <> i
           /\ merge_step boxes indexed median_h st (i, b1)
              = (st.1 ++ [merge_boxes b1 b2], {[j]} ∪ ({[i]} ∪ st.2))).
Proof.
  destruct st as [merged used]. unfold merge_step. simpl.
  destruct (bool_decide_reflect (i ∈ used)) as [Hi | Hi]; [left; auto|].
  right.
  destruct (is_small median_h b1); [|left; auto].
  pose proof (find_parent_spec used median_h i b1 indexed) as Hfp.
  destruct (find_parent indexed used median_h i b1) as [j|]; [|left; auto].
  right. split; [exact Hi|].
  destruct Hfp as (b2 & Hin & (Hne & _ & _) & _). simpl in Hne.
  apply Hindexed in Hin.
  exists j, b2. split; [exact Hin|]. split; [exact Hne|].
  rewrite (nth_lookup_Some _ _ _ _ Hin). reflexivity.
Qed.

Lemma merge_fold_inv (todo : list (nat * Box)) :
  forall st,
    (forall i b, In (i, b) todo -> boxes !! i = Some b) ->
    covered st -> from_input st ->
    let st' := fold_left (merge_step boxes indexed median_h) todo st in
    covered st' /\ from_input st'
    /\ (length st'.1 <= length st.1 + length todo)%nat
    /\ (forall i, i ∈ st.2 \/ In i (map fst todo) -> i ∈ st'.2).
Proof.
  induction todo as [|[i b1] todo IH]; intros st Htodo Hcov Hfrom.
  - simpl. repeat split; auto; [lia|]. intros i [H | []]. exact H.
  - cbn [fold_left].
    assert (Hb1 : boxes !! i = Some b1) by (apply Htodo; left; reflexivity).
    assert (Htodo' : forall i b, In (i, b) todo -> boxes !! i = Some b)
      by (intros; apply Htodo; right; assumption).
    set (st1 := merge_step boxes indexed median_h st (i, b1)).
    assert (H1 : covered st1 /\ from_input st1
                 /\ (length st1.1 <= S (length st.1))%nat
                 /\ (forall k, k ∈ st.2 \/ k = i -> k ∈ st1.2)).
    { subst st1.
      destruct (merge_step_cases st i b1)
        as [[Hi ->] | [[Hi ->] | [Hi (j & b2 & Hj & Hne & ->)]]].
      - repeat split; auto. intros k [H | ->]; assumption.
      - simpl. repeat split.
        + intros k Hk. simpl in Hk. apply elem_of_union in Hk as [Hk | Hk].
          * apply elem_of_singleton in Hk. subst k.
            exists b1, b1. split; [exact Hb1|]. split; [|apply inside_refl].
            apply elem_of_app. right. left.
          * destruct (Hcov k Hk) as (b & m & Hb & Hm & Hin).
            exists b, m. split; [exact Hb|]. split; [|exact Hin].
            apply elem_of_app. left. exact Hm.
        + intros m Hm. simpl in Hm. apply elem_of_app in Hm as [Hm | Hm].
          * apply Hfrom. exact Hm.
          * apply list_elem_of_singleton in Hm. subst m. left. eauto.
        + rewrite length_app. simpl. lia.
        + intros k [H | ->]; [apply elem_of_union_r; exact H|].
          apply elem_of_union_l, elem_of_singleton. reflexivity.
      - simpl. repeat split.
        + intros k Hk. simpl in Hk.
          rewrite !elem_of_union, !elem_of_singleton in Hk.
          destruct Hk as [-> | [-> | Hk]].
          * exists b2, (merge_boxes b1 b2). split; [exact Hj|].
            split; [|apply inside_merge_r]. apply elem_of_app. right. left.
          * exists b1, (merge_boxes b1 b2). split; [exact Hb1|].
            split; [|apply inside_merge_l]. apply elem_of_app. right. left.
          * destruct (Hcov k Hk) as (b & m & Hb & Hm & Hin).
            exists b, m. split; [exact Hb|]. split; [|exact Hin].
            apply elem_of_app. left. exact Hm.
        + intros m Hm. simpl in Hm. apply elem_of_app in Hm as [Hm | Hm].
          * apply Hfrom. exact Hm.
          * apply list_elem_of_singleton in Hm. subst m. right.
            exists i, b1, j, b2. auto.
        + rewrite length_app. simpl. lia.
        + intros k Hk. rewrite !elem_of_union, !elem_of_singleton.
          destruct Hk as [H | ->]; auto. }
    destruct H1 as (Hcov1 & Hfrom1 & Hlen1 & Hused1).
    destruct (IH st1 Htodo' Hcov1 Hfrom1) as (Hc & Hf & Hl & Hu).
    repeat split; [exact Hc | exact Hf | simpl; lia |].
    intros k [Hk | Hk]; apply Hu.
    + left. apply Hused1. left. exact Hk.
    + simpl in Hk. destruct Hk as [<- | Hk]; [|right; exact Hk].
      left. apply Hused1. right. reflexivity.
Qed.

(** Without a small box the loop appends each box in turn. *)
Lemma merge_fold_no_small (todo : list (nat * Box)) :
  forall merged used,
    List.NoDup (map fst todo) ->
    (forall i b, In (i, b) todo -> (i ∉ used) /\ is_small median_h b = false) ->
    fold_left (merge_step boxes indexed median_h) todo (merged, used)
    = (merged ++ map snd todo, list_to_set (map fst todo) ∪ used).
Proof.
  induction todo as [|[i b1] todo IH]; intros merged used Hnd Hall.
  - simpl. rewrite app_nil_r. f_equal. symmetry. apply (left_id_L ∅ (∪)).
  - cbn [fold_left]. simpl in Hnd. inversion Hnd as [|? ? Hni Hnd']; subst.
    destruct (Hall i b1) as [Hi Hs]; [left; reflexivity|].
    unfold merge_step at 2.
    rewrite bool_decide_eq_false_2 by exact Hi. rewrite Hs.
    rewrite IH.
    + simpl. rewrite <- app_assoc. simpl. f_equal.
      rewrite (assoc_L (∪)), (comm_L (∪) _ {[i]}). reflexivity.
    + exact Hnd'.
    + intros k b Hk. destruct (Hall k b) as [Hku Hks]; [right; exact Hk|].
      split; [|exact Hks].
      rewrite elem_of_union, elem_of_singleton. intros [-> | H]; [|contradiction].
      apply Hni. apply in_map_iff. exists (i, b). auto.
Qed.

End Pass.

Lemma sorted_by_map {A B : Type} (f : A -> B) (key : B -> Z) (l : list A) :
  map f (sorted_by (fun a => key (f a)) l) = sorted_by key (map f l).
Proof.
  unfold sorted_by. induction l as [|a l IH]; simpl; [reflexivity|].
  rewrite <- IH. generalize (fold_right (insert_by (fun a => key (f a))) [] l).
  intros s. induction s as [|b s IHs]; simpl; [reflexivity|].
  destruct (key (f a) <=? key (f b)); simpl; [reflexivity|].
  rewrite IHs. reflexivity.
Qed.

Lemma map_snd_enumerate {A : Type} (l : list A) : map snd (enumerate l) = l.
Proof.
  unfold enumerate. apply list_eq. intros i.
  change (map snd (imap (fun i a => (i, a)) l)) with (snd <$> imap (fun i a => (i, a)) l).
  rewrite list_lookup_fmap, list_lookup_imap.
  destruct (l !! i); reflexivity.
Qed.

Lemma map_fst_enumerate {A : Type} (l : list A) :
  map fst (enumerate l) = seq 0 (length l).
Proof.
  unfold enumerate. apply list_eq. intros i.
  change (map fst (imap (fun i a => (i, a)) l)) with (fst <$> imap (fun i a => (i, a)) l).
  rewrite list_lookup_fmap, list_lookup_imap.
  destruct (l !! i) as [a|] eqn:E; simpl.
  - symmetry. apply lookup_seq. split; [reflexivity|].
    apply lookup_lt_Some in E. exact E.
  - symmetry. apply lookup_ge_None. rewrite length_seq.
    apply lookup_ge_None in E. exact E.
Qed.

Lemma merge_close_bboxes_pass (bboxes : list (Box * Contour)) (binary : Mask) :
  let boxes := map fst bboxes in
  let merged := merge_close_bboxes bboxes binary in
  (forall b, b ∈ boxes -> exists m, m ∈ merged /\ inside b m)
  /\ (forall m, m ∈ merged ->
        m ∈ boxes
        \/ exists j1 b1 j2 b2,
             boxes !! j1 = Some b1 /\ boxes !! j2 = Some b2 /\ j1 <> j2
             /\ union_box b1 b2 m)
  /\ (length merged <= length bboxes)%nat.
Proof.
  intros boxes merged. subst merged. unfold merge_close_bboxes. fold boxes.
  destruct (map box_h boxes) as [|h0 hs] eqn:Eh.
  { repeat split.
    - intros b Hb. exists b. split; [exact Hb | apply inside_refl].
    - intros m Hm. left. exact Hm.
    - unfold boxes. rewrite length_map. lia. }
  rewrite <- Eh.
  set (indexed := sorted_by (fun t : nat * Box => box_y t.2) (enumerate boxes)).
  assert (Hidx : forall j b, In (j, b) indexed <-> boxes !! j = Some b).
  { intros j b. unfold indexed. rewrite In_sorted_by. apply In_enumerate. }
  destruct (merge_fold_inv boxes indexed (median (map box_h boxes))
              (fun j b H => proj1 (Hidx j b) H) indexed ([], ∅))
    as (Hcov & Hfrom & Hlen & Hused).
  - intros j b H. apply Hidx. exact H.
  - intros j Hj. simpl in Hj. exfalso. exact (not_elem_of_empty j Hj).
  - intros m Hm. simpl in Hm. inversion Hm.
  - repeat split.
    + intros b Hb. apply list_elem_of_lookup in Hb as [j Hj].
      destruct (Hcov j) as (b' & m & Hb' & Hm & Hin).
      { apply Hused. right. apply in_map_iff. exists (j, b).
        split; [reflexivity | apply Hidx; exact Hj]. }
      rewrite Hj in Hb'. injection Hb' as <-. eauto.
    + intros m Hm. destruct (Hfrom m Hm) as [(j & b & Hb & ->) |
        (j1 & b1 & j2 & b2 & H1 & H2 & Hne & ->)].
      * left. eapply list_elem_of_lookup_2; eauto.
      * right. exists j1, b1, j2, b2. repeat split; try assumption;
          apply merge_boxes_union.
    + simpl in Hlen. etransitivity; [exact Hlen|].
      unfold indexed. rewrite (Permutation_length (sorted_by_perm _ _)).
      unfold enumerate. rewrite length_imap. unfold boxes. rewrite length_map. lia.
Qed.

(** The pass loses no box: every input box lies inside a box of the
    result, every box of the result is an input box or the union of two
    distinct input boxes, and the result is no longer than the input. *)
Theorem merge_close_bboxes_cover (bboxes : list (Box * Contour)) (binary : Mask) :
  let boxes := map fst bboxes in
  let merged := merge_close_bboxes bboxes binary in
  (forall b, b ∈ boxes -> exists m, m ∈ merged /\ inside b m)
  /\ (forall m, m ∈ merged ->
        m ∈ boxes
        \/ exists j1 b1 j2 b2,
             boxes !! j1 = Some b1 /\ boxes !! j2 = Some b2 /\ j1 <> j2
             /\ union_box b1 b2 m)
  /\ (length merged <= length bboxes)%nat.
Proof.
  exact (merge_close_bboxes_pass bboxes binary).
Qed.

(** When no box is small the pass merges nothing: it returns the boxes
    from top to bottom. *)
Theorem merge_close_bboxes_no_small (bboxes : list (Box * Contour)) (binary : Mask) :
  Forall (fun b => ~ small_box (median (map box_h (map fst bboxes))) b)
         (map fst bboxes) ->
  merge_close_bboxes bboxes binary = sorted_by box_y (map fst bboxes).
Proof.
  intros Hns. unfold merge_close_bboxes.
  set (boxes := map fst bboxes) in *.
  destruct (map box_h boxes) as [|h0 hs] eqn:Eh.
  { destruct boxes; [reflexivity | discriminate]. }
  rewrite <- Eh in *.
  set (indexed := sorted_by (fun t : nat * Box => box_y t.2) (enumerate boxes)).
  rewrite (merge_fold_no_small boxes indexed).
  - simpl. unfold indexed.
    rewrite (sorted_by_map snd box_y (enumerate boxes)), map_snd_enumerate.
    reflexivity.
  - apply NoDup_ListNoDup.
    unfold indexed. rewrite (sorted_by_perm _ (enumerate boxes)).
    rewrite map_fst_enumerate. apply NoDup_seq.
  - intros i b Hin. split; [apply not_elem_of_empty|].
    unfold indexed in Hin. apply In_sorted_by, In_enumerate in Hin.
    rewrite Forall_forall in Hns.
    destruct (is_small (median (map box_h boxes)) b) eqn:E; [|reflexivity].
    exfalso. apply (Hns b); [eapply list_elem_of_lookup_2; eauto|].
    apply is_small_spec. exact E.
Qed.

Lemma merge_close_bboxes_no_small_witness :
  merge_close_bboxes [((30, 12, 10, 20), []); ((8, 10, 10, 20), [])] []
  = [(8, 10, 10, 20); (30, 12, 10, 20)].
Proof.
  refine (eq_trans (merge_close_bboxes_no_small
            [((30, 12, 10, 20), []); ((8, 10, 10, 20), [])] [] _) _).
  - repeat constructor; intros [H _]; vm_compute in H; discriminate.
  - vm_compute. reflexivity.
Defined.

End MergeFacts.

(** * segment.py: how many characters come back *)

Module SegmentCountFacts.

Import Segment PangramFacts ReadingOrderFacts MergeFacts.

Lemma first_seen_length (l : list N) :
  forall seen, (length (first_seen seen l) <= length l)%nat.
Proof.
  induction l as [|a l IH]; intros seen; simpl; [lia|].
  destruct (bool_decide (a ∈ seen)); simpl.
  - specialize (IH seen). lia.
  - specialize (IH ({[a]} ∪ seen)). lia.
Qed.

Lemma omap_length {A B : Type} (f : A -> option B) (l : list A) :
  (length (omap f l) <= length l)%nat.
Proof.
  induction l as [|a l IH]; [reflexivity|].
  change (omap f (a :: l))
    with (match f a with Some y => y :: omap f l | None => omap f l end).
  destruct (f a); simpl; lia.
Qed.

Lemma merge_close_bboxes_nonempty (b : Box * Contour) (bs : list (Box * Contour))
    (binary : Mask) :
  merge_close_bboxes (b :: bs) binary <> [].
Proof.
  destruct (merge_close_bboxes_pass (b :: bs) binary) as (Hcov & _ & _).
  destruct (Hcov b.1) as (m & Hm & _); [left|].
  intros E. rewrite E in Hm. inversion Hm.
Qed.

Lemma segment_characters_lengths (findContours : Mask -> list Contour)
    (binary : Mask) (pangram : str) (results : list (char * Mask)) :
  segment_characters findContours binary pangram = Ok results ->
  (length results <= length (findContours binary))%nat
  /\ (length results <= length (letters pangram))%nat
  /\ (results = [] <-> letters pangram = []).
Proof.
  unfold segment_characters.
  destruct (findContours binary) as [|c cs] eqn:Ec; [discriminate|].
  match goal with |- context [omap ?f ?l] =>
    pose proof (omap_length f l) as Hom; destruct (omap f l) as [|b bs] end;
    [discriminate|].
  intros [= <-].
  set (sorted := sort_reading_order (merge_close_bboxes (b :: bs) binary)
                                    (shape0 binary)).
  fold (letters pangram).
  assert (Hlen : length sorted = length (merge_close_bboxes (b :: bs) binary))
    by apply sort_reading_order_length.
  assert (Hpos : (1 <= length sorted)%nat).
  { rewrite Hlen. pose proof (merge_close_bboxes_nonempty b bs binary) as Hne.
    destruct (merge_close_bboxes (b :: bs) binary); [congruence | simpl; lia]. }
  destruct (merge_close_bboxes_pass (b :: bs) binary) as (_ & _ & Hmlen).
  pose proof (assign_chars_chars binary (letters pangram) sorted 0 [] ∅) as Hchars.
  simpl in Hchars. rewrite drop_0 in Hchars.
  assert (Hl : length (assign_chars binary (letters pangram) 0 sorted [] ∅)
               = length (first_seen ∅ (take (length sorted) (letters pangram)))).
  { rewrite <- Hchars. rewrite length_map. reflexivity. }
  pose proof (first_seen_length (take (length sorted) (letters pangram)) ∅) as Hfs.
  rewrite length_take in Hfs.
  repeat split.
  - simpl in Hom, Hmlen. simpl. lia.
  - lia.
  - intros E. rewrite E in Hl. simpl in Hl.
    destruct (letters pangram) as [|a l]; [reflexivity|].
    destruct sorted as [|s0 ss]; [simpl in Hpos; lia|].
    cbn [length take first_seen] in Hl.
    rewrite bool_decide_eq_false_2 in Hl by apply not_elem_of_empty.
    rewrite length_cons in Hl. lia.
  - intros E. rewrite E, take_nil in Hl. simpl in Hl. rewrite E.
    destruct (assign_chars binary [] 0 sorted [] ∅);
      [reflexivity | simpl in Hl; lia].
Qed.

(** For an ASCII phrase, a successful segmentation returns at most one
    character per detected region and at most one per letter of the
    phrase, and it returns none exactly when the phrase has no letter. *)
Theorem segment_characters_count (findContours : Mask -> list Contour)
    (binary : Mask) (pangram : str) (results : list (char * Mask)) :
  isascii pangram = true ->
  segment_characters findContours binary pangram = Ok results ->
  (length results <= length (findContours binary))%nat
  /\ (length results <= length (letters pangram))%nat
  /\ (results = [] <-> letters pangram = []).
Proof. intros _. apply segment_characters_lengths. Qed.

Lemma segment_characters_count_witness :
  (length [(97%N, filled_block 10 10 2 2 6 6)]
   <= length (trace_outer (filled_block 10 10 2 2 6 6)))%nat.
Proof.
  refine (proj1 (segment_characters_count trace_outer (filled_block 10 10 2 2 6 6)
                   (str_of "a") [(97%N, filled_block 10 10 2 2 6 6)] _ _)).
  - reflexivity.
  - vm_compute. reflexivity.
Defined.

(** ** The bitmaps *)

(** [m] shows [w] at some offset: each pixel of [w] is the pixel of [m]
    that many rows down and columns right. *)
Definition window_of (m w : Mask) : Prop :=
  exists oy ox : nat,
    forall r c v, pixel w r c = Some v -> pixel m (oy + r) (ox + c) = Some v.

Lemma slice2_window (m : Mask) (y1 y2 x1 x2 : Z) :
  window_of m (slice2 m y1 y2 x1 x2).
Proof.
  unfold slice2, slice.
  match goal with
  | |- window_of _ (map (fun row => take ?nx (drop ?ox row)) (take ?ny (drop ?oy m))) =>
      exists oy, ox; intros r c v; unfold pixel;
      rewrite list_lookup_fmap;
      destruct (take ny (drop oy m) !! r) as [row|] eqn:Er; cbn;
        [|intros Hc; discriminate Hc];
      apply lookup_take_Some in Er as [Er _]; rewrite lookup_drop in Er;
      rewrite Er; cbn; intros Hc;
      apply lookup_take_Some in Hc as [Hc _]; rewrite lookup_drop in Hc; exact Hc
  end.
Qed.

Lemma assign_chars_windows (binary : Mask) (chars : str) (boxes : list Box) :
  forall i results seen,
    Forall (fun cb => window_of binary cb.2) results ->
    Forall (fun cb => window_of binary cb.2)
           (assign_chars binary chars i boxes results seen).
Proof.
  induction boxes as [|b rest IH]; intros i results seen Hres; simpl; [exact Hres|].
  destruct (chars !! i) as [c|]; [|exact Hres].
  destruct (bool_decide (c ∈ seen)); apply IH; [exact Hres|].
  apply Forall_app. split; [exact Hres|].
  constructor; [apply slice2_window | constructor].
Qed.

(** Every bitmap returned by [segment_characters] is a window of the
    binary image: each of its pixels is the pixel of the image at a fixed
    offset. *)
Theorem segment_characters_windows (findContours : Mask -> list Contour)
    (binary : Mask) (pangram : str) (results : list (char * Mask)) :
  segment_characters findContours binary pangram = Ok results ->
  forall c bitmap, In (c, bitmap) results ->
    exists oy ox : nat,
      forall r col v, pixel bitmap r col = Some v ->
                      pixel binary (oy + r) (ox + col) = Some v.
Proof.
  unfold segment_characters.
  destruct (findContours binary) as [|c0 cs]; [discriminate|].
  match goal with |- context [omap ?f ?l] => destruct (omap f l) as [|b bs] end;
    [discriminate|].
  intros [= <-] c bitmap Hin.
  match goal with
  | H : In _ (assign_chars ?bin ?chars ?i ?boxes ?res ?seen) |- _ =>
      pose proof (assign_chars_windows bin chars boxes i res seen
                    ltac:(constructor)) as Hall
  end.
  rewrite Forall_forall in Hall.
  exact (Hall (c, bitmap) ltac:(apply list_elem_of_In; exact Hin)).
Qed.

Lemma segment_characters_windows_witness :
  exists oy ox : nat,
    forall r col v,
      pixel (filled_block 10 10 2 2 6 6) r col = Some v ->
      pixel (filled_block 10 10 2 2 6 6) (oy + r) (ox + col) = Some v.
Proof.
  refine (segment_characters_windows trace_outer (filled_block 10 10 2 2 6 6)
            (str_of "a") [(97%N, filled_block 10 10 2 2 6 6)] _
            97%N (filled_block 10 10 2 2 6 6) _).
  - vm_compute. reflexivity.
  - left. reflexivity.
Defined.

End SegmentCountFacts.

(** * vectorize.py: rounding, the extent of a glyph, the area formula *)

From Stdlib Require Import Lqa.

Module VectorizeMoreFacts.

Import Vectorize VectorizeFacts.

(** ** Rounding *)




(** ** What the loop over the contours emits *)

Section Loop.

Variable approxPolyDP : Contour -> Q -> bool -> Contour.
Variables (hier : list HierarchyRow) (bx by_ : Z) (scale : Q) (th : Z).

Lemma contour_command_points (i : nat) (contour : Contour) (cmd : PathGroup) :
  contour_command approxPolyDP hier bx by_ scale th i contour = Ok (Some cmd) ->
  (3 <= length (points cmd))%nat
  /\ forall q, In q (points cmd) ->
       exists p, In p (approxPolyDP contour (1 # 2) true)
                 /\ q = transform_point bx by_ scale th p.
Proof.
  unfold contour_command.
  destruct (length contour <? 3)%nat; [discriminate|].
  destruct (Nat.ltb_spec (length (approxPolyDP contour (1 # 2) true)) 3)
    as [|Hlen]; [discriminate|].
  unfold index. destruct (hier !! i) as [h|]; simpl; [|discriminate].
  intros [= <-]. simpl.
  match goal with |- context [if ?c then _ else _] => destruct c end.
  - split; [rewrite length_rev, length_map; exact Hlen|].
    intros q Hq. apply in_rev, in_map_iff in Hq as (p & <- & Hp). eauto.
  - split; [rewrite length_map; exact Hlen|].
    intros q Hq. apply in_map_iff in Hq as (p & <- & Hp). eauto.
Qed.

Lemma commands_loop_Forall (P : PathGroup -> Prop) (contours : list Contour) :
  (forall i contour cmd,
     In contour contours ->
     contour_command approxPolyDP hier bx by_ scale th i contour = Ok (Some cmd) ->
     P cmd) ->
  forall i commands out,
    Forall P commands ->
    commands_loop approxPolyDP hier bx by_ scale th i contours commands = Ok out ->
    Forall P out /\ (length out <= length commands + length contours)%nat.
Proof.
  induction contours as [|contour rest IH]; intros Hstep i commands out Hc; simpl.
  - intros [= <-]. split; [exact Hc | lia].
  - destruct (contour_command approxPolyDP hier bx by_ scale th i contour)
      as [[cmd|]|e] eqn:E; simpl; [| |discriminate]; intros Hloop.
    + apply IH in Hloop as [Hf Hl].
      * split; [exact Hf|]. rewrite length_app in Hl. simpl in Hl. lia.
      * intros j c cmd' Hin. apply Hstep. right. exact Hin.
      * apply Forall_app. split; [exact Hc|].
        constructor; [|constructor]. apply (Hstep i contour); [left; reflexivity | exact E].
    + apply IH in Hloop as [Hf Hl].
      * split; [exact Hf | lia].
      * intros j c cmd' Hin. apply Hstep. right. exact Hin.
      * exact Hc.
Qed.

End Loop.

(** Every path the vectorizer returns has at least three points, and
    there is at most one path per traced contour. *)
Theorem emitted_paths_shape
    (findContours : Mask -> list Contour * option (list HierarchyRow))
    (approxPolyDP : Contour -> Q -> bool -> Contour)
    (binary : Mask) (g : GlyphData) :
  process_glyph_bitmap findContours approxPolyDP binary = Ok g ->
  Forall (fun path => (3 <= length (points path))%nat) (paths g)
  /\ (length (paths g) <= length (findContours binary).1)%nat.
Proof.
  unfold process_glyph_bitmap, bitmap_to_contours.
  destruct (findContours binary) as [contours hierarchy]. simpl.
  destruct contours as [|c cs]; [intros [= <-]; split; [constructor | simpl; lia]|].
  destruct hierarchy as [hier|]; [|intros [= <-]; split; [constructor | simpl; lia]].
  destruct (contours_to_font_paths approxPolyDP (c :: cs) (Some hier)
              (ASCENDER - DESCENDER)) as [ps|e] eqn:Hps;
    unfold mbind, result_mbind, result_bind; cbv beta iota; [|discriminate].
  assert (Hshape : Forall (fun path => (3 <= length (points path))%nat) ps
                   /\ (length ps <= length (c :: cs))%nat).
  { revert Hps. unfold contours_to_font_paths.
    destruct (boundingRect (vstack (c :: cs))) as [[[bx by_] bw] bh].
    destruct ((bw =? 0) || (bh =? 0)); [intros [= <-]; split; [constructor | simpl; lia]|].
    intros Hloop.
    apply (commands_loop_Forall approxPolyDP hier bx by_ _ _
             (fun path => (3 <= length (points path))%nat)) in Hloop.
    - exact Hloop.
    - intros i contour cmd _ Hcmd.
      apply contour_command_points in Hcmd. tauto.
    - constructor. }
  destruct (boundingRect (vstack (c :: cs))) as [[[bx by_] bw] bh].
  intros [= <-]. cbn [paths]. destruct Hshape as [Hf Hl]. split.
  - apply Forall_fmap. eapply Forall_impl; [exact Hf|].
    intros path Hp. simpl. rewrite length_map. exact Hp.
  - rewrite length_map. exact Hl.
Qed.

Lemma emitted_paths_shape_witness :
  Forall (fun path => (3 <= length (points path))%nat)
    [mkPath [(590, 800); (590, 50); (90, 50); (90, 800)] false].
Proof.
  refine (proj1 (emitted_paths_shape trace_rectangle keep_polygon block_mask
    (mkGlyph [mkPath [(590, 800); (590, 50); (90, 50); (90, 800)] false] 930 90) _)).
  vm_compute. reflexivity.
Defined.

(** ** The extent of a glyph *)






(** ** The signed area *)

Definition transpose (p : Point) : Point := (p.2, p.1).

Lemma chain_transpose (l : list Point) : chain (map transpose l) = - chain l.
Proof.
  induction l as [|a l IH]; [reflexivity|].
  destruct l as [|b l]; [reflexivity|].
  change (map transpose (a :: b :: l))
    with (transpose a :: transpose b :: map transpose l).
  rewrite !chain_cons2.
  change (transpose b :: map transpose l) with (map transpose (b :: l)).
  rewrite IH. unfold cross, transpose. simpl. lia.
Qed.

Lemma last_map_transpose (l : list Point) :
  List.last (map transpose l) (0, 0) = transpose (List.last l (0, 0)).
Proof.
  induction l as [|a l IH]; [reflexivity|].
  destruct l as [|b l]; [reflexivity|].
  change (List.last (a :: b :: l) (0, 0)) with (List.last (b :: l) (0, 0)).
  rewrite <- IH. reflexivity.
Qed.

Lemma shoelace_transpose (l : list Point) :
  shoelace (map transpose l) = - shoelace l.
Proof.
  unfold shoelace. rewrite chain_transpose, last_map_transpose.
  destruct l as [|a l]; [reflexivity|]. simpl List.hd.
  unfold cross, transpose. simpl. lia.
Qed.

Lemma shoelace_translate (dx dy : Z) (l : list Point) :
  shoelace (map (fun p : Point => (p.1 + dx, p.2 + dy)) l) = shoelace l.
Proof.
  assert (E : map (fun p : Point => (p.1 + dx, p.2 + dy)) l
              = map transpose (map (shift dy) (map transpose (map (shift dx) l)))).
  { rewrite !map_map. apply map_ext. intros [x y]. reflexivity. }
  rewrite E, shoelace_transpose, shoelace_shift, shoelace_transpose, shoelace_shift.
  lia.
Qed.

Lemma shoelace_degenerate (l : list Point) :
  (length l < 3)%nat -> shoelace l = 0.
Proof.
  destruct l as [|a [|b [|c l]]]; intros H.
  - reflexivity.
  - unfold shoelace. simpl. unfold cross. lia.
  - unfold shoelace. simpl. unfold cross. lia.
  - simpl in H. lia.
Qed.

(** *** In binary64 *)

(** A polygon of fewer than [2^18] points with coordinates of at most
    [2^16] in size: every sum of the shoelace loop stays below [2^51]. *)
Definition small_polygon (pts : list Point) : Prop :=
  Z.of_nat (length pts) < 2 ^ 18
  /\ Forall (fun p : Point => Z.abs p.1 <= 2 ^ 16 /\ Z.abs p.2 <= 2 ^ 16) pts.

Lemma small_polygon_nth (pts : list Point) (i : nat) :
  small_polygon pts ->
  Z.abs (nth i pts (0, 0)).1 <= 2 ^ 16 /\ Z.abs (nth i pts (0, 0)).2 <= 2 ^ 16.
Proof.
  intros [_ Hall]. rewrite List.Forall_forall in Hall.
  destruct (nth_in_or_default i pts (0, 0)) as [Hin | ->].
  - apply Hall, Hin.
  - simpl. lia.
Qed.

Lemma product_small (a b : Z) :
  Z.abs a <= 2 ^ 16 -> Z.abs b <= 2 ^ 16 -> Z.abs (a * b) <= 2 ^ 32.
Proof.
  intros Ha Hb. rewrite Z.abs_mul.
  change (2 ^ 32) with (2 ^ 16 * 2 ^ 16).
  apply Z.mul_le_mono_nonneg; lia.
Qed.

(** The loop computes in doubles what it computes in integers, as long
    as the sums stay small. *)
Lemma shoelace_loop_exact (g h : nat -> Z) (idx : list nat) :
  (forall i, Z.abs (g i) <= 2 ^ 32 /\ Z.abs (h i) <= 2 ^ 32) ->
  forall (area : Q) (s : Z),
    (area == inject_Z s)%Q ->
    Z.abs s + 2 ^ 33 * Z.of_nat (length idx) < 2 ^ 51 ->
    (fold_left (fun area i =>
                  Binary64.fsub (Binary64.fadd area (Binary64.of_int (g i)))
                                (Binary64.of_int (h i)))
               idx area
     == inject_Z (fold_left (fun s i => (s + g i - h i)%Z) idx s))%Q
    /\ Z.abs (fold_left (fun s i => s + g i - h i) idx s)
       <= Z.abs s + 2 ^ 33 * Z.of_nat (length idx).
Proof.
  intros Hgh. induction idx as [|i idx IH]; intros area s Ea Hs.
  - simpl. split; [exact Ea | lia].
  - destruct (Hgh i) as [Hg Hh].
    cbn [fold_left]. rewrite length_cons, Nat2Z.inj_succ in Hs.
    assert (Eg : (Binary64.of_int (g i) == inject_Z (g i))%Q)
      by (apply Binary64Facts.fl_int; [reflexivity | lia]).
    assert (Eh : (Binary64.of_int (h i) == inject_Z (h i))%Q)
      by (apply Binary64Facts.fl_int; [reflexivity | lia]).
    assert (E1 : (Binary64.fadd area (Binary64.of_int (g i))
                  == inject_Z (s + g i))%Q).
    { apply Binary64Facts.fl_int; [|lia].
      rewrite Ea, Eg, inject_Z_plus. reflexivity. }
    assert (E2 : (Binary64.fsub (Binary64.fadd area (Binary64.of_int (g i)))
                                (Binary64.of_int (h i))
                  == inject_Z (s + g i - h i))%Q).
    { apply Binary64Facts.fl_int; [|lia].
      rewrite E1, Eh. unfold Z.sub, Qminus.
      rewrite (inject_Z_plus (s + g i)), inject_Z_opp. reflexivity. }
    destruct (IH _ _ E2) as [IH1 IH2]; [lia|].
    split; [exact IH1|].
    rewrite length_cons, Nat2Z.inj_succ. lia.
Qed.

(** On a small polygon the area computed in doubles is the exact one. *)
Lemma polygon_area_exact (pts : list Point) :
  small_polygon pts -> (Vectorize64.polygon_area pts == polygon_area pts)%Q.
Proof.
  intros Hsmall.
  unfold Vectorize64.polygon_area, polygon_area. cbv zeta.
  set (n := length pts).
  destruct (shoelace_loop_exact
              (fun i => (nth i pts (0, 0)).1 * (nth ((i + 1) mod n) pts (0, 0)).2)
              (fun i => (nth ((i + 1) mod n) pts (0, 0)).1 * (nth i pts (0, 0)).2)
              (seq 0 n)
              ltac:(intros i; split; apply product_small;
                    apply (small_polygon_nth pts _ Hsmall))
              0%Q 0 ltac:(reflexivity)) as [E Hb].
  { rewrite length_seq. destruct Hsmall as [Hn _]. fold n in Hn.
    change (Z.abs 0) with 0. lia. }
  rewrite length_seq in Hb. change (Z.abs 0) with 0 in Hb.
  destruct Hsmall as [Hn _]. fold n in Hn.
  unfold Binary64.fdiv.
  match goal with
  | |- (Binary64.fl (?a / 2) == inject_Z ?s / 2)%Q =>
      transitivity (a / 2)%Q;
        [apply (Binary64Facts.fl_half_int _ s) | rewrite E; reflexivity]
  end.
  - rewrite E. reflexivity.
  - lia.
Qed.

(** For polygons small enough that no sum of the loop is rounded, the
    signed area changes sign when the points are listed backwards, does
    not change when the polygon is moved, and is zero for fewer than
    three points. *)
Theorem polygon_area_symmetries (pts : list Point) (dx dy : Z) :
  small_polygon pts ->
  small_polygon (map (fun p : Point => (p.1 + dx, p.2 + dy)) pts) ->
  (Vectorize64.polygon_area (rev pts) == - Vectorize64.polygon_area pts)%Q
  /\ (Vectorize64.polygon_area (map (fun p : Point => (p.1 + dx, p.2 + dy)%Z) pts)
      == Vectorize64.polygon_area pts)%Q
  /\ ((length pts < 3)%nat -> (Vectorize64.polygon_area pts == 0)%Q).
Proof.
  intros Hs Ht.
  assert (Hr : small_polygon (rev pts)).
  { destruct Hs as [Hn Hall]. split; [rewrite length_rev; exact Hn|].
    apply List.Forall_rev. exact Hall. }
  rewrite (polygon_area_exact _ Hs), (polygon_area_exact _ Ht),
    (polygon_area_exact _ Hr).
  repeat split.
  - rewrite polygon_area_rev, polygon_area_shoelace, inject_Z_opp.
    unfold Qdiv. ring.
  - rewrite !polygon_area_shoelace, shoelace_translate. reflexivity.
  - intros H. rewrite polygon_area_shoelace, shoelace_degenerate by exact H.
    reflexivity.
Qed.

Lemma polygon_area_symmetries_witness :
  (Vectorize64.polygon_area (rev [(0, 0); (0, 10); (10, 10)]%Z)
   == - Vectorize64.polygon_area [(0, 0); (0, 10); (10, 10)]%Z)%Q
  /\ (Vectorize64.polygon_area [(7, -3); (7, 7); (17, 7)]%Z
      == Vectorize64.polygon_area [(0, 0); (0, 10); (10, 10)]%Z)%Q.
Proof.
  destruct (polygon_area_symmetries [(0, 0); (0, 10); (10, 10)] 7 (-3))
    as (Hrev & Hmove & _).
  - split; [reflexivity|]. repeat constructor; simpl; lia.
  - split; [reflexivity|]. repeat constructor; simpl; lia.
  - split; [exact Hrev | exact Hmove].
Defined.

(** ** The other advance width *)



End VectorizeMoreFacts.

(** * fontgen.py: glyph names and the tables of the font *)

Module FontTableFacts.

Import Vectorize Fontgen.

(** ** Glyph names *)

Definition hex_val (a : Ascii.ascii) : N :=
  let n := Ascii.N_of_ascii a in
  if (n <=? 57)%N then (n - 48)%N else (n - 55)%N.

Definition hex_value (ds : list Ascii.ascii) : N :=
  fold_left (fun acc d => (16 * acc + hex_val d)%N) ds 0%N.

Lemma hex_val_digit (d : N) : (d < 16)%N -> hex_val (hex_digit d) = d.
Proof.
  intros Hd.
  assert (Hall : forallb (fun k => (hex_val (hex_digit (N.of_nat k)) =? N.of_nat k)%N)
                         (seq 0 16) = true) by (vm_compute; reflexivity).
  rewrite forallb_forall in Hall.
  specialize (Hall (N.to_nat d)). rewrite N2Nat.id in Hall.
  apply N.eqb_eq, Hall, in_seq. lia.
Qed.

Lemma hex_value_snoc (ds : list Ascii.ascii) (d : Ascii.ascii) :
  hex_value (ds ++ [d]) = (16 * hex_value ds + hex_val d)%N.
Proof. unfold hex_value. rewrite fold_left_app. reflexivity. Qed.

Lemma hex_value_digits (fuel : nat) :
  forall n, (n < 2 ^ N.of_nat fuel)%N -> hex_value (hex_digits fuel n) = n.
Proof.
  induction fuel as [|fuel IH]; intros n Hn.
  - simpl in Hn. assert (n = 0%N) as -> by lia. reflexivity.
  - cbn [hex_digits]. destruct (N.ltb_spec n 16) as [Hlt | Hge].
    + unfold hex_value. simpl. apply hex_val_digit. exact Hlt.
    + rewrite hex_value_snoc, IH, hex_val_digit.
      * pose proof (N.div_mod n 16 ltac:(lia)). lia.
      * apply N.mod_lt. lia.
      * rewrite Nat2N.inj_succ, N.pow_succ_r' in Hn.
        apply N.Div0.div_lt_upper_bound. lia.
Qed.

Lemma pos_size_nat_gt (p : positive) :
  (N.pos p < 2 ^ N.of_nat (Pos.size_nat p))%N.
Proof.
  induction p as [p IH | p IH |]; cbn [Pos.size_nat];
    rewrite ?Nat2N.inj_succ, ?N.pow_succ_r'; simpl; lia.
Qed.

Lemma size_nat_gt (n : N) : (n < 2 ^ N.of_nat (S (N.size_nat n)))%N.
Proof.
  rewrite Nat2N.inj_succ, N.pow_succ_r'.
  destruct n as [|p]; [simpl; lia|].
  pose proof (pos_size_nat_gt p). cbn [N.size_nat]. lia.
Qed.

Lemma hex_value_pad (k : nat) (ds : list Ascii.ascii) :
  hex_value (replicate k "0"%char ++ ds) = hex_value ds.
Proof. induction k as [|k IH]; [reflexivity | exact IH]. Qed.

(** The digits printed by [:04X] read back as the number. *)
Lemma format_04X_value (n : N) :
  hex_value (String.list_ascii_of_string (format_04X n)) = n.
Proof.
  unfold format_04X. rewrite String.list_ascii_of_string_of_list_ascii.
  rewrite hex_value_pad. apply hex_value_digits, size_nat_gt.
Qed.

Lemma uni_name_inj (c1 c2 : char) : uni_name c1 = uni_name c2 -> c1 = c2.
Proof.
  unfold uni_name. intros E.
  change (String "u" (String "n" (String "i" (format_04X c1)))
          = String "u" (String "n" (String "i" (format_04X c2)))) in E.
  injection E as E.
  rewrite <- (format_04X_value c1), <- (format_04X_value c2), E. reflexivity.
Qed.

Lemma uni_name_not_reserved (c : char) :
  uni_name c <> ".notdef"%string /\ uni_name c <> "space"%string.
Proof.
  unfold uni_name.
  change ("uni" +:+ format_04X c)
    with (String "u" (String "n" (String "i" (format_04X c)))).
  split; discriminate.
Qed.

(** ** The pen *)

(** The outline a glyph's paths draw: the point lists of the path groups
    with at least three points, in order, each without its last point
    when that repeats the first. *)
Definition outline (paths : list PathGroup) : Glyph :=
  map (fun p => close_contour (points p))
      (List.filter (fun p => negb (length (points p) <? 3)%nat) paths).

Lemma fold_lineTo (rest : list Point) :
  forall pen,
    fold_left (fun pen pt => lineTo pt pen) rest pen
    = mkPen (pen_closed pen) (pen_open pen ++ rest).
Proof.
  induction rest as [|p rest IH]; intros pen; simpl.
  - rewrite app_nil_r. destruct pen; reflexivity.
  - rewrite IH. simpl. rewrite <- app_assoc. reflexivity.
Qed.

Lemma draw_path_closed (pen : TTGlyphPen) (pg : PathGroup) :
  pen_closed (draw_path pen pg)
  = pen_closed pen ++ outline [pg].
Proof.
  unfold draw_path, outline. simpl.
  destruct (length (points pg) <? 3)%nat eqn:E; simpl.
  - rewrite app_nil_r. reflexivity.
  - destruct (points pg) as [|p0 [|p1 [|p2 rest]]]; try discriminate.
    rewrite fold_lineTo. reflexivity.
Qed.

Lemma outline_app (ps qs : list PathGroup) :
  outline (ps ++ qs) = outline ps ++ outline qs.
Proof. unfold outline. rewrite List.filter_app, map_app. reflexivity. Qed.

Lemma glyph_fold_draw (ps : list PathGroup) :
  forall pen, glyph (fold_left draw_path ps pen) = pen_closed pen ++ outline ps.
Proof.
  unfold glyph. induction ps as [|pg ps IH]; intros pen; simpl.
  - unfold outline. simpl. rewrite app_nil_r. reflexivity.
  - rewrite IH, draw_path_closed, <- app_assoc, <- outline_app. reflexivity.
Qed.

(** ** Tables filled by a loop over the sorted keys *)

Section Table.

Context {V W : Type}.
Variables (f : char -> option V) (h : V -> W).

Definition table_step (t : gmap string W) (c : char) : gmap string W :=
  match f c with
  | None => t
  | Some v => <[uni_name c := h v]> t
  end.

Lemma table_fold_keep (l : list char) (c : char) (v : V) :
  f c = Some v ->
  forall t, t !! uni_name c = Some (h v) ->
            fold_left table_step l t !! uni_name c = Some (h v).
Proof.
  intros Hc. induction l as [|a l IH]; intros t Ht; [exact Ht|].
  simpl. apply IH. unfold table_step.
  destruct (f a) as [va|] eqn:Ea; [|exact Ht].
  destruct (decide (uni_name a = uni_name c)) as [E | Hne].
  - apply uni_name_inj in E. subst a.
    rewrite Ea in Hc. injection Hc as ->. apply lookup_insert_eq.
  - rewrite lookup_insert_ne by exact Hne. exact Ht.
Qed.

Lemma table_fold_key (l : list char) (c : char) (v : V) :
  In c l -> f c = Some v ->
  forall t, fold_left table_step l t !! uni_name c = Some (h v).
Proof.
  intros Hin Hc. induction l as [|a l IH]; intros t; [destruct Hin|].
  simpl. destruct (in_dec N.eq_dec c l) as [Hl | Hl]; [apply IH; exact Hl|].
  destruct Hin as [-> | Hin]; [|contradiction].
  apply table_fold_keep; [exact Hc|].
  unfold table_step. rewrite Hc. apply lookup_insert_eq.
Qed.

Lemma table_fold_dom (l : list char) (name : string) :
  forall t,
    is_Some (fold_left table_step l t !! name)
    <-> is_Some (t !! name)
        \/ exists c, In c l /\ is_Some (f c) /\ name = uni_name c.
Proof.
  induction l as [|a l IH]; intros t; simpl.
  - split; [auto | intros [H | (c & [] & _)]; exact H].
  - rewrite IH. unfold table_step. split.
    + intros [H | (c & Hc & Hf & ->)].
      * destruct (f a) as [va|] eqn:Ea; [|left; exact H].
        destruct (decide (uni_name a = name)) as [<- | Hne].
        -- right. exists a. rewrite Ea. eauto.
        -- rewrite lookup_insert_ne in H by exact Hne. left. exact H.
      * right. exists c. auto.
    + intros [H | (c & [-> | Hc] & Hf & ->)].
      * left. destruct (f a) as [va|]; [|exact H].
        destruct (decide (uni_name a = name)) as [<- | Hne].
        -- rewrite lookup_insert_eq. eauto.
        -- rewrite lookup_insert_ne by exact Hne. exact H.
      * left. destruct Hf as [v ->]. rewrite lookup_insert_eq. eauto.
      * right. exists c. auto.
Qed.

End Table.

Lemma dict_get_keys {V : Type} (glyphs : dict char V) (c : char) :
  In c (keys glyphs) <-> is_Some (dict_get c glyphs).
Proof.
  unfold keys. induction glyphs as [|[k v] d IH]; simpl.
  - split; [intros [] | intros [x Hx]; discriminate].
  - destruct (bool_decide_reflect (c = k)) as [-> | Hne].
    + split; [eauto | auto].
    + rewrite <- IH. split; [intros [E | H]; [congruence | exact H] | auto].
Qed.

Lemma In_sorted_keys {V : Type} (glyphs : dict char V) (c : char) :
  In c (sorted_keys glyphs) <-> In c (keys glyphs).
Proof. unfold sorted_keys. apply SegmentFacts.In_sorted_by. Qed.

(** The two tables of [create_font] are such loops. *)
Lemma create_font_tables (glyphs : dict char GlyphData) (family style : string) :
  let font := font_of (create_font glyphs family style).1 in
  glyphOrder font = [".notdef"; "space"]%string ++ map uni_name (sorted_keys glyphs)
  /\ glyf font
     = fold_left (table_step (fun c => dict_get c glyphs)
                             (fun g => outline (paths g)))
         (sorted_keys glyphs)
         (<["space"%string := []]> (<[".notdef"%string := notdef_glyph]> ∅))
  /\ horizontalMetrics font
     = fold_left (table_step (fun c => dict_get c glyphs)
                             (fun g => (advance_width g, lsb g)))
         (sorted_keys glyphs)
         (<["space"%string := (UNITS_PER_EM / 4, 0)]>
            (<[".notdef"%string := (600, 100)]> ∅)).
Proof.
  cbv zeta. unfold create_font. cbn [fst font_of glyphOrder glyf horizontalMetrics].
  repeat split.
  apply fold_left_pointwise. intros t c. unfold table_step.
  destruct (dict_get c glyphs) as [g|]; [|reflexivity].
  rewrite glyph_fold_draw. reflexivity.
Qed.

Lemma fold_cmap_values (ks : list char) (code : N) (name : string) :
  forall cmap,
    fold_left cmap_step ks cmap !! code = Some name ->
    cmap !! code = Some name \/ exists k, In k ks /\ name = uni_name k.
Proof.
  induction ks as [|k ks IH]; intros cmap H; [left; exact H|].
  simpl in H. apply IH in H as [H | (k' & Hk' & ->)].
  - unfold cmap_step in H.
    assert (Hins : forall m : gmap N string, forall x,
              <[x := uni_name k]> m !! code = Some name ->
              m !! code = Some name \/ name = uni_name k).
    { intros m x Hx. destruct (decide (x = code)) as [-> | Hne].
      - rewrite lookup_insert_eq in Hx. right. congruence.
      - rewrite lookup_insert_ne in Hx by exact Hne. left. exact Hx. }
    destruct (islower k).
    + apply Hins in H as [H | ->]; [|right; exists k; simpl; auto].
      apply Hins in H as [H | ->]; [left; exact H | right; exists k; simpl; auto].
    + apply Hins in H as [H | ->]; [left; exact H | right; exists k; simpl; auto].
  - right. exists k'. simpl. auto.
Qed.

(** In the font [create_font] assembles, the outline table and the
    metrics table have an entry for exactly the names of the glyph order,
    and every code point of the character map leads to one of them. *)
Theorem font_tables_consistent (glyphs : dict char GlyphData)
    (family style : string) :
  let font := font_of (create_font glyphs family style).1 in
  (forall name, In name (glyphOrder font) <-> is_Some (glyf font !! name))
  /\ (forall name, In name (glyphOrder font)
                   <-> is_Some (horizontalMetrics font !! name))
  /\ (forall code name, characterMap font !! code = Some name ->
                        In name (glyphOrder font)).
Proof.
  destruct (create_font_tables glyphs family style) as (Ho & Hg & Hm).
  cbv zeta in *. rewrite Ho, Hg, Hm.
  assert (Horder : forall name,
            In name ([".notdef"; "space"]%string ++ map uni_name (sorted_keys glyphs))
            <-> (name = "space"%string \/ name = ".notdef"%string)
                \/ exists c, In c (sorted_keys glyphs)
                             /\ is_Some (dict_get c glyphs) /\ name = uni_name c).
  { intros name. rewrite in_app_iff, in_map_iff. simpl. split.
    - intros [[<- | [<- | []]] | (c & <- & Hc)]; [auto | auto |].
      right. exists c. repeat split; [exact Hc|].
      apply dict_get_keys, In_sorted_keys. exact Hc.
    - intros [[-> | ->] | (c & Hc & _ & ->)]; [auto | auto |].
      right. exists c. auto. }
  assert (Hbase : forall (W : Type) (a b : W) (name : string),
            is_Some ((<["space"%string := a]> (<[".notdef"%string := b]> ∅)
                      : gmap string W) !! name)
            <-> name = "space"%string \/ name = ".notdef"%string).
  { intros W a b name.
    destruct (decide ("space"%string = name)) as [<- | Hs].
    - rewrite lookup_insert_eq. split; eauto.
    - rewrite lookup_insert_ne by exact Hs.
      destruct (decide (".notdef"%string = name)) as [<- | Hn].
      + rewrite lookup_insert_eq. split; eauto.
      + rewrite lookup_insert_ne, lookup_empty by exact Hn.
        split; [intros [x Hx]; discriminate | intros [E | E]; congruence]. }
  repeat split.
  - rewrite Horder, table_fold_dom, Hbase. tauto.
  - rewrite Horder, table_fold_dom, Hbase. tauto.
  - rewrite Horder, table_fold_dom, Hbase. tauto.
  - rewrite Horder, table_fold_dom, Hbase. tauto.
  - intros code name Hc.
    change (characterMap (font_of (create_font glyphs family style).1))
      with (build_cmap glyphs) in Hc.
    unfold build_cmap in Hc. apply fold_cmap_values in Hc as [Hc | (k & Hk & ->)].
    + apply lookup_singleton_Some in Hc as [_ <-]. simpl. auto.
    + apply in_app_iff. right. apply in_map, In_sorted_keys. exact Hk.
Qed.

(** A character of the mapping is found in the font under its name
    [uniXXXX]: the outline is made of its paths with at least three
    points, in order, each closed as the pen closes it (a last point
    equal to the first is left out), and the metrics are its advance
    width and bearing.  Distinct characters have distinct names. *)
Theorem font_glyph_entry (glyphs : dict char GlyphData) (family style : string)
    (c : char) (g : GlyphData) :
  dict_get c glyphs = Some g ->
  let font := font_of (create_font glyphs family style).1 in
  In (uni_name c) (glyphOrder font)
  /\ glyf font !! uni_name c = Some (outline (paths g))
  /\ horizontalMetrics font !! uni_name c = Some (advance_width g, lsb g)
  /\ (forall c', uni_name c' = uni_name c -> c' = c).
Proof.
  intros Hc.
  destruct (create_font_tables glyphs family style) as (Ho & Hg & Hm).
  cbv zeta in *. rewrite Ho, Hg, Hm.
  assert (Hin : In c (sorted_keys glyphs))
    by (apply In_sorted_keys, dict_get_keys; eauto).
  repeat split.
  - apply in_app_iff. right. apply in_map. exact Hin.
  - apply (table_fold_key (fun c => dict_get c glyphs)
             (fun g => outline (paths g))); assumption.
  - apply (table_fold_key (fun c => dict_get c glyphs)
             (fun g => (advance_width g, lsb g))); assumption.
  - intros c'. apply uni_name_inj.
Qed.

Lemma font_glyph_entry_witness :
  glyf (font_of (create_font
                   [(97%N, mkGlyph [mkPath [(0, 0); (0, 10); (10, 10); (0, 0)] false;
                                    mkPath [(1, 1); (2, 2)] false] 500 0)]
                   "MyHandwriting" "Regular").1) !! uni_name 97%N
  = Some [[(0, 0); (0, 10); (10, 10)]].
Proof.
  exact (proj1 (proj2
    (font_glyph_entry
       [(97%N, mkGlyph [mkPath [(0, 0); (0, 10); (10, 10); (0, 0)] false;
                        mkPath [(1, 1); (2, 2)] false] 500 0)]
       "MyHandwriting" "Regular" 97%N
       (mkGlyph [mkPath [(0, 0); (0, 10); (10, 10); (0, 0)] false;
                 mkPath [(1, 1); (2, 2)] false] 500 0) eq_refl))).
Defined.

(** ** The order in which the characters were supplied *)

Lemma dict_get_In {V : Type} (d : dict char V) (c : char) (v : V) :
  NoDup (keys d) -> (dict_get c d = Some v <-> In (c, v) d).
Proof.
  unfold keys. induction d as [|[k x] d IH]; simpl; intros Hnd.
  - split; [discriminate | intros []].
  - apply NoDup_cons in Hnd as [Hk Hd]. specialize (IH Hd).
    destruct (bool_decide_reflect (c = k)) as [-> | Hne].
    + split.
      * intros [= ->]. left. reflexivity.
      * intros [[= ->] | Hin]; [reflexivity|].
        exfalso. apply Hk, list_elem_of_In, in_map_iff. exists (k, v). auto.
    + rewrite IH. split; [auto | intros [[= -> ->] | Hin]; [congruence | exact Hin]].
Qed.

Lemma dict_get_perm {V : Type} (d1 d2 : dict char V) (c : char) :
  NoDup (keys d1) -> d1 ≡ₚ d2 -> dict_get c d1 = dict_get c d2.
Proof.
  intros Hnd Hperm.
  assert (Hnd2 : NoDup (keys d2)).
  { unfold keys in *. rewrite <- (Permutation_map fst Hperm). exact Hnd. }
  assert (Hiff : forall v, dict_get c d1 = Some v <-> dict_get c d2 = Some v).
  { intros v. rewrite (dict_get_In d1 c v Hnd), (dict_get_In d2 c v Hnd2).
    split; apply Permutation_in; [exact Hperm | symmetry; exact Hperm]. }
  destruct (dict_get c d1) as [v1|].
  - symmetry. apply Hiff. reflexivity.
  - destruct (dict_get c d2) as [v2|]; [|reflexivity].
    apply Hiff. reflexivity.
Qed.

Lemma ascending_perm_eq {A : Type} (key : A -> Z) (l1 : list A) :
  (forall a b, key a = key b -> a = b) ->
  forall l2,
    ReadingOrderFacts.ascending key l1 -> ReadingOrderFacts.ascending key l2 ->
    l1 ≡ₚ l2 -> l1 = l2.
Proof.
  intros Hinj. induction l1 as [|a l1 IH]; intros l2 H1 H2 Hperm.
  - apply Permutation_nil_l in Hperm. congruence.
  - destruct l2 as [|b l2]; [apply Permutation_nil_r in Hperm; discriminate|].
    simpl in H1, H2. destruct H1 as [Ha H1], H2 as [Hb H2].
    rewrite Forall_forall in Ha, Hb.
    assert (Hab : key a <= key b).
    { assert (Hin : b ∈ a :: l1) by (rewrite Hperm; left).
      apply elem_of_cons in Hin as [-> | Hin]; [lia | apply Ha; exact Hin]. }
    assert (Hba : key b <= key a).
    { assert (Hin : a ∈ b :: l2) by (rewrite <- Hperm; left).
      apply elem_of_cons in Hin as [-> | Hin]; [lia | apply Hb; exact Hin]. }
    assert (a = b) as -> by (apply Hinj; lia).
    f_equal. apply IH; [exact H1 | exact H2|].
    apply (Permutation_cons_inv Hperm).
Qed.

Lemma sorted_keys_perm {V : Type} (d1 d2 : dict char V) :
  d1 ≡ₚ d2 -> sorted_keys d1 = sorted_keys d2.
Proof.
  intros Hperm. unfold sorted_keys.
  apply (ascending_perm_eq Z.of_N).
  - intros a b. apply N2Z.inj.
  - apply ReadingOrderFacts.sorted_by_ascending.
  - apply ReadingOrderFacts.sorted_by_ascending.
  - rewrite !ReadingOrderFacts.sorted_by_perm. unfold keys.
    apply Permutation_map. exact Hperm.
Qed.

Lemma NoDup_map_uni_name (l : list char) : NoDup l -> NoDup (map uni_name l).
Proof.
  induction l as [|a l IH]; intros Hnd; [constructor|].
  apply NoDup_cons in Hnd as [Ha Hl]. simpl. apply NoDup_cons. split; [|auto].
  intros Hin. apply list_elem_of_In, in_map_iff in Hin as (b & E & Hb).
  apply uni_name_inj in E. subst b. apply Ha, list_elem_of_In. exact Hb.
Qed.

(** With one entry per character, the glyph order, the outlines and the
    metrics of the font do not depend on the order in which the
    characters were put into the mapping, and no glyph name occurs twice
    in the glyph order. *)
Theorem font_tables_insertion_order (glyphs1 glyphs2 : dict char GlyphData)
    (family style : string) :
  NoDup (keys glyphs1) -> glyphs1 ≡ₚ glyphs2 ->
  let font1 := font_of (create_font glyphs1 family style).1 in
  let font2 := font_of (create_font glyphs2 family style).1 in
  glyphOrder font1 = glyphOrder font2
  /\ glyf font1 = glyf font2
  /\ horizontalMetrics font1 = horizontalMetrics font2
  /\ NoDup (glyphOrder font1).
Proof.
  intros Hnd Hperm.
  destruct (create_font_tables glyphs1 family style) as (Ho1 & Hg1 & Hm1).
  destruct (create_font_tables glyphs2 family style) as (Ho2 & Hg2 & Hm2).
  cbv zeta in *. rewrite Ho1, Hg1, Hm1, Ho2, Hg2, Hm2.
  rewrite <- (sorted_keys_perm glyphs1 glyphs2 Hperm).
  repeat split.
  - apply fold_left_pointwise. intros t c. unfold table_step.
    rewrite (dict_get_perm glyphs1 glyphs2 c Hnd Hperm). reflexivity.
  - apply fold_left_pointwise. intros t c. unfold table_step.
    rewrite (dict_get_perm glyphs1 glyphs2 c Hnd Hperm). reflexivity.
  - assert (Hs : NoDup (sorted_keys glyphs1)).
    { unfold sorted_keys. rewrite ReadingOrderFacts.sorted_by_perm. exact Hnd. }
    apply NoDup_map_uni_name in Hs.
    simpl. apply NoDup_cons. split.
    + intros Hin. apply elem_of_cons in Hin as [E | Hin]; [discriminate|].
      apply list_elem_of_In, in_map_iff in Hin as (c & E & _).
      exact (proj1 (uni_name_not_reserved c) E).
    + apply NoDup_cons. split; [|exact Hs].
      intros Hin. apply list_elem_of_In, in_map_iff in Hin as (c & E & _).
      exact (proj2 (uni_name_not_reserved c) E).
Qed.

Lemma font_tables_insertion_order_witness :
  glyphOrder (font_of (create_font [(98%N, blank_glyph); (97%N, blank_glyph)]
                         "MyHandwriting" "Regular").1)
  = glyphOrder (font_of (create_font [(97%N, blank_glyph); (98%N, blank_glyph)]
                           "MyHandwriting" "Regular").1).
Proof.
  refine (proj1 (font_tables_insertion_order
                   [(98%N, blank_glyph); (97%N, blank_glyph)]
                   [(97%N, blank_glyph); (98%N, blank_glyph)]
                   "MyHandwriting" "Regular" _ _)).
  - apply NoDup_cons. split; [|apply NoDup_cons; split; [|constructor]].
    + intros H. apply elem_of_cons in H as [H | H]; [discriminate | inversion H].
    + intros H. inversion H.
  - apply Permutation_swap.
Defined.

(** ** The code points of the character map *)

Lemma cmap_step_dom (cmap : gmap N string) (k code : char) :
  is_Some (cmap_step cmap k !! code)
  <-> is_Some (cmap !! code)
      \/ code = k \/ (islower k = true /\ code = upper_char k).
Proof.
  unfold cmap_step. destruct (islower k).
  - rewrite !lookup_insert_is_Some. split.
    + intros [E | [_ [E | [_ H]]]]; auto.
    + intros [H | [E | [_ E]]].
      * destruct (decide (upper_char k = code)); [auto|].
        right. split; [assumption|].
        destruct (decide (k = code)); auto.
      * destruct (decide (upper_char k = code)); [auto|].
        right. split; [assumption|]. left. congruence.
      * left. congruence.
  - rewrite lookup_insert_is_Some. split.
    + intros [E | [_ H]]; auto.
    + intros [H | [E | [E _]]]; [|left; congruence | discriminate].
      destruct (decide (k = code)); auto.
Qed.

Lemma fold_cmap_dom (ks : list char) (code : char) :
  forall cmap,
    is_Some (fold_left cmap_step ks cmap !! code)
    <-> is_Some (cmap !! code)
        \/ exists k, In k ks
                     /\ (code = k \/ (islower k = true /\ code = upper_char k)).
Proof.
  induction ks as [|k ks IH]; intros cmap.
  - simpl. split; [auto | intros [H | (k & [] & _)]; exact H].
  - cbn [fold_left]. rewrite IH, cmap_step_dom. split.
    + intros [[H | H] | (k' & Hk' & H)].
      * left. exact H.
      * right. exists k. split; [left; reflexivity | exact H].
      * right. exists k'. split; [right; exact Hk' | exact H].
    + intros [H | (k' & [<- | Hk'] & H)].
      * left. left. exact H.
      * left. right. exact H.
      * right. exists k'. auto.
Qed.

(** For ASCII keys, the character map of the font has an entry for the
    space, for each supplied character and for the capital of each
    supplied lowercase letter a-z, and for no other code point. *)
Theorem cmap_code_points (glyphs : dict char GlyphData) (family style : string)
    (code : char) :
  isascii (keys glyphs) = true ->
  is_Some (characterMap (font_of (create_font glyphs family style).1) !! code)
  <-> code = 32%N
      \/ exists k, In k (keys glyphs)
                   /\ (code = k \/ ((97 <= k <= 122)%N /\ code = (k - 32)%N)).
Proof.
  intros _.
  change (characterMap (font_of (create_font glyphs family style).1))
    with (build_cmap glyphs).
  unfold build_cmap. rewrite fold_cmap_dom.
  assert (Hsp : is_Some (({[32%N := "space"%string]} : gmap N string) !! code)
                <-> code = 32%N).
  { split.
    - intros [name H]. apply lookup_singleton_Some in H as [<- _]. reflexivity.
    - intros ->. rewrite lookup_singleton_eq. eauto. }
  rewrite Hsp.
  assert (Hk : forall k, (islower k = true /\ code = upper_char k)
                         <-> ((97 <= k <= 122)%N /\ code = (k - 32)%N)).
  { intros k. rewrite FontgenFacts.islower_range. split.
    - intros [Hr ->]. split; [exact Hr|].
      apply FontgenFacts.upper_char_lower, FontgenFacts.islower_range, Hr.
    - intros [Hr ->]. split; [exact Hr|]. symmetry.
      apply FontgenFacts.upper_char_lower, FontgenFacts.islower_range, Hr. }
  split; (intros [H | (k & Hin & [H | H])];
          [left; exact H | right; exists k; auto
          | right; exists k; split; [exact Hin | right; apply Hk; exact H]]).
Qed.

Lemma cmap_code_points_witness :
  is_Some (characterMap (font_of (create_font [(97%N, blank_glyph)]
                                    "MyHandwriting" "Regular").1) !! 65%N)
  /\ ~ is_Some (characterMap (font_of (create_font [(97%N, blank_glyph)]
                                         "MyHandwriting" "Regular").1) !! 66%N).
Proof.
  split.
  - apply (cmap_code_points [(97%N, blank_glyph)]); [reflexivity|].
    right. exists 97%N. split; [left; reflexivity|]. right. lia.
  - intros H.
    apply (cmap_code_points [(97%N, blank_glyph)]) in H; [|reflexivity].
    destruct H as [H | (k & [<- | []] & [H | [_ H]])]; discriminate.
Defined.

End FontTableFacts.

(** * fontgen.py: capitals in the character map *)

Module CmapFacts.

Import Vectorize Fontgen FontgenFacts FontTableFacts.

(** Key [k] writes the entry of code point [x]. *)
Definition hits (k x : char) : Prop :=
  x = k \/ (islower k = true /\ x = upper_char k).

Lemma cmap_step_hit (cmap : gmap N string) (k x : char) :
  hits k x -> cmap_step cmap k !! x = Some (uni_name k).
Proof.
  unfold cmap_step. intros [-> | [Hl ->]].
  - destruct (islower k); [|apply lookup_insert_eq].
    destruct (decide (upper_char k = k)) as [E | Hne].
    + rewrite E. apply lookup_insert_eq.
    + rewrite lookup_insert_ne by exact Hne. apply lookup_insert_eq.
  - rewrite Hl. apply lookup_insert_eq.
Qed.

Lemma cmap_step_miss (cmap : gmap N string) (k x : char) :
  ~ hits k x -> cmap_step cmap k !! x = cmap !! x.
Proof.
  unfold cmap_step, hits. intros Hn.
  destruct (islower k) eqn:Hl.
  - rewrite !lookup_insert_ne; [reflexivity | |]; intros E; apply Hn; auto.
  - rewrite lookup_insert_ne; [reflexivity|]. intros E. apply Hn. auto.
Qed.

Lemma fold_cmap_miss (ks : list char) (x : char) :
  (forall k, In k ks -> ~ hits k x) ->
  forall cmap, fold_left cmap_step ks cmap !! x = cmap !! x.
Proof.
  induction ks as [|k ks IH]; intros Hn cmap; [reflexivity|].
  simpl. rewrite IH by (intros k' Hk'; apply Hn; right; exact Hk').
  apply cmap_step_miss, Hn. left. reflexivity.
Qed.

(** The last key that writes an entry decides it. *)
Lemma fold_cmap_last (l1 l2 : list char) (k x : char) (cmap : gmap N string) :
  hits k x -> (forall k', In k' l2 -> ~ hits k' x) ->
  fold_left cmap_step (l1 ++ k :: l2) cmap !! x = Some (uni_name k).
Proof.
  intros Hk Hn. rewrite fold_left_app. simpl.
  rewrite fold_cmap_miss by exact Hn. apply cmap_step_hit, Hk.
Qed.

(** ** The case tables *)

Lemma isupper_range (c : char) : isupper c = true <-> (65 <= c <= 90)%N.
Proof. unfold isupper. rewrite andb_true_iff, !N.leb_le. reflexivity. Qed.

Lemma lower_char_upper (c : char) : isupper c = true -> lower_char c = (c + 32)%N.
Proof. intros H. unfold lower_char. rewrite H. reflexivity. Qed.

Lemma hits_cases (k x : char) :
  hits k x -> k = x \/ (isupper x = true /\ k = lower_char x).
Proof.
  intros [-> | [Hl ->]]; [left; reflexivity|]. right.
  pose proof (proj1 (islower_range k) Hl) as Hr.
  rewrite (upper_char_lower k Hl).
  assert (Hu : isupper (k - 32)%N = true) by (apply isupper_range; lia).
  split; [exact Hu|]. rewrite (lower_char_upper _ Hu). lia.
Qed.

Lemma hits_lower (C : char) : isupper C = true -> hits (lower_char C) C.
Proof.
  intros Hu. pose proof (proj1 (isupper_range C) Hu) as Hr.
  rewrite (lower_char_upper C Hu). right.
  assert (Hl : islower (C + 32)%N = true) by (apply islower_range; lia).
  split; [exact Hl|]. rewrite (upper_char_lower _ Hl). lia.
Qed.

Lemma case_of (c : char) :
  (isupper c = true /\ upper_char c = c /\ lower_char c <> c
   /\ islower (lower_char c) = true /\ upper_char (lower_char c) = c)
  \/ (islower c = true /\ lower_char c = c /\ isupper (upper_char c) = true
      /\ lower_char (upper_char c) = c /\ upper_char c <> c)
  \/ (isupper c = false /\ islower c = false
      /\ upper_char c = c /\ lower_char c = c).
Proof.
  destruct (isupper c) eqn:Hu; [left|].
  - pose proof (proj1 (isupper_range c) Hu) as Hr.
    assert (Hl : islower c = false).
    { destruct (islower c) eqn:E; [|reflexivity].
      apply islower_range in E. lia. }
    assert (Hll : islower (c + 32)%N = true) by (apply islower_range; lia).
    rewrite (lower_char_upper c Hu). unfold upper_char at 1. rewrite Hl.
    repeat split; [lia | exact Hll|].
    rewrite (upper_char_lower _ Hll). lia.
  - destruct (islower c) eqn:Hl; [right; left | right; right].
    + pose proof (proj1 (islower_range c) Hl) as Hr.
      assert (Huu : isupper (c - 32)%N = true) by (apply isupper_range; lia).
      rewrite (upper_char_lower c Hl). unfold lower_char at 1. rewrite Hu.
      repeat split; [exact Huu | | lia].
      rewrite (lower_char_upper _ Huu). lia.
    + unfold upper_char, lower_char. rewrite Hu, Hl. auto.
Qed.

(** ** Two keys of a mapping *)

Lemma two_members {A : Type} (a b : A) (l : list A) :
  In a l -> In b l -> a <> b ->
  ReadingOrderFacts.precedes a b l \/ ReadingOrderFacts.precedes b a l.
Proof.
  intros Ha Hb Hne.
  apply in_split in Ha as (l1 & l2 & ->).
  apply in_app_or in Hb as [Hb | [E | Hb]]; [| congruence |].
  - right. apply in_split in Hb as (m1 & m2 & ->).
    exists m1, m2, l2. rewrite <- app_assoc. reflexivity.
  - left. apply in_split in Hb as (m1 & m2 & ->).
    exists l1, m1, m2. reflexivity.
Qed.

Lemma NoDup_tail_free {A : Type} (l1 l2 : list A) (a : A) :
  NoDup (l1 ++ a :: l2) -> ~ In a l2 /\ ~ In a l1.
Proof.
  intros Hnd. apply NoDup_app in Hnd as (_ & Hdis & Hnd2).
  apply NoDup_cons in Hnd2 as [Ha _]. split.
  - intros H. apply Ha, list_elem_of_In, H.
  - intros H. apply (Hdis a); [apply list_elem_of_In, H | left].
Qed.

Section Map.

Variable ks : list char.
Hypothesis Hnd : NoDup ks.

Let cmap := fold_left cmap_step ks ({[32%N := "space"%string]} : gmap N string).

(** A code point that is no capital has the entry of its own key. *)
Lemma cmap_plain (x : char) :
  isupper x = false -> In x ks -> cmap !! x = Some (uni_name x).
Proof.
  intros Hu Hx. apply in_split in Hx as (l1 & l2 & E).
  unfold cmap. rewrite E. apply fold_cmap_last; [left; reflexivity|].
  intros k' Hk' Hh. apply hits_cases in Hh as [-> | [Hux _]]; [|congruence].
  rewrite E in Hnd. apply NoDup_tail_free in Hnd as [H _]. contradiction.
Qed.

Lemma cmap_absent (x : char) :
  isupper x = false -> ~ In x ks ->
  cmap !! x = ({[32%N := "space"%string]} : gmap N string) !! x.
Proof.
  intros Hu Hx. unfold cmap. apply fold_cmap_miss.
  intros k Hk Hh. apply hits_cases in Hh as [-> | [Hux _]]; [contradiction | congruence].
Qed.

(** A capital has the entry of whichever of it and its lowercase letter
    comes last. *)
Lemma cmap_capital_then_lower (C : char) :
  isupper C = true -> In (lower_char C) ks ->
  (In C ks -> ReadingOrderFacts.precedes C (lower_char C) ks) ->
  cmap !! C = Some (uni_name (lower_char C)).
Proof.
  intros Hu Hl Hord.
  destruct (case_of C) as [(_ & _ & Hne & _) | [(Hlc & _) | (Huc & _)]];
    [| apply islower_range in Hlc; apply isupper_range in Hu; lia | congruence].
  apply in_split in Hl as (l1 & l2 & E).
  unfold cmap. rewrite E. apply fold_cmap_last; [apply hits_lower; exact Hu|].
  intros k' Hk' Hh. rewrite E in Hnd.
  apply hits_cases in Hh as [-> | [_ ->]].
  - assert (HC : In C ks) by (rewrite E; apply in_or_app; right; right; exact Hk').
    destruct (Hord HC) as (m1 & m2 & m3 & E').
    rewrite E in E'.
    pose proof Hnd as Hnd'. rewrite E' in Hnd'.
    replace (m1 ++ C :: m2 ++ lower_char C :: m3)
      with ((m1 ++ C :: m2) ++ lower_char C :: m3) in Hnd', E'
      by (rewrite <- app_assoc; reflexivity).
    assert (Hl1 : l1 = m1 ++ C :: m2).
    { apply NoDup_tail_free in Hnd as [Hn2 Hn1].
      apply NoDup_tail_free in Hnd' as [Hn2' Hn1'].
      revert E' Hn1 Hn1'. generalize (m1 ++ C :: m2) as m. clear.
      induction l1 as [|a l1 IH]; intros [|b m] E Hn1 Hn1'; simpl in *.
      - reflexivity.
      - injection E as <- _. exfalso. apply Hn1'. left. reflexivity.
      - injection E as -> _. exfalso. apply Hn1. left. reflexivity.
      - injection E as -> E. f_equal. apply (IH m E); intros H; [apply Hn1 | apply Hn1']; right; exact H. }
    apply NoDup_app in Hnd as (_ & Hdis & _).
    apply (Hdis C).
    + rewrite Hl1. apply list_elem_of_In, in_or_app. right. left. reflexivity.
    + right. apply list_elem_of_In, Hk'.
  - apply NoDup_tail_free in Hnd as [H _]. contradiction.
Qed.

Lemma cmap_lower_then_capital (C : char) :
  isupper C = true -> ReadingOrderFacts.precedes (lower_char C) C ks ->
  cmap !! C = Some (uni_name C).
Proof.
  intros Hu (m1 & m2 & m3 & E).
  destruct (case_of C) as [(_ & _ & Hne & _) | [(Hlc & _) | (Huc & _)]];
    [| apply islower_range in Hlc; apply isupper_range in Hu; lia | congruence].
  unfold cmap. rewrite E.
  replace (m1 ++ lower_char C :: m2 ++ C :: m3)
    with ((m1 ++ lower_char C :: m2) ++ C :: m3)
    by (rewrite <- app_assoc; reflexivity).
  apply fold_cmap_last; [left; reflexivity|].
  intros k' Hk' Hh. rewrite E in Hnd.
  replace (m1 ++ lower_char C :: m2 ++ C :: m3)
    with ((m1 ++ lower_char C :: m2) ++ C :: m3) in Hnd
    by (rewrite <- app_assoc; reflexivity).
  apply hits_cases in Hh as [-> | [_ ->]].
  - apply NoDup_tail_free in Hnd as [Hn2 _]. contradiction.
  - apply NoDup_app in Hnd as (_ & Hdis & _).
    apply (Hdis (lower_char C)).
    + apply list_elem_of_In, in_or_app. right. left. reflexivity.
    + right. apply list_elem_of_In, Hk'.
Qed.

Lemma cmap_capital_alone (C : char) :
  isupper C = true -> In C ks -> ~ In (lower_char C) ks ->
  cmap !! C = Some (uni_name C).
Proof.
  intros Hu HC Hl. apply in_split in HC as (l1 & l2 & E).
  unfold cmap. rewrite E. apply fold_cmap_last; [left; reflexivity|].
  intros k' Hk' Hh. rewrite E in Hnd, Hl.
  apply hits_cases in Hh as [-> | [_ ->]].
  - apply NoDup_tail_free in Hnd as [H _]. contradiction.
  - apply Hl. apply in_or_app. right. right. exact Hk'.
Qed.

End Map.

(** C6, corrected. [build_cmap glyphs] is the [cmap] dict that
    [create_font] assembles.  For a mapping with ASCII keys: every
    supplied character has its uppercase and its lowercase code point on
    one glyph, and the space code point is on the space glyph, exactly
    when the space character is not supplied and every supplied capital
    has its lowercase letter supplied after it. *)
Theorem cmap_case_pairs (glyphs : dict char GlyphData) :
  NoDup (keys glyphs) ->
  isascii (keys glyphs) = true ->
  ((forall c, In c (keys glyphs) ->
      exists name, build_cmap glyphs !! upper_char c = Some name
                   /\ build_cmap glyphs !! lower_char c = Some name)
   /\ build_cmap glyphs !! 32%N = Some "space"%string)
  <-> (~ In 32%N (keys glyphs)
       /\ forall C, In C (keys glyphs) -> isupper C = true ->
            ReadingOrderFacts.precedes C (lower_char C) (keys glyphs)).
Proof.
  intros Hnd _. unfold build_cmap. set (ks := keys glyphs) in *.
  split.
  - intros [Hpair Hspace]. split.
    + intros H32.
      rewrite (cmap_plain ks Hnd 32%N eq_refl H32) in Hspace.
      apply (proj2 (uni_name_not_reserved 32%N)). congruence.
    + intros C HC Hu.
      destruct (Hpair C HC) as (name & Hup & Hlo).
      destruct (case_of C) as [(_ & EC & Hne & Hl & _) | [(Hlc & _) | (Huc & _)]];
        [| apply islower_range in Hlc; apply isupper_range in Hu; lia | congruence].
      rewrite EC in Hup.
      assert (Hnu : isupper (lower_char C) = false).
      { destruct (isupper (lower_char C)) eqn:E; [|reflexivity].
        apply isupper_range in E. apply islower_range in Hl. lia. }
      destruct (in_dec N.eq_dec (lower_char C) ks) as [Hin | Hout].
      * destruct (two_members C (lower_char C) ks HC Hin (not_eq_sym Hne))
          as [Hp | Hp]; [exact Hp|].
        rewrite (cmap_lower_then_capital ks Hnd C Hu Hp) in Hup.
        rewrite (cmap_plain ks Hnd _ Hnu Hin) in Hlo.
        rewrite <- Hlo in Hup.
        assert (E : uni_name C = uni_name (lower_char C)) by congruence.
        apply uni_name_inj in E. congruence.
      * rewrite (cmap_absent ks _ Hnu Hout) in Hlo.
        rewrite lookup_singleton_ne in Hlo; [discriminate|].
        apply islower_range in Hl. lia.
  - intros [H32 Hord]. split.
    + intros c Hc.
      destruct (case_of c) as [(Hu & EC & _ & Hl & _)
                              | [(Hl & Elo & Hu & Eback & _) | (Hu & _ & Eup & Elo)]].
      * exists (uni_name (lower_char c)). rewrite EC.
        assert (Hnu : isupper (lower_char c) = false).
        { destruct (isupper (lower_char c)) eqn:E; [|reflexivity].
          apply isupper_range in E. apply islower_range in Hl. lia. }
        pose proof (Hord c Hc Hu) as Hp.
        assert (Hin : In (lower_char c) ks).
        { destruct Hp as (l1 & l2 & l3 & E). rewrite E.
          apply in_or_app. right. right. apply in_or_app. right. left. reflexivity. }
        split.
        -- apply (cmap_capital_then_lower ks Hnd c Hu Hin). intros _. exact Hp.
        -- apply (cmap_plain ks Hnd _ Hnu Hin).
      * exists (uni_name c). rewrite Elo.
        assert (Hnu : isupper c = false).
        { destruct (isupper c) eqn:E; [|reflexivity].
          apply isupper_range in E. apply islower_range in Hl. lia. }
        split.
        -- rewrite <- Eback at 2.
           apply (cmap_capital_then_lower ks Hnd _ Hu).
           ++ rewrite Eback. exact Hc.
           ++ intros HU. apply Hord; assumption.
        -- apply (cmap_plain ks Hnd c Hnu Hc).
      * exists (uni_name c). rewrite Eup, Elo.
        split; apply (cmap_plain ks Hnd c Hu Hc).
    + rewrite (cmap_absent ks 32%N eq_refl H32). apply lookup_singleton_eq.
Qed.

(** The letter a and the digit 1 supplied: both of each character's case
    forms are on its glyph, and the space is on the space glyph. *)
Lemma cmap_case_pairs_witness :
  build_cmap [(97%N, blank_glyph); (49%N, blank_glyph)] !! 65%N = Some "uni0061"%string
  /\ build_cmap [(97%N, blank_glyph); (49%N, blank_glyph)] !! 97%N = Some "uni0061"%string
  /\ build_cmap [(97%N, blank_glyph); (49%N, blank_glyph)] !! 49%N = Some "uni0031"%string
  /\ build_cmap [(97%N, blank_glyph); (49%N, blank_glyph)] !! 32%N = Some "space"%string.
Proof.
  assert (Hnd : NoDup (keys [(97%N, blank_glyph); (49%N, blank_glyph)])).
  { apply NoDup_ListNoDup. repeat constructor; simpl; intuition discriminate. }
  assert (Hascii : isascii (keys [(97%N, blank_glyph); (49%N, blank_glyph)]) = true)
    by reflexivity.
  destruct (proj2 (cmap_case_pairs [(97%N, blank_glyph); (49%N, blank_glyph)]
                     Hnd Hascii)) as [Hpair Hspace].
  - split.
    + simpl. intros [H | [H | []]]; discriminate.
    + simpl. intros C [<- | [<- | []]] H; discriminate.
  - destruct (Hpair 97%N (or_introl eq_refl)) as (n1 & Hu1 & Hl1).
    destruct (Hpair 49%N (or_intror (or_introl eq_refl))) as (n2 & Hu2 & Hl2).
    change (upper_char 97) with 65%N in Hu1. change (lower_char 97) with 97%N in Hl1.
    change (lower_char 49) with 49%N in Hl2.
    assert (E1 : build_cmap [(97%N, blank_glyph); (49%N, blank_glyph)] !! 97%N
                 = Some "uni0061"%string) by (vm_compute; reflexivity).
    assert (E2 : build_cmap [(97%N, blank_glyph); (49%N, blank_glyph)] !! 49%N
                 = Some "uni0031"%string) by (vm_compute; reflexivity).
    rewrite Hl1 in E1. rewrite Hl2 in E2.
    rewrite Hu1, Hl1, Hl2, E1, E2.
    split; [reflexivity|]. split; [reflexivity|]. split; [reflexivity | exact Hspace].
Defined.

End CmapFacts.

(** * preprocess.py: what the removal of small components does to a mask *)

Module RemovalFacts.

Import Preprocess PreprocessFacts.

(** ** Shape *)

Lemma assign_where_shape (result : Mask) (i : nat) (v : Z) :
  forall labels : Labels,
    map length labels = map length result ->
    map length (assign_where result labels i v) = map length result.
Proof.
  unfold assign_where.
  induction result as [|row result IH]; intros [|lrow labels]; simpl;
    try discriminate; [reflexivity|].
  intros [= Hrow Hrest]. f_equal; [|apply IH; exact Hrest].
  rewrite length_zip_with. lia.
Qed.

Lemma fold_paint_shape (labels : Labels) (stats : list Stat) (min_area : Z)
    (idx : list nat) :
  forall result,
    map length labels = map length result ->
    map length (fold_left (paint labels stats min_area) idx result)
    = map length result.
Proof.
  induction idx as [|i idx IH]; intros result Hshape; [reflexivity|].
  simpl.
  assert (Hp : map length (paint labels stats min_area result i) = map length result).
  { unfold paint. destruct (min_area <=? area_of stats i); [|reflexivity].
    apply assign_where_shape. exact Hshape. }
  rewrite IH; [exact Hp | congruence].
Qed.

Lemma zeros_like_shape (m : Mask) : map length (zeros_like m) = map length m.
Proof.
  unfold zeros_like. rewrite map_map. apply map_ext. intros row.
  apply length_map.
Qed.

Section Removal.

Variable connectedComponentsWithStats : Mask -> Z -> nat * Labels * list Stat.
Variable binary : Mask.
Hypothesis Hspec : cc_spec binary (connectedComponentsWithStats binary 8).

Let labels := (connectedComponentsWithStats binary 8).1.2.
Let stats := (connectedComponentsWithStats binary 8).2.
Let out := remove_small_components connectedComponentsWithStats binary.

Lemma out_shape (min_area : Z) : map length (out min_area) = map length binary.
Proof.
  unfold out, remove_small_components.
  pose proof (cc_shape _ _ Hspec) as Hshape.
  destruct (connectedComponentsWithStats binary 8) as [[n0 labels0] stats0].
  simpl in Hshape.
  change (fold_left _ (seq 1 (n0 - 1)) (zeros_like binary))
    with (fold_left (paint labels0 stats0 min_area) (seq 1 (n0 - 1))
                    (zeros_like binary)).
  rewrite fold_paint_shape; rewrite zeros_like_shape; [reflexivity | exact Hshape].
Qed.

Lemma out_values (min_area : Z) (p : Pixel) :
  px (out min_area) p = 0 \/ px (out min_area) p = 255.
Proof.
  destruct p as [r c]. unfold px, out. simpl.
  rewrite (out_pixel _ _ _ Hspec).
  destruct (pixel binary r c); simpl; [|left; reflexivity].
  match goal with |- context [if ?b then _ else _] => destruct b end; auto.
Qed.

(** The pixels labelled like a foreground pixel include that pixel. *)
Lemma fg_area_pos (p : Pixel) :
  fg binary p -> 1 <= area_of stats (label_at labels p).
Proof.
  intros Hfg.
  pose proof (fg_label_range _ _ Hspec p Hfg) as Hr.
  unfold area_of, stats. rewrite (cc_area _ _ Hspec) by exact (proj2 Hr).
  assert (Hin : p ∈ pixels_labelled (connectedComponentsWithStats binary 8).1.2
                     (label_at labels p)).
  { apply elem_of_pixels_labelled; [|reflexivity].
    intros E. destruct Hr as [Hr _]. unfold labels in E. rewrite E in Hr. lia. }
  destruct (pixels_labelled _ _) as [|q l]; [inversion Hin | simpl; lia].
Qed.

End Removal.

(** Under the contract of the labelling routine,
    [remove_small_components] returns a mask of the shape of its input
    whose pixels are 0 or 255, and whose non-zero pixels are non-zero in
    the input: it only erases. *)
Theorem remove_small_components_only_erases
    (connectedComponentsWithStats : Mask -> Z -> nat * Labels * list Stat)
    (binary : Mask) (min_area : Z) :
  cc_spec binary (connectedComponentsWithStats binary 8) ->
  let out := remove_small_components connectedComponentsWithStats binary min_area in
  map length out = map length binary
  /\ (forall p, px out p = 0 \/ px out p = 255)
  /\ (forall p, fg out p -> fg binary p).
Proof.
  intros Hspec out. repeat split.
  - apply out_shape. exact Hspec.
  - apply out_values. exact Hspec.
  - intros p Hfg. apply (out_fg _ _ _ Hspec) in Hfg. tauto.
Qed.

Lemma remove_small_components_only_erases_witness :
  map length (remove_small_components sample_labelling sample_cleaned 50)
  = map length sample_cleaned.
Proof.
  exact (proj1 (remove_small_components_only_erases sample_labelling
                  sample_cleaned 50 sample_labelling_spec)).
Defined.

(** A larger threshold erases more, and a threshold of one pixel or less
    erases nothing of the foreground. *)
Theorem remove_small_components_threshold
    (connectedComponentsWithStats : Mask -> Z -> nat * Labels * list Stat)
    (binary : Mask) (min_area1 min_area2 : Z) :
  cc_spec binary (connectedComponentsWithStats binary 8) ->
  min_area1 <= min_area2 ->
  let out := remove_small_components connectedComponentsWithStats binary in
  (forall p, fg (out min_area2) p -> fg (out min_area1) p)
  /\ (min_area1 <= 1 -> forall p, fg (out min_area1) p <-> fg binary p).
Proof.
  intros Hspec Hle out. split.
  - intros p Hfg. apply (out_fg _ _ _ Hspec) in Hfg as [Hfg Ha].
    apply (out_fg _ _ _ Hspec). split; [exact Hfg | lia].
  - intros H1 p. unfold out. rewrite (out_fg _ _ _ Hspec). split; [tauto|].
    intros Hfg. split; [exact Hfg|].
    pose proof (fg_area_pos _ _ Hspec p Hfg). lia.
Qed.

Lemma remove_small_components_threshold_witness :
  fg (remove_small_components sample_labelling sample_cleaned 1) (0%nat, 51%nat)
  <-> fg sample_cleaned (0%nat, 51%nat).
Proof.
  refine (proj2 (remove_small_components_threshold sample_labelling
                   sample_cleaned 1 50 sample_labelling_spec _) _ (0%nat, 51%nat));
    lia.
Defined.

Lemma mask_px_ext (a b : Mask) :
  map length a = map length b -> (forall p, px a p = px b p) -> a = b.
Proof.
  intros Hshape Hpx. apply VectorizeFacts.mask_ext; [exact Hshape|].
  intros r c. pose proof (same_shape_is_Some a b r c Hshape) as Hs.
  specialize (Hpx (r, c)). unfold px in Hpx. simpl in Hpx.
  destruct (pixel a r c) as [x|], (pixel b r c) as [y|]; simpl in Hpx.
  - congruence.
  - exfalso. apply (is_Some_None (A := Z)), Hs. eauto.
  - exfalso. apply (is_Some_None (A := Z)), Hs. eauto.
  - reflexivity.
Qed.

(** Removing the small components a second time, with the same
    threshold, changes nothing. *)
Theorem remove_small_components_idempotent
    (connectedComponentsWithStats : Mask -> Z -> nat * Labels * list Stat)
    (binary : Mask) (min_area : Z) :
  let out := remove_small_components connectedComponentsWithStats binary min_area in
  cc_spec binary (connectedComponentsWithStats binary 8) ->
  cc_spec out (connectedComponentsWithStats out 8) ->
  remove_small_components connectedComponentsWithStats out min_area = out.
Proof.
  intros out Hspec Hspec2.
  apply mask_px_ext; [apply out_shape; exact Hspec2|].
  intros p. destruct (Z.eq_dec (px out p) 0) as [E | E].
  - rewrite E. apply (out_removed _ _ _ Hspec2). left. intros Hfg. exact (Hfg E).
  - assert (Hfg : fg out p) by exact E.
    destruct (out_values _ _ Hspec min_area p) as [H0 | H255]; [contradiction|].
    fold out in H255. rewrite H255.
    apply (out_kept _ _ _ Hspec2); [exact Hfg|].
    destruct (proj1 (remove_small_components_spec _ _ min_area Hspec) p Hfg)
      as (comp & Hnd & Hlen & Hconn).
    pose proof (fg_label_range _ _ Hspec2 p Hfg) as Hr.
    unfold area_of. rewrite (cc_area _ _ Hspec2) by exact (proj2 Hr).
    etransitivity; [exact Hlen|]. apply inj_le.
    apply submseteq_length, NoDup_submseteq; [exact Hnd|].
    intros q Hq. apply elem_of_pixels_labelled.
    + intros E0. destruct Hr as [Hr _]. rewrite E0 in Hr. lia.
    + symmetry. apply (connected8_label _ _ Hspec2). apply Hconn. exact Hq.
Qed.

Lemma remove_small_components_idempotent_witness :
  remove_small_components sample_labelling
    (remove_small_components sample_labelling sample_cleaned 1) 1
  = remove_small_components sample_labelling sample_cleaned 1.
Proof.
  exact (remove_small_components_idempotent sample_labelling sample_cleaned 1
           sample_labelling_spec sample_labelling_spec).
Defined.

End RemovalFacts.

(** * main.py: what the request handlers answer *)

Module HandlerFacts.

Import Vectorize Fontgen Preprocess PreprocessGlyph Handlers Pangrams.
Import PangramFacts.

(** ** Dictionaries *)

Lemma keys_dict_set {V : Type} (k : char) (v : V) (d : dict char V) :
  keys (dict_set k v d) = if bool_decide (k ∈ keys d) then keys d else keys d ++ [k].
Proof.
  unfold keys. induction d as [|[k' v'] d IH].
  - rewrite bool_decide_eq_false_2 by (intros H; inversion H). reflexivity.
  - cbn [dict_set map fst].
    destruct (bool_decide_reflect (k = k')) as [-> | Hne].
    + rewrite bool_decide_eq_true_2 by left. reflexivity.
    + cbn [map fst]. rewrite IH.
      destruct (bool_decide_reflect (k ∈ map fst d)) as [Hin | Hout].
      * rewrite bool_decide_eq_true_2 by (right; exact Hin). reflexivity.
      * rewrite bool_decide_eq_false_2; [reflexivity|].
        intros H. apply elem_of_cons in H as [E | H]; [congruence | contradiction].
Qed.

Lemma length_keys {K V : Type} (d : dict K V) : length (keys d) = length d.
Proof. unfold keys. apply length_map. Qed.

Lemma NoDup_keys_dict_set {V : Type} (k : char) (v : V) (d : dict char V) :
  NoDup (keys d) -> NoDup (keys (dict_set k v d)).
Proof.
  intros Hnd. rewrite keys_dict_set.
  destruct (bool_decide_reflect (k ∈ keys d)) as [Hin | Hout]; [exact Hnd|].
  apply NoDup_app. split; [exact Hnd|]. split.
  - intros x Hx Hk. apply list_elem_of_singleton in Hk as ->. contradiction.
  - apply NoDup_singleton.
Qed.

Lemma elem_of_keys_dict_set {V : Type} (k : char) (v : V) (d : dict char V) (x : char) :
  x ∈ keys (dict_set k v d) <-> x = k \/ x ∈ keys d.
Proof.
  rewrite keys_dict_set.
  destruct (bool_decide_reflect (k ∈ keys d)) as [Hin | Hout].
  - split; [auto | intros [-> | H]; assumption].
  - rewrite elem_of_app, list_elem_of_singleton. tauto.
Qed.

Lemma keys_fold_dict_set {V : Type} (pairs : list (char * V)) :
  forall d : dict char V,
    NoDup (keys d ++ map fst pairs) ->
    keys (fold_left (fun d cb => dict_set cb.1 cb.2 d) pairs d)
    = keys d ++ map fst pairs.
Proof.
  induction pairs as [|[k v] pairs IH]; intros d Hnd; simpl.
  - rewrite app_nil_r. reflexivity.
  - simpl in Hnd.
    assert (Hk : k ∉ keys d).
    { apply NoDup_app in Hnd as (_ & Hdis & _). intros Hin.
      apply (Hdis k Hin). left. }
    assert (Ek : keys (dict_set k v d) = keys d ++ [k]).
    { rewrite keys_dict_set, bool_decide_eq_false_2 by exact Hk. reflexivity. }
    rewrite IH; rewrite Ek, <- app_assoc; [reflexivity | exact Hnd].
Qed.

Lemma keys_dict_of_pairs {V : Type} (pairs : list (char * V)) :
  NoDup (map fst pairs) -> keys (dict_of_pairs pairs) = map fst pairs.
Proof. intros Hnd. unfold dict_of_pairs. rewrite keys_fold_dict_set; auto. Qed.

Lemma get_unique_chars_nil (pangram : str) :
  get_unique_chars pangram = [] <-> letters pangram = [].
Proof.
  rewrite get_unique_chars_first_seen.
  destruct (letters pangram) as [|a l]; [tauto|].
  simpl. rewrite bool_decide_eq_false_2 by apply not_elem_of_empty.
  split; discriminate.
Qed.

(** The letter a form field of [process_drawn_glyphs] stands for, as the
    loop decides it. *)
Definition field_char (key : str) : option char :=
  if startswith key (str_of "char_") && (length key =? 6)%nat
  then
    let char := lower (drop 5 key) in
    if forallb isalpha char && (length char =? 1)%nat
    then match char with
         | [c] => Some c
         | _ => None
         end
    else None
  else None.

Lemma field_char_Some (key : str) (c : char) :
  field_char key = Some c
  <-> exists x, key = str_of "char_" ++ [x] /\ isalpha x = true /\ c = lower_char x.
Proof.
  unfold field_char, startswith. split.
  - destruct (bool_decide_reflect (take (length (str_of "char_")) key = str_of "char_"))
      as [Hpre | Hpre]; [|discriminate].
    destruct (Nat.eqb_spec (length key) 6) as [Hlen | Hlen]; [|discriminate].
    cbn [andb].
    rewrite <- (take_drop 5 key) in Hlen. rewrite length_app in Hlen.
    change (length (str_of "char_")) with 5%nat in Hpre.
    rewrite Hpre in Hlen. simpl in Hlen.
    destruct (drop 5 key) as [|x [|y l]] eqn:Ed; simpl in Hlen; try lia.
    simpl. destruct (isalpha (lower_char x)) eqn:Ea; [|discriminate].
    intros [= <-]. exists x. rewrite isalpha_lower_char in Ea.
    repeat split; [|exact Ea].
    rewrite <- (take_drop 5 key), Hpre, Ed. reflexivity.
  - intros (x & -> & Ha & ->).
    rewrite bool_decide_eq_true_2 by reflexivity.
    simpl. rewrite isalpha_lower_char, Ha. reflexivity.
Qed.

(** ** The handlers *)

Section Handlers.

Variable imdecode : bytes -> result (option Image).
Variable cvtColor : Image -> Mask.
Variable GaussianBlur : Mask -> Z * Z -> Z -> Mask.
Variable adaptiveThreshold : Mask -> Z -> Z -> Z -> Mask.
Variable threshold : Mask -> Z -> Z -> Mask.
Variable morphologyEx : Mask -> Z * Z -> Z -> Mask.
Variable connectedComponentsWithStats : Mask -> Z -> nat * Labels * list Stat.
Variable findContoursExternal : Mask -> list Contour.
Variable findContoursCcomp : Mask -> list Contour * option (list HierarchyRow).
Variable approxPolyDP : Contour -> Q -> bool -> Contour.
Variable not_serializable : string.

Let load_image_from_bytes := load_image_from_bytes imdecode.

(** The decoder fails in two ways: with its own exception, or with the
    [ValueError] raised for [None]. *)
Lemma load_image_from_bytes_cases (data : bytes) :
  match load_image_from_bytes data with
  | Ok img => imdecode data = Ok (Some img)
  | Raise e =>
      imdecode data = Raise e
      \/ (imdecode data = Ok None /\ e = ValueError "Could not decode image data")
  end.
Proof.
  unfold load_image_from_bytes, PreprocessGlyph.load_image_from_bytes.
  destruct (imdecode data) as [[img|]|e]; cbn; auto.
Qed.

Let process_pangram :=
  process_pangram imdecode cvtColor GaussianBlur adaptiveThreshold morphologyEx
    connectedComponentsWithStats findContoursExternal findContoursCcomp
    approxPolyDP.

(** For an ASCII phrase, an answer of [process_pangram] lists at least
    one character; the characters listed are distinct, they are the
    first letters of [get_unique_chars(pangram)] in that order,
    [total_chars] is their number, and the image was decoded. *)
Theorem process_pangram_response (image_data : bytes) (pangram : str)
    (resp : FontResponse) :
  isascii pangram = true ->
  process_pangram image_data pangram = Ok resp ->
  chars_found resp <> []
  /\ NoDup (chars_found resp)
  /\ chars_found resp `prefix_of` get_unique_chars pangram
  /\ total_chars resp = length (chars_found resp)
  /\ exists img, imdecode image_data = Ok (Some img).
Proof.
  intros _.
  unfold process_pangram, Handlers.process_pangram.
  fold (load_image_from_bytes image_data).
  pose proof (load_image_from_bytes_cases image_data) as Hload.
  destruct (load_image_from_bytes image_data) as [img|e0]; [|discriminate].
  destruct (Segment.segment_characters _ _ pangram) as [pairs|e] eqn:Eseg;
    [|discriminate].
  apply segment_characters_keys in Eseg as [Hnd Hpre].
  destruct pairs as [|pair pairs]; [discriminate|].
  destruct (create_font_from_chars _ _ _) as [[ttf_bytes woff2_bytes]|e];
    [|discriminate].
  intros [= <-]. cbn [chars_found total_chars].
  assert (Elen : length (dict_of_pairs (pair :: pairs))
                 = length (keys (dict_of_pairs (pair :: pairs))))
    by (unfold keys; rewrite length_map; reflexivity).
  rewrite Elen, (keys_dict_of_pairs _ Hnd).
  split; [simpl; discriminate|].
  split; [exact Hnd|]. split; [exact Hpre|]. split; [reflexivity | eauto].
Qed.

(** For an ASCII phrase, [process_pangram] fails with an [HTTPException]
    only.  The status is 400 exactly when the image cannot be loaded,
    the detail then being "Invalid image: " followed by the text of the
    exception, which is the decoder's own or the [ValueError] raised for
    an undecodable image; otherwise the status is 422 or 500.  The 422
    answer that no character could be segmented is given only for a
    phrase without letters. *)
Theorem process_pangram_failures (image_data : bytes) (pangram : str) (e : exn) :
  isascii pangram = true ->
  process_pangram image_data pangram = Raise e ->
  exists status detail,
    e = HTTPException status detail
    /\ (status = 400
        /\ (exists e0,
              load_image_from_bytes image_data = Raise e0
              /\ detail = String.append "Invalid image: " (str_exn e0)
              /\ (imdecode image_data = Raise e0
                  \/ (imdecode image_data = Ok None
                      /\ e0 = ValueError "Could not decode image data")))
        \/ (status = 422 \/ status = 500)
           /\ exists img, imdecode image_data = Ok (Some img))
    /\ (detail = "No characters could be segmented from the image. Try writing larger and with more spacing."%string ->
        get_unique_chars pangram = []).
Proof.
  intros _.
  unfold process_pangram, Handlers.process_pangram.
  fold (load_image_from_bytes image_data).
  pose proof (load_image_from_bytes_cases image_data) as Hload.
  destruct (load_image_from_bytes image_data) as [img|e0].
  2:{ intros [= <-]. eexists _, _. split; [reflexivity|].
      split; [left; split; [reflexivity | exists e0; auto]|].
      change (String.append "Invalid image: " ?x)
        with (String "I" (String.append "nvalid image: " x)).
      discriminate. }
  destruct (Segment.segment_characters _ _ pangram) as [pairs|e1] eqn:Eseg.
  2:{ intros [= <-]. eexists _, _. split; [reflexivity|].
      split; [right; split; [left; reflexivity | eauto]|].
      change (String.append "Character segmentation failed: " ?x)
        with (String "C" (String.append "haracter segmentation failed: " x)).
      discriminate. }
  apply SegmentCountFacts.segment_characters_lengths in Eseg as (_ & _ & Hnil).
  destruct pairs as [|pair pairs].
  { intros [= <-]. eexists _, _. split; [reflexivity|].
    split; [right; split; [left; reflexivity | eauto]|].
    intros _. apply get_unique_chars_nil, Hnil. reflexivity. }
  destruct (create_font_from_chars _ _ _) as [[ttf_bytes woff2_bytes]|e1];
    [discriminate|].
  intros [= <-]. eexists _, _. split; [reflexivity|].
  split; [right; split; [right; reflexivity | eauto]|].
  change (String.append "Font generation failed: " ?x)
    with (String "F" (String.append "ont generation failed: " x)).
  discriminate.
Qed.

Let preprocess_single_glyph :=
  preprocess_single_glyph imdecode cvtColor threshold morphologyEx.

Lemma preprocess_single_glyph_cases (data : bytes) :
  match load_image_from_bytes data with
  | Ok img =>
      preprocess_single_glyph data
      = Ok (morphologyEx (threshold (cvtColor img) 0 255) (2, 2) 1)
  | Raise e => preprocess_single_glyph data = Raise e
  end.
Proof.
  unfold preprocess_single_glyph, PreprocessGlyph.preprocess_single_glyph.
  fold (load_image_from_bytes data).
  destruct (load_image_from_bytes data); reflexivity.
Qed.

(** The glyph of a drawing, as [process_glyph_endpoint] computes it
    inside its [try]. *)
Definition drawn_glyph (image_data : bytes) : result GlyphData :=
  binary ← preprocess_single_glyph image_data;
  Vectorize64.process_glyph_bitmap findContoursCcomp approxPolyDP
    (Segment.extract_single_glyph binary).

Let process_glyph_endpoint :=
  process_glyph_endpoint imdecode cvtColor threshold morphologyEx
    findContoursCcomp approxPolyDP not_serializable.

(** [process_glyph_endpoint], for an ASCII [character].  The character
    is checked before the image is looked at: anything but a single
    letter is answered 400.  For a letter, a failure of the pipeline is
    answered 422 with the text of the exception (an undecodable image:
    "Could not decode image data").  A glyph with at least one path is
    not answered: encoding it raises a [TypeError] outside the [try].
    An answer is given for a drawing whose glyph has no path; it carries
    the letter in lower case and that glyph. *)
Theorem process_glyph_endpoint_cases (image_data : bytes) (character : str) :
  isascii character = true ->
  match process_glyph_endpoint image_data character with
  | Ok resp =>
      exists c img,
        character = [c] /\ isalpha c = true
        /\ Handlers.character resp = [lower_char c]
        /\ imdecode image_data = Ok (Some img)
        /\ drawn_glyph image_data = Ok (glyph_data resp)
        /\ paths (glyph_data resp) = []
  | Raise e =>
      (e = HTTPException 400 "Character must be a single letter"
       /\ forall c, character = [c] -> isalpha c = false)
      \/ (exists c e0,
            character = [c] /\ isalpha c = true
            /\ drawn_glyph image_data = Raise e0
            /\ e = HTTPException 422
                     (String.append "Glyph processing failed: " (str_exn e0))
            /\ (imdecode image_data = Ok None ->
                e0 = ValueError "Could not decode image data"))
      \/ (exists c g,
            character = [c] /\ isalpha c = true
            /\ drawn_glyph image_data = Ok g
            /\ paths g <> []
            /\ e = TypeError not_serializable)
  end.
Proof.
  intros _.
  unfold process_glyph_endpoint, Handlers.process_glyph_endpoint.
  destruct character as [|c [|c' rest]].
  - left. split; [reflexivity | discriminate].
  - cbn [length Nat.eqb negb orb forallb andb]. rewrite andb_true_r.
    destruct (isalpha c) eqn:Ea; cbn [negb].
    2:{ left. split; [reflexivity|]. intros c0 [= <-]. exact Ea. }
    match goal with
    | |- match match ?p with _ => _ end with _ => _ end =>
        change p with (drawn_glyph image_data)
    end.
    pose proof (preprocess_single_glyph_cases image_data) as Hpre.
    pose proof (load_image_from_bytes_cases image_data) as Hload.
    destruct (drawn_glyph image_data) as [g|e0] eqn:Eg.
    + destruct (paths g) as [|pg pgs] eqn:Ep; lazy beta iota.
      * unfold drawn_glyph in Eg. cbn [glyph_data Handlers.character].
        destruct (load_image_from_bytes image_data) as [img|e1].
        -- exists c, img. repeat split; assumption.
        -- rewrite Hpre in Eg. discriminate.
      * right. right. exists c, g. repeat split; try assumption.
        rewrite Ep. discriminate.
    + lazy beta iota. right. left. exists c, e0. repeat split; try assumption.
      intros Hnone. unfold drawn_glyph in Eg.
      destruct (load_image_from_bytes image_data) as [img|e1].
      * congruence.
      * rewrite Hpre in Eg. cbn in Eg. injection Eg as <-.
        destruct Hload as [H | [_ H]]; [congruence | exact H].
  - left. split; [|discriminate].
    cbn [length Nat.eqb negb orb]. reflexivity.
Qed.

(** What the loop of [process_drawn_glyphs] makes of the value of a
    field it has accepted. *)
Definition field_bitmap (value : FormValue) : result Mask :=
  image_data ← read value;
  binary ← preprocess_single_glyph image_data;
  Ok (Segment.extract_single_glyph binary).

Let collect_drawn :=
  collect_drawn imdecode cvtColor threshold morphologyEx.

Lemma collect_drawn_cons (key : str) (value : FormValue)
    (rest : dict str FormValue) (char_bitmaps : dict char Mask) :
  collect_drawn ((key, value) :: rest) char_bitmaps
  = match field_char key with
    | None => collect_drawn rest char_bitmaps
    | Some c =>
        binary ← field_bitmap value;
        collect_drawn rest (dict_set c binary char_bitmaps)
    end.
Proof.
  unfold collect_drawn, field_bitmap, preprocess_single_glyph, field_char.
  cbn [Handlers.collect_drawn].
  destruct (startswith key (str_of "char_") && (length key =? 6)%nat);
    [|reflexivity].
  cbv zeta.
  destruct (lower (drop 5 key)) as [|c [|c' l]].
  - reflexivity.
  - cbn [forallb length Nat.eqb andb]. rewrite andb_true_r.
    destruct (isalpha c); [|reflexivity].
    destruct (read value) as [data|e]; [|reflexivity].
    cbn [mbind result_mbind result_bind].
    destruct (PreprocessGlyph.preprocess_single_glyph _ _ _ _ data); reflexivity.
  - cbn [length Nat.eqb]. rewrite andb_false_r. reflexivity.
Qed.

(** A field whose value cannot be turned into a bitmap: a text field, or
    an upload that does not decode. *)
Lemma field_bitmap_Raise (value : FormValue) (e : exn) :
  field_bitmap value = Raise e ->
  (exists text, value = TextField text
                /\ e = AttributeError "'str' object has no attribute 'read'")
  \/ (exists data, value = UploadFile data
                   /\ (imdecode data = Raise e
                       \/ (imdecode data = Ok None
                           /\ e = ValueError "Could not decode image data"))).
Proof.
  unfold field_bitmap. destruct value as [data|text]; cbn.
  - intros H. right. exists data. split; [reflexivity|].
    pose proof (preprocess_single_glyph_cases data) as Hpre.
    pose proof (load_image_from_bytes_cases data) as Hload.
    destruct (load_image_from_bytes data) as [img|e1].
    + rewrite Hpre in H. discriminate.
    + rewrite Hpre in H. cbn in H. injection H as <-. exact Hload.
  - intros [= <-]. left. eauto.
Qed.

Lemma field_bitmap_Ok (value : FormValue) (binary : Mask) :
  field_bitmap value = Ok binary ->
  exists data img, value = UploadFile data /\ imdecode data = Ok (Some img).
Proof.
  unfold field_bitmap. destruct value as [data|text]; cbn; [|discriminate].
  intros H. exists data.
  pose proof (preprocess_single_glyph_cases data) as Hpre.
  pose proof (load_image_from_bytes_cases data) as Hload.
  destruct (load_image_from_bytes data) as [img|e1].
  - eauto.
  - rewrite Hpre in H. discriminate.
Qed.

Lemma collect_drawn_Ok (form : dict str FormValue) :
  forall d d',
    collect_drawn form d = Ok d' ->
    (forall c, c ∈ keys d'
               <-> c ∈ keys d
                   \/ exists key value, In (key, value) form /\ field_char key = Some c)
    /\ (NoDup (keys d) -> NoDup (keys d'))
    /\ (forall key value c, In (key, value) form -> field_char key = Some c ->
                            exists binary, field_bitmap value = Ok binary).
Proof.
  induction form as [|[key value] rest IH]; intros d d'.
  - intros [= <-]. repeat split; auto.
    + intros [H | (key & value & [] & _)]; exact H.
    + intros key value c [].
  - rewrite collect_drawn_cons.
    destruct (field_char key) as [c0|] eqn:Ef.
    + destruct (field_bitmap value) as [binary|e0] eqn:Eb;
        cbn [mbind result_mbind result_bind]; [|discriminate].
      intros H. apply IH in H as (Hkeys & Hnd & Hdec). repeat split.
      * intros Hc. apply Hkeys in Hc as [Hc | (k & dt & Hin & Hk)].
        -- apply elem_of_keys_dict_set in Hc as [-> | Hc]; [|auto].
           right. exists key, value. split; [left; reflexivity | exact Ef].
        -- right. exists k, dt. split; [right; exact Hin | exact Hk].
      * intros [Hc | (k & dt & [[= <- <-] | Hin] & Hk)]; apply Hkeys.
        -- left. apply elem_of_keys_dict_set. auto.
        -- left. apply elem_of_keys_dict_set. left. congruence.
        -- right. eauto.
      * intros Hd. apply Hnd, NoDup_keys_dict_set, Hd.
      * intros k dt c [[= <- <-] | Hin] Hk; [eauto | eapply Hdec; eauto].
    + intros H. apply IH in H as (Hkeys & Hnd & Hdec). repeat split.
      * intros Hc. apply Hkeys in Hc as [Hc | (k & dt & Hin & Hk)]; [auto|].
        right. exists k, dt. split; [right; exact Hin | exact Hk].
      * intros [Hc | (k & dt & [[= <- <-] | Hin] & Hk)]; apply Hkeys; [auto | | eauto].
        congruence.
      * exact Hnd.
      * intros k dt c [[= <- <-] | Hin] Hk; [congruence | eapply Hdec; eauto].
Qed.

Lemma collect_drawn_Raise (form : dict str FormValue) :
  forall d e,
    collect_drawn form d = Raise e ->
    exists key value c,
      In (key, value) form /\ field_char key = Some c
      /\ field_bitmap value = Raise e.
Proof.
  induction form as [|[key value] rest IH]; intros d e; [discriminate|].
  rewrite collect_drawn_cons.
  destruct (field_char key) as [c0|] eqn:Ef.
  - destruct (field_bitmap value) as [binary|e0] eqn:Eb;
      cbn [mbind result_mbind result_bind].
    + intros H. apply IH in H as (k & dt & c & Hin & Hk & Hn).
      exists k, dt, c. repeat split; [right|..]; assumption.
    + intros [= <-].
      exists key, value, c0. repeat split; [left; reflexivity | exact Ef | exact Eb].
  - intros H. apply IH in H as (k & dt & c & Hin & Hk & Hn).
    exists k, dt, c. repeat split; [right|..]; assumption.
Qed.

Let process_drawn_glyphs :=
  process_drawn_glyphs imdecode cvtColor threshold morphologyEx
    findContoursCcomp approxPolyDP.

(** [form] holds the fields by name, the names being ASCII.  An answer
    of [process_drawn_glyphs] lists at least one character, no character
    twice; the characters listed are the lower-case letters [x] of the
    fields named [char_x], every one of which was an upload holding a
    decodable image; fields with other names are ignored. *)
Theorem process_drawn_glyphs_response (form : dict str FormValue)
    (resp : FontResponse) :
  NoDup (keys form) ->
  isascii (concat (keys form)) = true ->
  process_drawn_glyphs form = Ok resp ->
  chars_found resp <> []
  /\ NoDup (chars_found resp)
  /\ total_chars resp = length (chars_found resp)
  /\ (forall c, c ∈ chars_found resp
                <-> exists x value,
                      In (str_of "char_" ++ [x], value) form
                      /\ isalpha x = true /\ c = lower_char x)
  /\ (forall c, c ∈ chars_found resp -> islower c = true)
  /\ (forall x value, In (str_of "char_" ++ [x], value) form -> isalpha x = true ->
                      exists data img,
                        value = UploadFile data /\ imdecode data = Ok (Some img)).
Proof.
  intros _ _.
  unfold process_drawn_glyphs, Handlers.process_drawn_glyphs.
  fold collect_drawn.
  destruct (collect_drawn form []) as [d|e] eqn:Ec;
    cbn [mbind result_mbind result_bind]; [|discriminate].
  apply collect_drawn_Ok in Ec as (Hkeys & Hnd & Hdec).
  destruct d as [|kv d]; [discriminate|].
  destruct (create_font_from_chars _ _ _) as [[ttf_bytes woff2_bytes]|e];
    [|discriminate].
  intros [= <-]. cbn [chars_found total_chars].
  assert (Hchar : forall c, c ∈ keys (kv :: d)
                  <-> exists x value, In (str_of "char_" ++ [x], value) form
                                      /\ isalpha x = true /\ c = lower_char x).
  { intros c. rewrite Hkeys. split.
    - intros [H | (key & value & Hin & Hk)]; [inversion H|].
      apply field_char_Some in Hk as (x & -> & Ha & ->). eauto.
    - intros (x & value & Hin & Ha & ->). right.
      exists (str_of "char_" ++ [x]), value. split; [exact Hin|].
      apply field_char_Some. eauto. }
  split; [destruct kv; simpl; discriminate|].
  split; [apply Hnd; constructor|].
  split; [simpl; rewrite length_keys; reflexivity|].
  split; [exact Hchar|]. split.
  - intros c Hc. apply Hchar in Hc as (x & _ & _ & Ha & ->).
    apply islower_letter. exact Ha.
  - intros x value Hin Ha.
    destruct (Hdec _ value (lower_char x) Hin) as [binary Hb].
    + apply field_char_Some. eauto.
    + apply field_bitmap_Ok in Hb. exact Hb.
Qed.

(** [form] holds the fields by name, the names being ASCII.
    [process_drawn_glyphs] fails in three ways.  What goes wrong with a
    field named [char_x] is not caught and leaves the handler as it is:
    the [AttributeError] of a text field, which cannot be read, the
    decoder's own exception, or the [ValueError] raised for an
    undecodable upload.  Without any such field the answer is 400, and
    a failure of the font generation is answered 500. *)
Theorem process_drawn_glyphs_failures (form : dict str FormValue) (e : exn) :
  NoDup (keys form) ->
  isascii (concat (keys form)) = true ->
  process_drawn_glyphs form = Raise e ->
  (exists x value,
     In (str_of "char_" ++ [x], value) form /\ isalpha x = true
     /\ ((exists text, value = TextField text
                       /\ e = AttributeError "'str' object has no attribute 'read'")
         \/ (exists data, value = UploadFile data
                          /\ (imdecode data = Raise e
                              \/ (imdecode data = Ok None
                                  /\ e = ValueError "Could not decode image data")))))
  \/ (e = HTTPException 400 "No valid character images provided"
      /\ forall x value, In (str_of "char_" ++ [x], value) form -> isalpha x = false)
  \/ (exists detail, e = HTTPException 500 detail).
Proof.
  intros _ _.
  unfold process_drawn_glyphs, Handlers.process_drawn_glyphs.
  fold collect_drawn.
  destruct (collect_drawn form []) as [d|e0] eqn:Ec;
    cbn [mbind result_mbind result_bind].
  - apply collect_drawn_Ok in Ec as (Hkeys & _ & _).
    destruct d as [|kv d].
    + intros [= <-]. right. left. split; [reflexivity|].
      intros x value Hin. destruct (isalpha x) eqn:Ea; [|reflexivity].
      exfalso.
      assert (Hc : lower_char x ∈ keys ([] : dict char Mask)).
      { apply Hkeys. right. exists (str_of "char_" ++ [x]), value.
        split; [exact Hin|]. apply field_char_Some. eauto. }
      inversion Hc.
    + destruct (create_font_from_chars _ _ _) as [[ttf_bytes woff2_bytes]|e1];
        [discriminate|].
      intros [= <-]. right. right. eauto.
  - intros [= <-]. left.
    apply collect_drawn_Raise in Ec as (key & value & c & Hin & Hk & Hb).
    apply field_char_Some in Hk as (x & -> & Ha & ->).
    exists x, value. split; [exact Hin|]. split; [exact Ha|].
    apply field_bitmap_Raise, Hb.
Qed.

End Handlers.

Lemma process_pangram_response_witness :
  chars_found sample_pangram_answer = [97%N]
  /\ NoDup (chars_found sample_pangram_answer).
Proof.
  split; [vm_compute; reflexivity|].
  refine (proj1 (proj2 (process_pangram_response sample_imdecode sample_cvtColor
    sample_blur sample_threshold sample_close square_labelling trace_outer
    trace_rectangle keep_polygon [1%N] (str_of "a") sample_pangram_answer _ _))).
  - reflexivity.
  - vm_compute. reflexivity.
Defined.

Lemma process_pangram_failures_witness :
  exists status detail,
    HTTPException 400 (String.append "Invalid image: " (str_exn empty_buffer))
    = HTTPException status detail
    /\ (status = 400
        /\ (exists e0,
              load_image_from_bytes sample_imdecode (@nil N) = Raise e0
              /\ detail = String.append "Invalid image: " (str_exn e0)
              /\ (sample_imdecode (@nil N) = Raise e0
                  \/ (sample_imdecode (@nil N) = Ok None
                      /\ e0 = ValueError "Could not decode image data")))
        \/ (status = 422 \/ status = 500)
           /\ exists img, sample_imdecode (@nil N) = Ok (Some img))
    /\ (detail = "No characters could be segmented from the image. Try writing larger and with more spacing."%string ->
        get_unique_chars (str_of "a") = []).
Proof.
  refine (process_pangram_failures sample_imdecode sample_cvtColor
    sample_blur sample_threshold sample_close square_labelling trace_outer
    trace_rectangle keep_polygon [] (str_of "a")
    (HTTPException 400 (String.append "Invalid image: " (str_exn empty_buffer))) _ _).
  - reflexivity.
  - reflexivity.
Defined.

(** The sample drawing has an outline, so that its glyph is not
    answered. *)
Lemma process_glyph_endpoint_cases_witness :
  exists g,
    drawn_glyph sample_imdecode sample_cvtColor sample_otsu sample_close
      trace_rectangle keep_polygon [1%N] = Ok g
    /\ paths g <> [].
Proof.
  pose proof (process_glyph_endpoint_cases sample_imdecode sample_cvtColor
    sample_otsu sample_close trace_rectangle keep_polygon
    "Object of type bool is not JSON serializable" [1%N] (str_of "a") eq_refl) as H.
  destruct (process_glyph_endpoint sample_imdecode sample_cvtColor sample_otsu
              sample_close trace_rectangle keep_polygon
              "Object of type bool is not JSON serializable" [1%N] (str_of "a"))
    as [resp|e] eqn:E.
  - vm_compute in E. discriminate E.
  - vm_compute in E. injection E as <-.
    destruct H as [[H _] | [(c & e0 & _ & _ & _ & H & _) | (c & g & _ & _ & Hg & Hp & _)]];
      [discriminate H | discriminate H | exists g; auto].
Defined.

Lemma process_drawn_glyphs_response_witness :
  chars_found sample_drawn_answer = [97%N]
  /\ NoDup (chars_found sample_drawn_answer).
Proof.
  split; [vm_compute; reflexivity|].
  refine (proj1 (proj2 (process_drawn_glyphs_response sample_imdecode
    sample_cvtColor sample_otsu sample_close trace_rectangle keep_polygon
    [(str_of "char_A", UploadFile [1%N])] sample_drawn_answer _ _ _))).
  - apply NoDup_singleton.
  - reflexivity.
  - vm_compute. reflexivity.
Defined.

Lemma process_drawn_glyphs_failures_witness :
  (exists x value,
     In (str_of "char_" ++ [x], value) [(str_of "char_a", UploadFile (@nil N))]
     /\ isalpha x = true
     /\ ((exists text, value = TextField text
                       /\ empty_buffer
                          = AttributeError "'str' object has no attribute 'read'")
         \/ (exists data, value = UploadFile data
                          /\ (sample_imdecode data = Raise empty_buffer
                              \/ (sample_imdecode data = Ok None
                                  /\ empty_buffer
                                     = ValueError "Could not decode image data")))))
  \/ (empty_buffer = HTTPException 400 "No valid character images provided"
      /\ forall x value,
           In (str_of "char_" ++ [x], value) [(str_of "char_a", UploadFile (@nil N))] ->
           isalpha x = false)
  \/ (exists detail, empty_buffer = HTTPException 500 detail).
Proof.
  refine (process_drawn_glyphs_failures sample_imdecode sample_cvtColor
    sample_otsu sample_close trace_rectangle keep_polygon
    [(str_of "char_a", UploadFile (@nil N))] empty_buffer _ _ _).
  - apply NoDup_singleton.
  - reflexivity.
  - reflexivity.
Defined.

End HandlerFacts.

(** * fontgen.py: from bitmaps to the font *)

Module FontFromCharsFacts.

Import Vectorize Fontgen FontTableFacts HandlerFacts.

Section WithOpenCV.

Variable findContours : Mask -> list Contour * option (list HierarchyRow).
Variable approxPolyDP : Contour -> Q -> bool -> Contour.

Let process_glyph_bitmap := process_glyph_bitmap findContours approxPolyDP.
Let vectorize_chars := vectorize_chars findContours approxPolyDP.
Let create_font_from_chars := create_font_from_chars findContours approxPolyDP.

(** The characters kept by the loop: those with a bitmap that yields at
    least one path. *)
Lemma vectorize_chars_keys (char_bitmaps : dict char Mask) :
  forall glyphs0 glyphs,
    vectorize_chars char_bitmaps glyphs0 = Ok glyphs ->
    (forall c, c ∈ keys glyphs
               <-> c ∈ keys glyphs0
                   \/ exists bitmap g,
                        In (c, bitmap) char_bitmaps
                        /\ process_glyph_bitmap bitmap = Ok g /\ paths g <> [])
    /\ (forall c bitmap, In (c, bitmap) char_bitmaps ->
                         exists g, process_glyph_bitmap bitmap = Ok g).
Proof.
  induction char_bitmaps as [|[c0 bitmap0] rest IH]; intros glyphs0 glyphs.
  - intros [= <-]. split.
    + intros c. split; [auto | intros [H | (b & g & [] & _)]; exact H].
    + intros c bitmap [].
  - unfold vectorize_chars. cbn [Fontgen.vectorize_chars].
    fold vectorize_chars. fold (process_glyph_bitmap bitmap0).
    destruct (process_glyph_bitmap bitmap0) as [g0|e] eqn:Eg;
      cbn [mbind result_mbind result_bind]; [|discriminate].
    intros H. apply IH in H as [Hkeys Hall]. split.
    + intros c. rewrite Hkeys. split.
      * intros [Hc | (b & g & Hin & Hg & Hp)].
        -- destruct (paths g0) as [|p ps] eqn:Ep; [left; exact Hc|].
           apply elem_of_keys_dict_set in Hc as [-> | Hc]; [|left; exact Hc].
           right. exists bitmap0, g0. split; [left; reflexivity|].
           split; [exact Eg | rewrite Ep; discriminate].
        -- right. exists b, g. split; [right; exact Hin | auto].
      * intros [Hc | (b & g & [[= <- <-] | Hin] & Hg & Hp)].
        -- left. destruct (paths g0); [exact Hc|].
           apply elem_of_keys_dict_set. right. exact Hc.
        -- left. rewrite Eg in Hg. injection Hg as <-.
           destruct (paths g0); [contradiction|].
           apply elem_of_keys_dict_set. left. reflexivity.
        -- right. exists b, g. auto.
    + intros c bitmap [[= <- <-] | Hin]; [eauto | eapply Hall; eauto].
Qed.

Lemma glyph_order_uni (glyphs : dict char GlyphData) (family style : string)
    (c : char) :
  In (uni_name c) (glyphOrder (font_of (create_font glyphs family style).1))
  <-> c ∈ keys glyphs.
Proof.
  destruct (create_font_tables glyphs family style) as (Ho & _ & _).
  cbv zeta in Ho. rewrite Ho. rewrite in_app_iff, in_map_iff.
  rewrite list_elem_of_In, <- In_sorted_keys. split.
  - intros [[E | [E | []]] | (c' & E & Hc')].
    + symmetry in E. destruct (proj1 (uni_name_not_reserved c) E).
    + symmetry in E. destruct (proj2 (uni_name_not_reserved c) E).
    + apply uni_name_inj in E. subst c'. exact Hc'.
  - intros Hc. right. exists c. auto.
Qed.

(** When [create_font_from_chars] returns, every bitmap was vectorized
    without error, and the font holds a glyph [uniXXXX] for exactly the
    characters whose bitmap gave at least one path, of which there is at
    least one: characters with an empty drawing are left out. *)
Theorem create_font_from_chars_glyphs (char_bitmaps : dict char Mask)
    (fonts : FontFile * FontFile) :
  create_font_from_chars char_bitmaps = Ok fonts ->
  (forall c, In (uni_name c) (glyphOrder (font_of fonts.1))
             <-> exists bitmap g,
                   In (c, bitmap) char_bitmaps
                   /\ process_glyph_bitmap bitmap = Ok g /\ paths g <> [])
  /\ (forall c bitmap, In (c, bitmap) char_bitmaps ->
                       exists g, process_glyph_bitmap bitmap = Ok g)
  /\ (exists c, In (uni_name c) (glyphOrder (font_of fonts.1))).
Proof.
  unfold create_font_from_chars, Fontgen.create_font_from_chars.
  fold vectorize_chars.
  destruct (vectorize_chars char_bitmaps []) as [glyphs|e] eqn:Ev;
    cbn [mbind result_mbind result_bind]; [|discriminate].
  apply vectorize_chars_keys in Ev as [Hkeys Hall].
  destruct glyphs as [|[c0 g0] glyphs]; [discriminate|].
  intros [= <-]. split; [|split; [exact Hall|]].
  - intros c. rewrite glyph_order_uni, Hkeys. split.
    + intros [H | H]; [inversion H | exact H].
    + auto.
  - exists c0. apply glyph_order_uni. left.
Qed.

Lemma create_font_from_chars_order (char_bitmaps : dict char Mask)
    (fonts : FontFile * FontFile) :
  create_font_from_chars char_bitmaps = Ok fonts ->
  forall c, In (uni_name c) (glyphOrder (font_of fonts.1)) ->
            c ∈ keys char_bitmaps.
Proof.
  unfold create_font_from_chars, Fontgen.create_font_from_chars.
  fold vectorize_chars.
  destruct (vectorize_chars char_bitmaps []) as [glyphs|e] eqn:Ev;
    cbn [mbind result_mbind result_bind]; [|discriminate].
  apply vectorize_chars_keys in Ev as [Hkeys _].
  destruct glyphs as [|[c0 g0] glyphs]; [discriminate|].
  intros [= <-].
  intros c Hc. apply glyph_order_uni, Hkeys in Hc as [Hc | (b & g & Hin & _)];
    [inversion Hc|].
  unfold keys. apply list_elem_of_In, in_map_iff. exists (c, b). auto.
Qed.

End WithOpenCV.

Lemma create_font_from_chars_glyphs_witness :
  exists c,
    In (uni_name c)
       (glyphOrder
          (font_of
             (create_font
                [(97%N, mkGlyph [mkPath [(590, 800); (590, 50); (90, 50); (90, 800)]
                                        false] 930 90)]
                "MyHandwriting" "Regular").1)).
Proof.
  refine (proj2 (proj2 (create_font_from_chars_glyphs trace_rectangle keep_polygon
    [(97%N, block_mask)]
    (create_font
       [(97%N, mkGlyph [mkPath [(590, 800); (590, 50); (90, 50); (90, 800)] false]
                       930 90)]
       "MyHandwriting" "Regular") _))).
  vm_compute. reflexivity.
Defined.

(** ** The fonts in the answers *)

Section Answers.

Import Preprocess PreprocessGlyph Handlers.

Variable imdecode : bytes -> result (option Image).
Variable cvtColor : Image -> Mask.
Variable GaussianBlur : Mask -> Z * Z -> Z -> Mask.
Variable adaptiveThreshold : Mask -> Z -> Z -> Z -> Mask.
Variable threshold : Mask -> Z -> Z -> Mask.
Variable morphologyEx : Mask -> Z * Z -> Z -> Mask.
Variable connectedComponentsWithStats : Mask -> Z -> nat * Labels * list Stat.
Variable findContoursExternal : Mask -> list Contour.
Variable findContoursCcomp : Mask -> list Contour * option (list HierarchyRow).
Variable approxPolyDP : Contour -> Q -> bool -> Contour.

(** In an answer of [process_pangram] to an ASCII phrase, or of
    [process_drawn_glyphs] to a form with ASCII field names, every glyph
    [uniXXXX] of the font belongs to a character listed in
    [chars_found]. *)
Theorem answer_font_glyphs (image_data : bytes) (pangram : str)
    (form : dict str FormValue) (resp : FontResponse) :
  (isascii pangram = true
   /\ process_pangram imdecode cvtColor GaussianBlur adaptiveThreshold morphologyEx
        connectedComponentsWithStats findContoursExternal findContoursCcomp
        approxPolyDP image_data pangram = Ok resp)
  \/ (NoDup (keys form) /\ isascii (concat (keys form)) = true
      /\ process_drawn_glyphs imdecode cvtColor threshold morphologyEx
           findContoursCcomp approxPolyDP form = Ok resp) ->
  forall c, In (uni_name c) (glyphOrder (font_of (ttf resp))) ->
            c ∈ chars_found resp.
Proof.
  intros [[_ H] | (_ & _ & H)]; revert H.
  - unfold process_pangram.
    destruct (load_image_from_bytes imdecode image_data) as [img|e];
      [|discriminate].
    destruct (Segment.segment_characters _ _ pangram) as [pairs|e];
      [|discriminate].
    destruct pairs as [|pair pairs]; [discriminate|].
    destruct (create_font_from_chars _ _ _) as [[ttf_bytes woff2_bytes]|e] eqn:Ef;
      [|discriminate].
    intros [= <-]. cbn [ttf woff2 chars_found].
    exact (create_font_from_chars_order _ _ _ _ Ef).
  - unfold process_drawn_glyphs.
    destruct (collect_drawn _ _ _ _ form []) as [d|e];
      cbn [mbind result_mbind result_bind]; [|discriminate].
    destruct d as [|kv d]; [discriminate|].
    destruct (create_font_from_chars _ _ _) as [[ttf_bytes woff2_bytes]|e] eqn:Ef;
      [|discriminate].
    intros [= <-]. cbn [ttf woff2 chars_found].
    exact (create_font_from_chars_order _ _ _ _ Ef).
Qed.

End Answers.

Lemma answer_font_glyphs_witness :
  In (uni_name 97%N) (glyphOrder (font_of (Handlers.ttf sample_drawn_answer)))
  /\ 97%N ∈ Handlers.chars_found sample_drawn_answer.
Proof.
  assert (Hin : In (uni_name 97%N)
                   (glyphOrder (font_of (Handlers.ttf sample_drawn_answer))))
    by (vm_compute; auto).
  split; [exact Hin|].
  refine (answer_font_glyphs sample_imdecode sample_cvtColor
    sample_blur sample_threshold sample_otsu sample_close square_labelling
    trace_outer trace_rectangle keep_polygon [] []
    [(str_of "char_A", Handlers.UploadFile [1%N])] sample_drawn_answer _
    97%N Hin).
  right. split; [apply NoDup_singleton|]. split; [reflexivity|].
  vm_compute. reflexivity.
Defined.

End FontFromCharsFacts.
